(** * ratemon/runtime/libratemon_interp.cpp: the RWND admission scheduler

    A shallow embedding of the interposition library: the process-wide
    globals become one [state] record, the intercepted [accept] and
    [close] and the scheduling thread [thread_func] become functions on
    it, and the calls that leave the process (libbpf, the
    acknowledgment-triggering getsockopt) are recorded in a trace.
    The outcome of every call into the operating system is read from an
    environment record, so each function is executable. *)

From stdpp Require Import gmap strings list fin_maps.

Open Scope Z_scope.

(** ** Data model *)

(** [struct rm_flow] (declared in ratemon.h, used at lines 254-257): the
    four-tuple in host byte order. *)
Record rm_flow := {
  local_addr : Z;
  remote_addr : Z;
  local_port : Z;
  remote_port : Z
}.

#[global] Instance rm_flow_eq_dec : EqDecision rm_flow.
Proof. solve_decision. Defined.

#[global] Instance rm_flow_countable : Countable rm_flow.
Proof.
  apply (inj_countable'
    (fun f => (local_addr f, remote_addr f, local_port f, remote_port f))
    (fun t => match t with (a, b, p, q) => Build_rm_flow a b p q end)).
  intros []; reflexivity.
Defined.

(** [struct sockaddr_in], the two fields the code reads, in network byte
    order. *)
Record sockaddr_in := {
  sin_addr : Z;
  sin_port : Z
}.

(** Calls that leave the process, in the order they are made. *)
Inductive event :=
| BpfOpenAndLoad (loaded : bool)
| BpfObjGet (ret : Z)
| BpfMapUpdateElem (map_fd : Z) (key : rm_flow) (value : Z)
| BpfMapDeleteElem (map_fd : Z) (key : rm_flow)
| TriggerAck (fd : Z).

#[global] Instance event_eq_dec : EqDecision event.
Proof. solve_decision. Defined.

(** The globals of lines 28-56; [trace] is the only ghost field. A
    [std::queue] is a list whose head is [front()] and whose end receives
    [push]; the concurrent flat map is a finite map. *)
Record state := {
  setup : bool;
  skipped_first : bool;
  active_fds_queue : list Z;
  paused_fds_queue : list Z;
  skel : bool;
  flow_to_rwnd_fd : Z;
  fd_to_flow : gmap Z rm_flow;
  trace : list event
}.

(** [max_active_flows] and [epoch_us] (lines 52-56) are [unsigned int]
    values fixed at start-up; RM_BPF_CUBIC is a string macro of
    ratemon.h, taken here as a parameter of the configuration. *)
Record config := {
  max_active_flows : N;
  epoch_us : N;
  RM_BPF_CUBIC : string
}.

Definition zero : Z := 0.
Definition AF_INET : Z := 2.

Definition initial_state : state :=
  {| setup := false; skipped_first := false;
     active_fds_queue := []; paused_fds_queue := [];
     skel := false; flow_to_rwnd_fd := 0;
     fd_to_flow := ∅; trace := [] |}.

(** Field updates. *)
Definition set_setup (b : bool) (s : state) : state :=
  {| setup := b; skipped_first := skipped_first s;
     active_fds_queue := active_fds_queue s;
     paused_fds_queue := paused_fds_queue s;
     skel := skel s; flow_to_rwnd_fd := flow_to_rwnd_fd s;
     fd_to_flow := fd_to_flow s; trace := trace s |}.

Definition set_skipped_first (b : bool) (s : state) : state :=
  {| setup := setup s; skipped_first := b;
     active_fds_queue := active_fds_queue s;
     paused_fds_queue := paused_fds_queue s;
     skel := skel s; flow_to_rwnd_fd := flow_to_rwnd_fd s;
     fd_to_flow := fd_to_flow s; trace := trace s |}.

Definition set_active (q : list Z) (s : state) : state :=
  {| setup := setup s; skipped_first := skipped_first s;
     active_fds_queue := q;
     paused_fds_queue := paused_fds_queue s;
     skel := skel s; flow_to_rwnd_fd := flow_to_rwnd_fd s;
     fd_to_flow := fd_to_flow s; trace := trace s |}.

Definition set_paused (q : list Z) (s : state) : state :=
  {| setup := setup s; skipped_first := skipped_first s;
     active_fds_queue := active_fds_queue s;
     paused_fds_queue := q;
     skel := skel s; flow_to_rwnd_fd := flow_to_rwnd_fd s;
     fd_to_flow := fd_to_flow s; trace := trace s |}.

Definition set_skel (b : bool) (s : state) : state :=
  {| setup := setup s; skipped_first := skipped_first s;
     active_fds_queue := active_fds_queue s;
     paused_fds_queue := paused_fds_queue s;
     skel := b; flow_to_rwnd_fd := flow_to_rwnd_fd s;
     fd_to_flow := fd_to_flow s; trace := trace s |}.

Definition set_flow_to_rwnd_fd (fd : Z) (s : state) : state :=
  {| setup := setup s; skipped_first := skipped_first s;
     active_fds_queue := active_fds_queue s;
     paused_fds_queue := paused_fds_queue s;
     skel := skel s; flow_to_rwnd_fd := fd;
     fd_to_flow := fd_to_flow s; trace := trace s |}.

Definition set_fd_to_flow (m : gmap Z rm_flow) (s : state) : state :=
  {| setup := setup s; skipped_first := skipped_first s;
     active_fds_queue := active_fds_queue s;
     paused_fds_queue := paused_fds_queue s;
     skel := skel s; flow_to_rwnd_fd := flow_to_rwnd_fd s;
     fd_to_flow := m; trace := trace s |}.

Definition emit (ev : event) (s : state) : state :=
  {| setup := setup s; skipped_first := skipped_first s;
     active_fds_queue := active_fds_queue s;
     paused_fds_queue := paused_fds_queue s;
     skel := skel s; flow_to_rwnd_fd := flow_to_rwnd_fd s;
     fd_to_flow := fd_to_flow s; trace := trace s ++ [ev] |}.

(** ** The collaborators *)

(** [bpf_map_update_elem(fd, key, value, BPF_ANY)] and
    [bpf_map_delete_elem(fd, key)]: the results are ignored by every
    caller, so only the call is recorded. *)
Definition bpf_map_update_elem (map_fd : Z) (key : rm_flow) (value : Z)
    (s : state) : state :=
  emit (BpfMapUpdateElem map_fd key value) s.

Definition bpf_map_delete_elem (map_fd : Z) (key : rm_flow)
    (s : state) : state :=
  emit (BpfMapDeleteElem map_fd key) s.

(** Lines 58-63. *)
Definition trigger_ack (fd : Z) (s : state) : state :=
  emit (TriggerAck fd) s.

(** [concurrent_flat_map::visit(k, f)]: runs [f] on the entry of [k] when
    there is one and returns the number of entries visited. *)
Definition visit (k : Z) (f : rm_flow -> state -> state) (s : state)
    : bool * state :=
  match fd_to_flow s !! k with
  | Some p => (true, f p s)
  | None => (false, s)
  end.

(** [concurrent_flat_map::insert]: no effect when the key is present. *)
Definition registry_insert (k : Z) (v : rm_flow) (m : gmap Z rm_flow)
    : gmap Z rm_flow :=
  match m !! k with
  | Some _ => m
  | None => <[k := v]> m
  end.

(** [ntohs] and [ntohl] on a little-endian host. *)
Definition ntohs (x : Z) : Z :=
  Z.lor (Z.shiftl (Z.land x 255) 8) (Z.land (Z.shiftr x 8) 255).

Definition ntohl (x : Z) : Z :=
  Z.lor (Z.shiftl (Z.land x 255) 24)
    (Z.lor (Z.shiftl (Z.land (Z.shiftr x 8) 255) 16)
       (Z.lor (Z.shiftl (Z.land (Z.shiftr x 16) 255) 8)
          (Z.land (Z.shiftr x 24) 255))).

(** The contents of the pinned map after a trace, were every map call
    to succeed. *)
Definition apply_event (m : gmap rm_flow Z) (ev : event) : gmap rm_flow Z :=
  match ev with
  | BpfMapUpdateElem _ key value => <[key := value]> m
  | BpfMapDeleteElem _ key => delete key m
  | _ => m
  end.

Definition flow_to_rwnd (tr : list event) : gmap rm_flow Z :=
  foldl apply_event ∅ tr.

(** The calls of a trace that reach the kernel map or a connection. *)
Definition is_kernel_call (ev : event) : bool :=
  match ev with
  | BpfMapUpdateElem _ _ _ | BpfMapDeleteElem _ _ | TriggerAck _ => true
  | _ => false
  end.

Definition kernel_calls (tr : list event) : list event :=
  List.filter is_kernel_call tr.

Definition is_open_attempt (ev : event) : bool :=
  match ev with
  | BpfOpenAndLoad _ => true
  | _ => false
  end.

Definition open_attempts (tr : list event) : nat :=
  length (List.filter is_open_attempt tr).

Definition config_invalid (c : config) : bool :=
  (max_active_flows c =? 0)%N || (epoch_us c =? 0)%N.

(** ** The scheduling thread, lines 65-152 *)

(** The condition of the while loop at lines 105-106. *)
Definition select_cond (c : config) (new_active_fds : list Z) (s : state)
    : bool :=
  negb (bool_decide (paused_fds_queue s = [])) &&
  (N.of_nat (length new_active_fds) <? max_active_flows c)%N.

(** Its body, lines 107-112. The loop condition excludes the empty
    queue. *)
Definition select_body (new_active_fds : list Z) (s : state)
    : list Z * state :=
  match paused_fds_queue s with
  | [] => (new_active_fds, s)
  | next_fd :: rest =>
      let (found, s1) := visit next_fd (fun _ s => s) s in
      if found
      then (new_active_fds ++ [next_fd], set_paused rest s1)
      else (new_active_fds, s1)
  end.

(** The loop, run for at most [fuel] iterations; [None] when the
    condition still holds after them. *)
Fixpoint select_loop (fuel : nat) (c : config) (new_active_fds : list Z)
    (s : state) : option (list Z * state) :=
  if select_cond c new_active_fds s then
    match fuel with
    | O => None
    | S fuel' =>
        let (na, s1) := select_body new_active_fds s in
        select_loop fuel' c na s1
    end
  else Some (new_active_fds, s).

(** Lines 120-127. *)
Fixpoint activate_loop (new_active_fds : list Z) (s : state) : state :=
  match new_active_fds with
  | [] => s
  | fd :: fds =>
      let s1 := set_active (active_fds_queue s ++ [fd]) s in
      let s2 := snd (visit fd
                  (fun p s => bpf_map_delete_elem (flow_to_rwnd_fd s) p s)
                  s1) in
      let s3 := trigger_ack fd s2 in
      activate_loop fds s3
  end.

(** Lines 134-144; [front()] is never taken on an empty queue because
    the bound is the size read at line 114. *)
Fixpoint pause_loop (num_prev_active : nat) (s : state) : state :=
  match num_prev_active with
  | O => s
  | S n =>
      match active_fds_queue s with
      | [] => s
      | fd :: rest =>
          let s1 := set_active rest s in
          let s2 := set_paused (paused_fds_queue s1 ++ [fd]) s1 in
          let s3 := snd (visit fd
                      (fun p s =>
                         bpf_map_update_elem (flow_to_rwnd_fd s) p zero s)
                      s2) in
          let s4 := trigger_ack fd s3 in
          pause_loop n s4
      end
  end.

(** Lines 114-145: what the thread does between the end of the selection
    and [lock.unlock()]. *)
Definition rotate (new_active_fds : list Z) (s : state) : state :=
  let num_prev_active := length (active_fds_queue s) in
  pause_loop num_prev_active (activate_loop new_active_fds s).

(** Lines 100-148: the section under the lock. *)
Definition schedule (fuel : nat) (c : config) (s : state) : option state :=
  match select_loop fuel c [] s with
  | None => None
  | Some (new_active_fds, s1) => Some (rotate new_active_fds s1)
  end.

(** The two early [continue]s of an epoch, lines 87-98. *)
Definition skip_epoch (c : config) (s : state) : bool :=
  negb (setup s) ||
  ((N.of_nat (length (active_fds_queue s)) <? max_active_flows c)%N &&
   (N.of_nat (length (paused_fds_queue s)) =? 0)%N).

(** One iteration of [while (true)], lines 83-150. *)
Definition epoch (fuel : nat) (c : config) (s : state) : option state :=
  if skip_epoch c s then Some s else schedule fuel c s.

(** Where the thread is after it has been given [n] epochs: it has
    returned (line 74), it is about to sleep again, or it is still inside
    the selection loop of one of these epochs after [fuel] iterations of
    it. *)
Inductive thread_result :=
| Returned (s : state)
| Sleeping (s : state)
| Still_selecting.

Fixpoint epochs (n : nat) (fuel : nat) (c : config) (s : state)
    : thread_result :=
  match n with
  | O => Sleeping s
  | S n' =>
      match epoch fuel c s with
      | None => Still_selecting
      | Some s1 => epochs n' fuel c s1
      end
  end.

Definition thread_func (n : nat) (fuel : nat) (c : config) (s : state)
    : thread_result :=
  if config_invalid c then Returned s else epochs n fuel c s.

(** ** The intercepted [accept], lines 158-279 *)

(** What the operating system answers during one call. [real_accept] is
    [None] when [dlsym] finds no symbol and otherwise the value the
    underlying call returns; [sa_family] is [None] when [addr] is NULL. *)
Record accept_env := {
  real_accept : option Z;
  sa_family : option Z;
  ratemon_maps_bpf__open_and_load : bool;
  bpf_obj_get : Z;
  setsockopt_ret : Z;
  getsockopt_ret : Z;
  retrieved_cca : string;
  getsockname_ret : Z;
  local_sockaddr : sockaddr_in;
  getpeername_ret : Z;
  remote_sockaddr : sockaddr_in
}.

(** Lines 185-205. The flag is [false] when the skeleton did not load,
    in which case the caller returns at line 190. *)
Definition bpf_setup (e : accept_env) (s : state) : bool * state :=
  if negb (setup s) then
    let s1 := emit (BpfOpenAndLoad (ratemon_maps_bpf__open_and_load e))
                (set_skel (ratemon_maps_bpf__open_and_load e) s) in
    if negb (skel s1) then (false, s1)
    else
      let pinned_map_fd := bpf_obj_get e in
      let s2 := emit (BpfObjGet pinned_map_fd) s1 in
      let s3 := set_flow_to_rwnd_fd pinned_map_fd s2 in
      (true, set_setup true s3)
  else (true, s).

(** Lines 254-257. *)
Definition four_tuple (e : accept_env) : rm_flow :=
  {| local_addr := ntohl (sin_addr (local_sockaddr e));
     remote_addr := ntohl (sin_addr (remote_sockaddr e));
     local_port := ntohs (sin_port (local_sockaddr e));
     remote_port := ntohs (sin_port (remote_sockaddr e)) |}.

(** Lines 159-260, up to [lock.lock()]: either the call returns a value,
    or the flow has been inserted in the registry and the call goes on
    to the section under the lock. *)
Definition accept_until_lock (c : config) (e : accept_env) (s : state)
    : state * (Z + Z * rm_flow) :=
  if config_invalid c then (s, inl (-1)) else
  match real_accept e with
  | None => (s, inl (-1))
  | Some new_fd =>
      if new_fd =? -1 then (s, inl new_fd) else
      if match sa_family e with
         | Some family => negb (family =? AF_INET)
         | None => false
         end
      then (s, inl new_fd) else
      match bpf_setup e s with
      | (false, s1) => (s1, inl new_fd)
      | (true, s1) =>
          if (size (fd_to_flow s1) =? 0)%nat && negb (skipped_first s1)
          then (set_skipped_first true s1, inl new_fd) else
          if setsockopt_ret e =? -1 then (s1, inl new_fd) else
          if getsockopt_ret e =? -1 then (s1, inl new_fd) else
          if negb (bool_decide (retrieved_cca e = RM_BPF_CUBIC c))
          then (s1, inl new_fd) else
          if getsockname_ret e =? -1 then (s1, inl (-1)) else
          if getpeername_ret e =? -1 then (s1, inl (-1)) else
          let flow := four_tuple e in
          let s2 :=
            set_fd_to_flow (registry_insert new_fd flow (fd_to_flow s1)) s1 in
          (s2, inr (new_fd, flow))
      end
  end.

(** Lines 262-275, under the lock. *)
Definition accept_locked (c : config) (new_fd : Z) (flow : rm_flow)
    (s : state) : state :=
  if (N.of_nat (length (active_fds_queue s)) <? max_active_flows c)%N
  then set_active (active_fds_queue s ++ [new_fd]) s
  else
    let s1 := set_paused (paused_fds_queue s ++ [new_fd]) s in
    bpf_map_update_elem (flow_to_rwnd_fd s1) flow zero s1.

Definition accept (c : config) (e : accept_env) (s : state) : Z * state :=
  match accept_until_lock c e s with
  | (s1, inl ret) => (ret, s1)
  | (s1, inr (new_fd, flow)) => (new_fd, accept_locked c new_fd flow s1)
  end.

(** ** The intercepted [close], lines 283-307 *)

(** [real_close] is [None] when [dlsym] finds no symbol and otherwise
    the value the underlying call returns. *)
Record close_env := {
  real_close : option Z
}.

Definition close (e : close_env) (sockfd : Z) (s : state) : Z * state :=
  match real_close e with
  | None => (-1, s)
  | Some ret =>
      if ret =? -1 then (ret, s) else
      let s1 := snd (visit sockfd
                  (fun p s => bpf_map_delete_elem (flow_to_rwnd_fd s) p s)
                  s) in
      let s2 := set_fd_to_flow (delete sockfd (fd_to_flow s1)) s1 in
      (ret, s2)
  end.

(** ** Interleavings of callers and the scheduling thread *)

(** The scheduling thread either holds no lock, or holds it and is in the
    selection loop with the handles chosen so far. Lines 114-147 make no
    blocking call and are taken as one step. *)
Inductive sched_pc :=
| Idle
| Selecting (new_active_fds : list Z).

(** [waiting] holds the callers of [accept] that have inserted their
    flow at line 260 and have not yet taken the lock at line 262. *)
Record sys := {
  globals : state;
  sched : sched_pc;
  waiting : list (Z * rm_flow)
}.

Definition initial_sys : sys :=
  {| globals := initial_state; sched := Idle; waiting := [] |}.

Inductive label :=
| LAccept (e : accept_env)
| LAcceptLocked (new_fd : Z) (flow : rm_flow)
| LClose (e : close_env) (sockfd : Z)
| LSkip
| LLock
| LSelect
| LRotate (new_active_fds : list Z).

Inductive step (c : config) : sys -> label -> sys -> Prop :=
| step_accept_returns e s pc w s1 ret :
    accept_until_lock c e s = (s1, inl ret) ->
    step c {| globals := s; sched := pc; waiting := w |}
         (LAccept e)
         {| globals := s1; sched := pc; waiting := w |}
| step_accept_registers e s pc w s1 new_fd flow :
    accept_until_lock c e s = (s1, inr (new_fd, flow)) ->
    step c {| globals := s; sched := pc; waiting := w |}
         (LAccept e)
         {| globals := s1; sched := pc; waiting := w ++ [(new_fd, flow)] |}
| step_accept_locked s w1 w2 new_fd flow :
    step c {| globals := s; sched := Idle;
              waiting := w1 ++ (new_fd, flow) :: w2 |}
         (LAcceptLocked new_fd flow)
         {| globals := accept_locked c new_fd flow s; sched := Idle;
            waiting := w1 ++ w2 |}
| step_close e sockfd s pc w :
    step c {| globals := s; sched := pc; waiting := w |}
         (LClose e sockfd)
         {| globals := snd (close e sockfd s); sched := pc; waiting := w |}
| step_sched_skip s w :
    config_invalid c = false ->
    skip_epoch c s = true ->
    step c {| globals := s; sched := Idle; waiting := w |}
         LSkip
         {| globals := s; sched := Idle; waiting := w |}
| step_sched_lock s w :
    config_invalid c = false ->
    skip_epoch c s = false ->
    step c {| globals := s; sched := Idle; waiting := w |}
         LLock
         {| globals := s; sched := Selecting []; waiting := w |}
| step_sched_select s w na na1 s1 :
    config_invalid c = false ->
    select_cond c na s = true ->
    select_body na s = (na1, s1) ->
    step c {| globals := s; sched := Selecting na; waiting := w |}
         LSelect
         {| globals := s1; sched := Selecting na1; waiting := w |}
| step_sched_rotate s w na :
    config_invalid c = false ->
    select_cond c na s = false ->
    step c {| globals := s; sched := Selecting na; waiting := w |}
         (LRotate na)
         {| globals := rotate na s; sched := Idle; waiting := w |}.

Inductive run (c : config) : sys -> list label -> sys -> Prop :=
| run_nil y : run c y [] y
| run_cons y l y1 ls y2 :
    step c y l y1 -> run c y1 ls y2 -> run c y (l :: ls) y2.

Definition reachable (c : config) (y : sys) : Prop :=
  exists ls, run c initial_sys ls y.

(** ** Summaries used in the statements *)

(** A state with the two queues and the trace replaced. *)
Definition with_queues (active paused : list Z) (tr : list event)
    (s : state) : state :=
  {| setup := setup s; skipped_first := skipped_first s;
     active_fds_queue := active;
     paused_fds_queue := paused;
     skel := skel s; flow_to_rwnd_fd := flow_to_rwnd_fd s;
     fd_to_flow := fd_to_flow s; trace := tr |}.

(** The calls made for one handle at lines 123-126 and at lines
    139-143. *)
Definition activate_events (s : state) (fd : Z) : list event :=
  match fd_to_flow s !! fd with
  | Some p => [BpfMapDeleteElem (flow_to_rwnd_fd s) p]
  | None => []
  end ++ [TriggerAck fd].

Definition pause_events (s : state) (fd : Z) : list event :=
  match fd_to_flow s !! fd with
  | Some p => [BpfMapUpdateElem (flow_to_rwnd_fd s) p zero]
  | None => []
  end ++ [TriggerAck fd].

(** How many handles a terminating selection picks. *)
Definition num_selected (c : config) (s : state) : nat :=
  Nat.min (N.to_nat (max_active_flows c)) (length (paused_fds_queue s)).

(** The active queue holds at most the capacity, and so does the
    selection in progress. *)
Definition within_capacity (c : config) (y : sys) : Prop :=
  (N.of_nat (length (active_fds_queue (globals y))) <= max_active_flows c)%N
  /\ match sched y with
     | Idle => True
     | Selecting na => (N.of_nat (length na) <= max_active_flows c)%N
     end.



(** Nothing is registered, queued or waiting, the scheduling thread
    holds no lock, and no call has reached the kernel map. *)
Definition unmanaged (y : sys) : Prop :=
  fd_to_flow (globals y) = ∅ /\
  active_fds_queue (globals y) = [] /\
  paused_fds_queue (globals y) = [] /\
  waiting y = [] /\
  sched y = Idle /\
  kernel_calls (trace (globals y)) = [].


(** ** Worked executions *)

Definition example_config (max : N) : config :=
  {| max_active_flows := max; epoch_us := 1000;
     RM_BPF_CUBIC := "bpf_cubic" |}.

(** An [accept] whose underlying call returns [new_fd] for a peer on
    port [peer]; the other arguments are the outcome of loading the
    skeleton, of the two socket-option calls and the algorithm name read
    back. *)
Definition accept_with (new_fd peer : Z) (loaded : bool)
    (setsockopt getsockopt : Z) (cca : string) : accept_env :=
  {| real_accept := Some new_fd; sa_family := Some AF_INET;
     ratemon_maps_bpf__open_and_load := loaded; bpf_obj_get := 9;
     setsockopt_ret := setsockopt; getsockopt_ret := getsockopt;
     retrieved_cca := cca;
     getsockname_ret := 0;
     local_sockaddr := {| sin_addr := 16777343; sin_port := 20480 |};
     getpeername_ret := 0;
     remote_sockaddr := {| sin_addr := 16777343; sin_port := peer |} |}.

(** An [accept] in which every call into the system succeeds. *)
Definition accept_ok (new_fd peer : Z) : accept_env :=
  accept_with new_fd peer true 0 0 "bpf_cubic".

Definition close_ok : close_env := {| real_close := Some 0 |}.

(** The state once the exempted control flow has been accepted: set-up
    is done and nothing is registered. *)
Definition managed_state : state :=
  snd (accept (example_config 2) (accept_ok 3 1) initial_state).

(** Capacity 1. The first connection is the exempted control flow, 4
    becomes active, 5 is paused, and 5 is closed while it is paused. *)
Definition stale_state : state :=
  let c := example_config 1 in
  let s1 := snd (accept c (accept_ok 3 1) initial_state) in
  let s2 := snd (accept c (accept_ok 4 2) s1) in
  let s3 := snd (accept c (accept_ok 5 3) s2) in
  snd (close close_ok 5 s3).

(** The scheduling thread has taken the lock in that state. *)
Definition stale_sys : sys :=
  {| globals := stale_state; sched := Selecting []; waiting := [] |}.

(** Capacity 2. After the exempted control flow, 4 and 5 become active
    and 6 is paused. *)
Definition three_flows_state : state :=
  let c := example_config 2 in
  let s1 := snd (accept c (accept_ok 3 1) initial_state) in
  let s2 := snd (accept c (accept_ok 4 2) s1) in
  let s3 := snd (accept c (accept_ok 5 3) s2) in
  snd (accept c (accept_ok 6 4) s3).

(** Then 4 is closed while it is active. *)
Definition rotation_state : state :=
  snd (close close_ok 4 three_flows_state).

(** What C2 says of a cycle: as many handles leave the front of the
    active queue as the selection picked. *)
Definition demotes_as_many_as_selected (fuel : nat) (c : config)
    (s : state) : Prop :=
  forall na s1 s2,
    select_loop fuel c [] s = Some (na, s1) ->
    schedule fuel c s = Some s2 ->
    let n := length na in
    active_fds_queue s2 = drop n (active_fds_queue s) ++ na /\
    paused_fds_queue s2 = paused_fds_queue s1 ++ take n (active_fds_queue s).

(** ** Further summaries *)

(** The handles of the selection in progress. *)
Definition selecting (pc : sched_pc) : list Z :=
  match pc with
  | Idle => []
  | Selecting na => na
  end.

(** The handles held by the two queues and by the selection in
    progress. *)
Definition handles (y : sys) : list Z :=
  active_fds_queue (globals y) ++ paused_fds_queue (globals y)
    ++ selecting (sched y).

(** The handles that callers of [accept] put on a queue during a run. *)
Fixpoint enqueued (ls : list label) : list Z :=
  match ls with
  | [] => []
  | LAcceptLocked new_fd _ :: ls' => new_fd :: enqueued ls'
  | _ :: ls' => enqueued ls'
  end.

(** Every registered handle is on a queue, in the selection in progress
    or with a caller waiting for the lock. *)
Definition tracked (y : sys) : Prop :=
  forall fd, is_Some (fd_to_flow (globals y) !! fd) ->
    fd ∈ handles y \/ fd ∈ (waiting y).*1.

(** Every handle on a queue is registered. *)
Definition all_registered (s : state) : Prop :=
  forall fd, fd ∈ active_fds_queue s ++ paused_fds_queue s ->
    is_Some (fd_to_flow s !! fd).

(** A call on the kernel map that goes to [map_fd] and, for an update,
    writes zero. *)
Definition map_call_ok (map_fd : Z) (ev : event) : Prop :=
  match ev with
  | BpfMapUpdateElem fd _ value => fd = map_fd /\ value = 0
  | BpfMapDeleteElem fd _ => fd = map_fd
  | _ => True
  end.

(** Capacity 1. After the exempted control flow, 4 is active, 5 and 6
    are paused and 6 has been closed. *)
Definition two_paused_state : state :=
  let c := example_config 1 in
  let s1 := snd (accept c (accept_ok 3 1) initial_state) in
  let s2 := snd (accept c (accept_ok 4 2) s1) in
  let s3 := snd (accept c (accept_ok 5 3) s2) in
  let s4 := snd (accept c (accept_ok 6 4) s3) in
  snd (close close_ok 6 s4).

(** The handle and the flow that an [accept] registers if the state
    lets it get to line 260: all its calls into the system succeed. *)
Definition registrable (c : config) (e : accept_env)
    : option (Z * rm_flow) :=
  match real_accept e with
  | None => None
  | Some new_fd =>
      if (new_fd =? -1)
         || match sa_family e with
            | Some family => negb (family =? AF_INET)
            | None => false
            end
         || (setsockopt_ret e =? -1)
         || (getsockopt_ret e =? -1)
         || negb (bool_decide (retrieved_cca e = RM_BPF_CUBIC c))
         || (getsockname_ret e =? -1)
         || (getpeername_ret e =? -1)
      then None
      else Some (new_fd, four_tuple e)
  end.

(** The handles and flows that the accepts of a run can register. *)
Fixpoint accepted (c : config) (ls : list label) : list (Z * rm_flow) :=
  match ls with
  | [] => []
  | LAccept e :: ls' =>
      match registrable c e with
      | Some p => p :: accepted c ls'
      | None => accepted c ls'
      end
  | _ :: ls' => accepted c ls'
  end.

(** The kernel map agrees with the queues, for handles and flows drawn
    from [seen]. *)
Record map_agrees (seen : list (Z * rm_flow)) (y : sys) : Prop := {
  ma_registry : forall fd f,
    fd_to_flow (globals y) !! fd = Some f -> (fd, f) ∈ seen;
  ma_waiting : forall p, p ∈ waiting y -> p ∈ seen;
  ma_handles : forall fd, fd ∈ handles y -> fd ∈ seen.*1;
  ma_nodup : NoDup (handles y ++ (waiting y).*1);
  ma_keys : forall f,
    is_Some (flow_to_rwnd (trace (globals y)) !! f) -> f ∈ seen.*2;
  ma_seen_fds : NoDup seen.*1;
  ma_seen_flows : NoDup seen.*2;
  ma_active : forall fd f,
    fd_to_flow (globals y) !! fd = Some f ->
    fd ∈ active_fds_queue (globals y) \/ fd ∈ (waiting y).*1 ->
    flow_to_rwnd (trace (globals y)) !! f = None;
  ma_paused : forall fd f,
    fd_to_flow (globals y) !! fd = Some f ->
    fd ∈ paused_fds_queue (globals y) \/ fd ∈ selecting (sched y) ->
    flow_to_rwnd (trace (globals y)) !! f = Some 0
}.

(** The fields of a [struct sockaddr_in] are 32 and 16 bits wide. *)
Definition sockaddr_in_range (a : sockaddr_in) : Prop :=
  0 <= sin_addr a < 4294967296 /\ 0 <= sin_port a < 65536.

(** ** Start-up, lines 51-56 *)

(** [atoi] of the C library, for a string whose value fits an [int]:
    leading white space, an optional sign, then decimal digits up to the
    first other character; a string with no digits there gives 0. *)
Definition isspace (ch : Ascii.ascii) : bool :=
  let n := Ascii.N_of_ascii ch in
  ((n =? 32) || ((9 <=? n) && (n <=? 13)))%N.

Definition isdigit (ch : Ascii.ascii) : bool :=
  let n := Ascii.N_of_ascii ch in
  ((48 <=? n) && (n <=? 57))%N.

Fixpoint atoi_digits (acc : Z) (s : string) : Z :=
  match s with
  | String ch rest =>
      if isdigit ch
      then atoi_digits (10 * acc + (Z.of_N (Ascii.N_of_ascii ch) - 48)) rest
      else acc
  | EmptyString => acc
  end.

(** The sign, when there is one: 45 is the minus and 43 the plus. *)
Definition atoi_signed (s : string) : Z :=
  match s with
  | String ch rest =>
      if (Ascii.N_of_ascii ch =? 45)%N then - atoi_digits 0 rest
      else if (Ascii.N_of_ascii ch =? 43)%N then atoi_digits 0 rest
      else atoi_digits 0 s
  | EmptyString => 0
  end.

Fixpoint atoi (s : string) : Z :=
  match s with
  | String ch rest => if isspace ch then atoi rest else atoi_signed s
  | EmptyString => 0
  end.

(** The cast [(unsigned int)] of an [int]. *)
Definition to_unsigned_int (z : Z) : N := Z.to_N (z mod 4294967296).

(** Lines 52-56, run when the library is loaded. [getenv] answers NULL,
    here [None], for a variable that is not set, and [atoi] reads through
    the pointer it is given: with a variable unset the process ends in
    the initialiser, which is the result [None]. The names of the two
    variables are macros of ratemon.h and are parameters here, as is
    RM_BPF_CUBIC. *)
Definition load_config (RM_MAX_ACTIVE_FLOWS_KEY RM_EPOCH_US_KEY : string)
    (cubic : string) (getenv : string -> option string) : option config :=
  match getenv RM_MAX_ACTIVE_FLOWS_KEY with
  | None => None
  | Some max =>
      match getenv RM_EPOCH_US_KEY with
      | None => None
      | Some epoch =>
          Some {| max_active_flows := to_unsigned_int (atoi max);
                  epoch_us := to_unsigned_int (atoi epoch);
                  RM_BPF_CUBIC := cubic |}
      end
  end.

(** The first call of [accept] in a process started in the environment
    [getenv]: [None] when the process did not survive the load. *)
Definition first_accept (RM_MAX_ACTIVE_FLOWS_KEY RM_EPOCH_US_KEY : string)
    (cubic : string) (getenv : string -> option string) (e : accept_env)
    : option (Z * state) :=
  match load_config RM_MAX_ACTIVE_FLOWS_KEY RM_EPOCH_US_KEY cubic getenv with
  | None => None
  | Some c => Some (accept c e initial_state)
  end.

(** An environment in which exactly the listed variables are set. *)
Definition getenv_of (vars : list (string * string)) (name : string)
    : option string :=
  snd <$> List.find (fun p => bool_decide (fst p = name)) vars.

(** ** The part of [accept] before the lock, access by access *)

(** Lines 159-260 of [accept] hold no lock, so callers on several
    threads interleave there, which [step] leaves out by taking these
    lines as one step. Below, a caller takes one step for each access to
    a global: the read of [setup] at line 186, the write and the read of
    [skel] at lines 187 and 188, the write of [flow_to_rwnd_fd] at line
    202, the write of [setup] at line 204, the reads of the registry
    size and of [skipped_first] at line 210, the write of
    [skipped_first] at line 212 and the insertion of line 260. The
    accesses of all threads happen in one order, each seeing the writes
    before it. [accept_pc] is the access a caller is about to make. *)
Inductive accept_pc :=
| AtLoad
| AtCheck
| AtObjGet
| AtStore (pinned_map_fd : Z)
| AtFlag
| AtSize
| AtSkipped
| AtSkip
| AtRegister.

(** Lines 159-183, which read no global but the configuration: [inl] is
    the value returned there, [inr] the descriptor the call goes on
    with. *)
Definition accept_prologue (c : config) (e : accept_env) : Z + Z :=
  if config_invalid c then inl (-1) else
  match real_accept e with
  | None => inl (-1)
  | Some new_fd =>
      if new_fd =? -1 then inl new_fd else
      if match sa_family e with
         | Some family => negb (family =? AF_INET)
         | None => false
         end
      then inl new_fd else inr new_fd
  end.

(** Lines 216-260. *)
Definition accept_register (c : config) (e : accept_env) (new_fd : Z)
    (s : state) : state * (Z + Z * rm_flow) :=
  if setsockopt_ret e =? -1 then (s, inl new_fd) else
  if getsockopt_ret e =? -1 then (s, inl new_fd) else
  if negb (bool_decide (retrieved_cca e = RM_BPF_CUBIC c))
  then (s, inl new_fd) else
  if getsockname_ret e =? -1 then (s, inl (-1)) else
  if getpeername_ret e =? -1 then (s, inl (-1)) else
  let flow := four_tuple e in
  (set_fd_to_flow (registry_insert new_fd flow (fd_to_flow s)) s,
   inr (new_fd, flow)).

(** The callers that are between line 186 and line 260, each with what
    the system answers it, its new descriptor and its next access. *)
Record csys := {
  shared : sys;
  callers : list (accept_env * Z * accept_pc)
}.

Definition initial_csys : csys :=
  {| shared := initial_sys; callers := [] |}.

Definition with_globals (s : state) (y : sys) : sys :=
  {| globals := s; sched := sched y; waiting := waiting y |}.

Inductive clabel :=
| CEnter (e : accept_env)
| CAdvance (new_fd : Z) (pc : accept_pc)
| COther (l : label).

Inductive cstep (c : config) : csys -> clabel -> csys -> Prop :=
| cstep_enter_returns e y cs ret :
    accept_prologue c e = inl ret ->
    cstep c {| shared := y; callers := cs |}
          (CEnter e)
          {| shared := y; callers := cs |}
| cstep_enter e y cs new_fd :
    accept_prologue c e = inr new_fd ->
    cstep c {| shared := y; callers := cs |}
          (CEnter e)
          {| shared := y;
             callers :=
               cs ++ [(e, new_fd,
                       if setup (globals y) then AtSize else AtLoad)] |}
| cstep_load e new_fd y cs1 cs2 :
    cstep c {| shared := y; callers := cs1 ++ (e, new_fd, AtLoad) :: cs2 |}
          (CAdvance new_fd AtLoad)
          {| shared :=
               with_globals
                 (emit (BpfOpenAndLoad (ratemon_maps_bpf__open_and_load e))
                    (set_skel (ratemon_maps_bpf__open_and_load e)
                       (globals y))) y;
             callers := cs1 ++ (e, new_fd, AtCheck) :: cs2 |}
| cstep_check_null e new_fd y cs1 cs2 :
    skel (globals y) = false ->
    cstep c {| shared := y; callers := cs1 ++ (e, new_fd, AtCheck) :: cs2 |}
          (CAdvance new_fd AtCheck)
          {| shared := y; callers := cs1 ++ cs2 |}
| cstep_check e new_fd y cs1 cs2 :
    skel (globals y) = true ->
    cstep c {| shared := y; callers := cs1 ++ (e, new_fd, AtCheck) :: cs2 |}
          (CAdvance new_fd AtCheck)
          {| shared := y; callers := cs1 ++ (e, new_fd, AtObjGet) :: cs2 |}
| cstep_obj_get e new_fd y cs1 cs2 :
    cstep c {| shared := y; callers := cs1 ++ (e, new_fd, AtObjGet) :: cs2 |}
          (CAdvance new_fd AtObjGet)
          {| shared :=
               with_globals (emit (BpfObjGet (bpf_obj_get e)) (globals y)) y;
             callers := cs1 ++ (e, new_fd, AtStore (bpf_obj_get e)) :: cs2 |}
| cstep_store e new_fd pinned_map_fd y cs1 cs2 :
    cstep c {| shared := y;
               callers := cs1 ++ (e, new_fd, AtStore pinned_map_fd) :: cs2 |}
          (CAdvance new_fd (AtStore pinned_map_fd))
          {| shared :=
               with_globals (set_flow_to_rwnd_fd pinned_map_fd (globals y)) y;
             callers := cs1 ++ (e, new_fd, AtFlag) :: cs2 |}
| cstep_flag e new_fd y cs1 cs2 :
    cstep c {| shared := y; callers := cs1 ++ (e, new_fd, AtFlag) :: cs2 |}
          (CAdvance new_fd AtFlag)
          {| shared := with_globals (set_setup true (globals y)) y;
             callers := cs1 ++ (e, new_fd, AtSize) :: cs2 |}
| cstep_size e new_fd y cs1 cs2 :
    cstep c {| shared := y; callers := cs1 ++ (e, new_fd, AtSize) :: cs2 |}
          (CAdvance new_fd AtSize)
          {| shared := y;
             callers :=
               cs1 ++ (e, new_fd,
                       if (size (fd_to_flow (globals y)) =? 0)%nat
                       then AtSkipped else AtRegister) :: cs2 |}
| cstep_skipped e new_fd y cs1 cs2 :
    cstep c {| shared := y; callers := cs1 ++ (e, new_fd, AtSkipped) :: cs2 |}
          (CAdvance new_fd AtSkipped)
          {| shared := y;
             callers :=
               cs1 ++ (e, new_fd,
                       if negb (skipped_first (globals y))
                       then AtSkip else AtRegister) :: cs2 |}
| cstep_skip e new_fd y cs1 cs2 :
    cstep c {| shared := y; callers := cs1 ++ (e, new_fd, AtSkip) :: cs2 |}
          (CAdvance new_fd AtSkip)
          {| shared := with_globals (set_skipped_first true (globals y)) y;
             callers := cs1 ++ cs2 |}
| cstep_register_returns e new_fd y cs1 cs2 s1 ret :
    accept_register c e new_fd (globals y) = (s1, inl ret) ->
    cstep c {| shared := y;
               callers := cs1 ++ (e, new_fd, AtRegister) :: cs2 |}
          (CAdvance new_fd AtRegister)
          {| shared := with_globals s1 y; callers := cs1 ++ cs2 |}
| cstep_register e new_fd y cs1 cs2 s1 fd flow :
    accept_register c e new_fd (globals y) = (s1, inr (fd, flow)) ->
    cstep c {| shared := y;
               callers := cs1 ++ (e, new_fd, AtRegister) :: cs2 |}
          (CAdvance new_fd AtRegister)
          {| shared :=
               {| globals := s1; sched := sched y;
                  waiting := waiting y ++ [(fd, flow)] |};
             callers := cs1 ++ cs2 |}
| cstep_other y l y1 cs :
    step c y l y1 ->
    (forall e, l <> LAccept e) ->
    cstep c {| shared := y; callers := cs |}
          (COther l)
          {| shared := y1; callers := cs |}.

Inductive crun (c : config) : csys -> list clabel -> csys -> Prop :=
| crun_nil y : crun c y [] y
| crun_cons y l y1 ls y2 :
    cstep c y l y1 -> crun c y1 ls y2 -> crun c y (l :: ls) y2.

Definition creachable (c : config) (y : csys) : Prop :=
  exists ls, crun c initial_csys ls y.

(** The accesses of the set-up block, lines 187-204. *)
Definition in_setup_block (pc : accept_pc) : bool :=
  match pc with
  | AtLoad | AtCheck | AtObjGet | AtStore _ | AtFlag => true
  | _ => false
  end.

Definition is_at_load (pc : accept_pc) : bool :=
  match pc with
  | AtLoad => true
  | _ => false
  end.

(** How many callers have read [setup] as unset and not yet loaded the
    skeleton. *)
Definition about_to_load (cs : list (accept_env * Z * accept_pc)) : nat :=
  length (List.filter (fun p => is_at_load (snd p)) cs).

(** No caller is inside the set-up block. *)
Definition setup_block_empty (cs : list (accept_env * Z * accept_pc))
    : Prop :=
  forall p, p ∈ cs -> in_setup_block (snd p) = false.

(** A call on the kernel map goes to a descriptor that [bpf_obj_get]
    has returned among the calls [seen] before it, and an update writes
    zero. *)
Definition map_call_served (seen : list event) (ev : event) : Prop :=
  match ev with
  | BpfMapUpdateElem fd _ value => BpfObjGet fd ∈ seen /\ value = 0
  | BpfMapDeleteElem fd _ => BpfObjGet fd ∈ seen
  | _ => True
  end.

Fixpoint calls_served (seen : list event) (tr : list event) : Prop :=
  match tr with
  | [] => True
  | ev :: tr' => map_call_served seen ev /\ calls_served (seen ++ [ev]) tr'
  end.

(** What holds of every state the callers and the scheduling thread
    reach: while the flag is unset nothing is managed and every caller
    is still in the set-up block; the calls on the kernel map were
    served; and the descriptor in use, once stored, was returned by
    [bpf_obj_get]. *)
Definition served_invariant (y : csys) : Prop :=
  let g := globals (shared y) in
  (setup g = false ->
     unmanaged (shared y) /\
     forall p, p ∈ callers y -> in_setup_block (snd p) = true) /\
  calls_served [] (trace g) /\
  (setup g = true \/ (exists p, p ∈ callers y /\ snd p = AtFlag) ->
     BpfObjGet (flow_to_rwnd_fd g) ∈ trace g) /\
  (forall p r, p ∈ callers y -> snd p = AtStore r ->
     BpfObjGet r ∈ trace g).

(** An [accept] in which every call into the system succeeds and
    [bpf_obj_get] returns [pinned_map_fd]. *)
Definition accept_repinned (new_fd peer pinned_map_fd : Z) : accept_env :=
  {| real_accept := Some new_fd; sa_family := Some AF_INET;
     ratemon_maps_bpf__open_and_load := true;
     bpf_obj_get := pinned_map_fd;
     setsockopt_ret := 0; getsockopt_ret := 0;
     retrieved_cca := "bpf_cubic";
     getsockname_ret := 0;
     local_sockaddr := {| sin_addr := 16777343; sin_port := 20480 |};
     getpeername_ret := 0;
     remote_sockaddr := {| sin_addr := 16777343; sin_port := peer |} |}.

(** Capacity 1. Two callers read [setup] as unset at line 186. The one
    with descriptor 3 has run the set-up block, where [bpf_obj_get]
    returned 9, and has left as the exempted control flow; the one with
    descriptor 4 is still about to load the skeleton. *)
Definition race_mid : csys :=
  {| shared :=
       {| globals :=
            snd (accept (example_config 1) (accept_ok 3 1) initial_state);
          sched := Idle; waiting := [] |};
     callers := [(accept_repinned 4 2 10, 4, AtLoad)] |}.

(** Then 5 is accepted and becomes active, 6 is accepted and is paused
    through descriptor 9, and only then the caller with descriptor 4
    runs the set-up block, where [bpf_obj_get] returns 10, and is paused
    through descriptor 10. *)
Definition race_end : csys :=
  let c := example_config 1 in
  let s1 := snd (accept c (accept_ok 3 1) initial_state) in
  let s2 := snd (accept c (accept_ok 5 3) s1) in
  let s3 := snd (accept c (accept_ok 6 4) s2) in
  let s4 :=
    set_setup true
      (set_flow_to_rwnd_fd 10
         (emit (BpfObjGet 10)
            (emit (BpfOpenAndLoad true) (set_skel true s3)))) in
  {| shared :=
       {| globals := snd (accept c (accept_repinned 4 2 10) s4);
          sched := Idle; waiting := [] |};
     callers := [] |}.

Definition race_first : list clabel :=
  [CEnter (accept_ok 3 1); CEnter (accept_repinned 4 2 10);
   CAdvance 3 AtLoad; CAdvance 3 AtCheck; CAdvance 3 AtObjGet;
   CAdvance 3 (AtStore 9); CAdvance 3 AtFlag; CAdvance 3 AtSize;
   CAdvance 3 AtSkipped; CAdvance 3 AtSkip].

Definition race_second : list clabel :=
  [CEnter (accept_ok 5 3); CAdvance 5 AtSize; CAdvance 5 AtSkipped;
   CAdvance 5 AtRegister;
   COther (LAcceptLocked 5 (four_tuple (accept_ok 5 3)));
   CEnter (accept_ok 6 4); CAdvance 6 AtSize; CAdvance 6 AtRegister;
   COther (LAcceptLocked 6 (four_tuple (accept_ok 6 4)));
   CAdvance 4 AtLoad; CAdvance 4 AtCheck; CAdvance 4 AtObjGet;
   CAdvance 4 (AtStore 10); CAdvance 4 AtFlag; CAdvance 4 AtSize;
   CAdvance 4 AtRegister;
   COther (LAcceptLocked 4 (four_tuple (accept_repinned 4 2 10)))].

(** ** Lemmas on the scheduling thread *)

Lemma with_queues_same (s : state) :
  with_queues (active_fds_queue s) (paused_fds_queue s) (trace s) s = s.
Proof. destruct s; reflexivity. Qed.

Lemma set_paused_same (s : state) : set_paused (paused_fds_queue s) s = s.
Proof. destruct s; reflexivity. Qed.

Lemma select_body_registered (na : list Z) (s : state) fd rest p :
  paused_fds_queue s = fd :: rest ->
  fd_to_flow s !! fd = Some p ->
  select_body na s = (na ++ [fd], set_paused rest s).
Proof.
  intros Hq Hreg. unfold select_body, visit. rewrite Hq, Hreg. reflexivity.
Qed.

Lemma select_body_stale (na : list Z) (s : state) fd rest :
  paused_fds_queue s = fd :: rest ->
  fd_to_flow s !! fd = None ->
  select_body na s = (na, s).
Proof.
  intros Hq Hreg. unfold select_body, visit. rewrite Hq, Hreg. reflexivity.
Qed.

Lemma select_cond_true (c : config) (na : list Z) (s : state) :
  select_cond c na s = true <->
  paused_fds_queue s <> [] /\
  (N.of_nat (length na) < max_active_flows c)%N.
Proof.
  unfold select_cond. rewrite andb_true_iff, negb_true_iff,
    bool_decide_eq_false, N.ltb_lt. reflexivity.
Qed.

Lemma select_cond_false (c : config) (na : list Z) (s : state) :
  select_cond c na s = false <->
  paused_fds_queue s = [] \/
  (max_active_flows c <= N.of_nat (length na))%N.
Proof.
  unfold select_cond. rewrite andb_false_iff, negb_false_iff,
    bool_decide_eq_true, N.ltb_ge. reflexivity.
Qed.

(** A handle that is not registered at the front of the paused queue
    stops the selection for good. *)
Lemma select_loop_stale_front (fuel : nat) (c : config) (na : list Z)
    (s : state) fd rest :
  paused_fds_queue s = fd :: rest ->
  fd_to_flow s !! fd = None ->
  (N.of_nat (length na) < max_active_flows c)%N ->
  select_loop fuel c na s = None.
Proof.
  intros Hq Hreg Hlt.
  assert (Hc : select_cond c na s = true).
  { apply select_cond_true. rewrite Hq. split; [discriminate | exact Hlt]. }
  induction fuel as [|fuel IH]; simpl; rewrite Hc; [reflexivity |].
  rewrite (select_body_stale na s fd rest Hq Hreg). exact IH.
Qed.

(** When the handles it would pick are all registered, the selection
    takes them from the front of the paused queue, in order. *)
Lemma select_loop_prefix (fuel : nat) (c : config) :
  forall (na : list Z) (s : state),
  let k := Nat.min (N.to_nat (max_active_flows c) - length na)
                   (length (paused_fds_queue s)) in
  (forall fd, fd ∈ take k (paused_fds_queue s) ->
              is_Some (fd_to_flow s !! fd)) ->
  (k <= fuel)%nat ->
  select_loop fuel c na s =
    Some (na ++ take k (paused_fds_queue s),
          set_paused (drop k (paused_fds_queue s)) s).
Proof.
  induction fuel as [|fuel IH]; intros na s k Hreg Hfuel.
  - assert (k = 0)%nat as Hk by lia.
    assert (Hc : select_cond c na s = false).
    { apply select_cond_false. subst k.
      destruct (paused_fds_queue s); [left; reflexivity | right].
      simpl in Hk. lia. }
    simpl. rewrite Hc, Hk, take_0, drop_0, app_nil_r, set_paused_same.
    reflexivity.
  - simpl. destruct (select_cond c na s) eqn:Hc.
    + apply select_cond_true in Hc as [Hne Hlt].
      destruct (paused_fds_queue s) as [|fd rest] eqn:Hq; [done |].
      assert (exists k', k = S k' /\
                k' = Nat.min (N.to_nat (max_active_flows c) - length (na ++ [fd]))
                             (length rest)) as (k' & Hk & Hk').
      { exists (Nat.pred k). subst k. rewrite length_app. simpl. lia. }
      destruct (Hreg fd) as [p Hp].
      { rewrite Hk. simpl. left. }
      assert (Hq' : paused_fds_queue s = fd :: rest) by exact Hq.
      rewrite (select_body_registered na s fd rest p Hq' Hp).
      rewrite (IH (na ++ [fd]) (set_paused rest s)); simpl.
      * rewrite <- Hk', Hk. simpl. rewrite <- app_assoc. reflexivity.
      * rewrite <- Hk'. intros fd' Hin. apply Hreg. rewrite Hk. simpl.
        right. exact Hin.
      * rewrite <- Hk'. lia.
    + apply select_cond_false in Hc.
      assert (k = 0)%nat as Hk.
      { subst k. destruct Hc as [Hc | Hc]; [rewrite Hc; simpl; lia | lia]. }
      rewrite Hk, take_0, drop_0, app_nil_r, set_paused_same. reflexivity.
Qed.

(** The selection finishes exactly when the handles it would pick are
    all registered. *)
Lemma select_loop_finishes (fuel : nat) (c : config) :
  forall (na : list Z) (s : state) (r : list Z * state),
  select_loop fuel c na s = Some r ->
  forall fd,
    fd ∈ take (Nat.min (N.to_nat (max_active_flows c) - length na)
                       (length (paused_fds_queue s)))
              (paused_fds_queue s) ->
    is_Some (fd_to_flow s !! fd).
Proof.
  induction fuel as [|fuel IH]; intros na s r Hr fd Hin; simpl in Hr;
    destruct (select_cond c na s) eqn:Hc; try discriminate.
  - apply select_cond_false in Hc.
    replace (Nat.min (N.to_nat (max_active_flows c) - length na)
                     (length (paused_fds_queue s))) with 0%nat in Hin.
    + rewrite take_0 in Hin. inversion Hin.
    + destruct Hc as [-> | Hc]; simpl; lia.
  - apply select_cond_true in Hc as [Hne Hlt].
    destruct (paused_fds_queue s) as [|next_fd rest] eqn:Hq; [done |].
    destruct (fd_to_flow s !! next_fd) as [p|] eqn:Hp.
    + rewrite (select_body_registered na s next_fd rest p Hq Hp) in Hr.
      replace (Nat.min (N.to_nat (max_active_flows c) - length na)
                       (length (next_fd :: rest)))
        with (S (Nat.min (N.to_nat (max_active_flows c)
                            - length (na ++ [next_fd]))
                         (length rest))) in Hin
        by (rewrite length_app; simpl; lia).
      simpl in Hin. apply elem_of_cons in Hin as [-> | Hin].
      * rewrite Hp. eauto.
      * apply (IH _ _ _ Hr fd). simpl. exact Hin.
    + rewrite (select_body_stale na s next_fd rest Hq Hp) in Hr.
      rewrite (select_loop_stale_front fuel c na s next_fd rest Hq Hp Hlt)
        in Hr.
      discriminate Hr.
  - apply select_cond_false in Hc.
    replace (Nat.min (N.to_nat (max_active_flows c) - length na)
                     (length (paused_fds_queue s))) with 0%nat in Hin.
    + rewrite take_0 in Hin. inversion Hin.
    + destruct Hc as [-> | Hc]; simpl; lia.
Qed.

(** The selection loop of a cycle finishes, for some number of
    iterations, exactly when the first min(capacity, paused size)
    handles of the paused queue are all registered. *)
Lemma select_loop_terminates_iff (c : config) (s : state) :
  (exists fuel r, select_loop fuel c [] s = Some r) <->
  (forall fd, fd ∈ take (num_selected c s) (paused_fds_queue s) ->
              is_Some (fd_to_flow s !! fd)).
Proof.
  assert (Hk : num_selected c s
               = Nat.min (N.to_nat (max_active_flows c) - length (@nil Z))
                         (length (paused_fds_queue s))).
  { unfold num_selected. simpl. lia. }
  split.
  - intros (fuel & r & Hr) fd Hin. rewrite Hk in Hin.
    exact (select_loop_finishes fuel c [] s r Hr fd Hin).
  - intros Hreg. exists (num_selected c s). eexists.
    apply (select_loop_prefix (num_selected c s) c [] s).
    + rewrite <- Hk. exact Hreg.
    + rewrite <- Hk. lia.
Qed.

Lemma activate_loop_spec (fds : list Z) :
  forall s : state,
  activate_loop fds s =
    with_queues (active_fds_queue s ++ fds) (paused_fds_queue s)
      (trace s ++ flat_map (activate_events s) fds) s.
Proof.
  induction fds as [|fd fds IH]; intros s.
  - simpl. rewrite !app_nil_r. symmetry. apply with_queues_same.
  - simpl. rewrite IH. unfold visit, activate_events at 2. simpl.
    destruct (fd_to_flow s !! fd) as [p|] eqn:Hp; simpl;
      unfold with_queues; simpl; rewrite <- !app_assoc; simpl;
      f_equal; f_equal; apply flat_map_ext; intros fd' _;
      unfold activate_events; simpl; reflexivity.
Qed.

Lemma pause_loop_spec (n : nat) :
  forall s : state,
  pause_loop n s =
    with_queues (drop n (active_fds_queue s))
      (paused_fds_queue s ++ take n (active_fds_queue s))
      (trace s ++ flat_map (pause_events s) (take n (active_fds_queue s))) s.
Proof.
  induction n as [|n IH]; intros s.
  - simpl. rewrite drop_0, !app_nil_r. symmetry. apply with_queues_same.
  - simpl. destruct (active_fds_queue s) as [|fd rest] eqn:Hq.
    + simpl. rewrite !app_nil_r. rewrite <- Hq. symmetry.
      apply with_queues_same.
    + rewrite IH. unfold visit, pause_events at 2. simpl.
      destruct (fd_to_flow s !! fd) as [p|] eqn:Hp; simpl;
        unfold with_queues; simpl; rewrite <- !app_assoc; simpl;
        f_equal; f_equal; apply flat_map_ext; intros fd' _;
        unfold pause_events; simpl; reflexivity.
Qed.

Lemma rotate_spec (na : list Z) (s : state) :
  rotate na s =
    with_queues na (paused_fds_queue s ++ active_fds_queue s)
      (trace s ++ flat_map (activate_events s) na
               ++ flat_map (pause_events s) (active_fds_queue s)) s.
Proof.
  unfold rotate. rewrite pause_loop_spec, activate_loop_spec. simpl.
  rewrite drop_app_length, take_app_length.
  unfold with_queues. simpl. rewrite <- app_assoc.
  f_equal; f_equal; f_equal; apply flat_map_ext; intros fd _;
    unfold pause_events; reflexivity.
Qed.

Lemma schedule_spec (fuel : nat) (c : config) (s : state) :
  let k := num_selected c s in
  let na := take k (paused_fds_queue s) in
  (forall fd, fd ∈ na -> is_Some (fd_to_flow s !! fd)) ->
  (k <= fuel)%nat ->
  schedule fuel c s =
    Some (with_queues na
            (drop k (paused_fds_queue s) ++ active_fds_queue s)
            (trace s ++ flat_map (activate_events s) na
                     ++ flat_map (pause_events s) (active_fds_queue s)) s).
Proof.
  intros k na Hreg Hfuel. unfold schedule.
  assert (Hk : k = Nat.min (N.to_nat (max_active_flows c) - length (@nil Z))
                           (length (paused_fds_queue s))).
  { unfold k, num_selected. simpl. lia. }
  rewrite (select_loop_prefix fuel c [] s); rewrite <- Hk;
    [| exact Hreg | exact Hfuel].
  simpl. rewrite rotate_spec. reflexivity.
Qed.

(** ** The scheduler's selection loop (C1, C10) *)

Lemma stale_sys_reachable : reachable (example_config 1) stale_sys.
Proof.
  exists [LAccept (accept_ok 3 1);
          LAccept (accept_ok 4 2);
          LAcceptLocked 4 (four_tuple (accept_ok 4 2));
          LAccept (accept_ok 5 3);
          LAcceptLocked 5 (four_tuple (accept_ok 5 3));
          LClose close_ok 5;
          LLock].
  eapply run_cons.
  { apply step_accept_returns with (ret := 3). vm_compute. reflexivity. }
  eapply run_cons.
  { apply step_accept_registers
      with (new_fd := 4) (flow := four_tuple (accept_ok 4 2)).
    vm_compute. reflexivity. }
  eapply run_cons.
  { apply (step_accept_locked _ _ [] []). }
  eapply run_cons.
  { apply step_accept_registers
      with (new_fd := 5) (flow := four_tuple (accept_ok 5 3)).
    vm_compute. reflexivity. }
  eapply run_cons.
  { apply (step_accept_locked _ _ [] []). }
  eapply run_cons.
  { apply (step_close _ close_ok 5). }
  eapply run_cons.
  { apply step_sched_lock; vm_compute; reflexivity. }
  apply run_nil.
Qed.

(** C1, evaluated where it fails: after accepting three connections and
    closing the paused one, the handle 5 at the front of the paused
    queue is no longer registered, the loop condition of lines 105-106
    holds, and one pass through the loop body leaves the whole state as
    it was: the handle is not popped. The state is reached from start-up
    with the scheduling thread holding the lock, and its selection step
    leads back to the same state. *)
Theorem select_keeps_stale_front :
  paused_fds_queue stale_state = [5] /\
  fd_to_flow stale_state !! 5 = None /\
  select_cond (example_config 1) [] stale_state = true /\
  select_body [] stale_state = ([], stale_state) /\
  reachable (example_config 1) stale_sys /\
  step (example_config 1) stale_sys LSelect stale_sys.
Proof.
  split; [vm_compute; reflexivity |].
  split; [vm_compute; reflexivity |].
  split; [vm_compute; reflexivity |].
  split; [vm_compute; reflexivity |].
  split; [exact stale_sys_reachable |].
  apply step_sched_select; vm_compute; reflexivity.
Qed.

(** C10, evaluated where it fails: from that state the selection loop
    has not finished after any number of iterations, and an epoch of the
    scheduling thread never gets past it. *)
Theorem select_loop_diverges (fuel : nat) :
  select_loop fuel (example_config 1) [] stale_state = None /\
  thread_func 1 fuel (example_config 1) stale_state = Still_selecting.
Proof.
  assert (H : select_loop fuel (example_config 1) [] stale_state = None).
  { apply (select_loop_stale_front fuel _ [] stale_state 5 []);
      vm_compute; reflexivity. }
  split; [exact H |].
  unfold thread_func, epochs, epoch, schedule.
  replace (config_invalid (example_config 1)) with false
    by (vm_compute; reflexivity).
  replace (skip_epoch (example_config 1) stale_state) with false
    by (vm_compute; reflexivity).
  rewrite H. reflexivity.
Qed.

(** ** The rotation (C2) *)

(** C2 fails as stated: with capacity 2, handles 4 and 5 active (4
    already closed) and 6 paused, the cycle selects one handle but pops
    both 4 and 5 from the active queue, and the closed handle 4 is put
    on the paused queue without any map update. *)
Lemma rotation_counterexample :
  ~ demotes_as_many_as_selected 1 (example_config 2) rotation_state /\
  select_loop 1 (example_config 2) [] rotation_state
    = Some ([6], set_paused [] rotation_state) /\
  (active_fds_queue <$> schedule 1 (example_config 2) rotation_state)
    = Some [6] /\
  (paused_fds_queue <$> schedule 1 (example_config 2) rotation_state)
    = Some [4; 5] /\
  ((fun s => drop (length (trace rotation_state)) (trace s))
     <$> schedule 1 (example_config 2) rotation_state)
    = Some [BpfMapDeleteElem 9 (four_tuple (accept_ok 6 4)); TriggerAck 6;
            TriggerAck 4;
            BpfMapUpdateElem 9 (four_tuple (accept_ok 5 3)) 0; TriggerAck 5].
Proof.
  split; [| repeat split; vm_compute; reflexivity].
  intros H.
  destruct (H [6] (set_paused [] rotation_state)
              (rotate [6] (set_paused [] rotation_state))) as [Ha _];
    [vm_compute; reflexivity | vm_compute; reflexivity |].
  vm_compute in Ha. discriminate Ha.
Qed.

(** C2, amended: when the handles the selection would pick (the first
    min(capacity, paused size) of the paused queue) are all registered,
    the cycle completes; the selected handles N become the whole active
    queue, and every handle of the active queue's previous contents, not
    only N of them, is popped from its front and pushed in order onto
    the paused queue, with a map update to zero when the handle is still
    registered and an acknowledgment trigger in every case. *)
Theorem schedule_demotes_all_prev_active (fuel : nat) (c : config)
    (s : state) :
  let k := num_selected c s in
  let na := take k (paused_fds_queue s) in
  (forall fd, fd ∈ na -> is_Some (fd_to_flow s !! fd)) ->
  (k <= fuel)%nat ->
  exists s2,
    schedule fuel c s = Some s2 /\
    active_fds_queue s2 = na /\
    paused_fds_queue s2 =
      drop k (paused_fds_queue s) ++ active_fds_queue s /\
    trace s2 =
      trace s ++ flat_map (activate_events s) na
              ++ flat_map (pause_events s) (active_fds_queue s) /\
    fd_to_flow s2 = fd_to_flow s.
Proof.
  intros k na Hreg Hfuel. eexists. split.
  - apply schedule_spec; assumption.
  - simpl. repeat split; reflexivity.
Qed.

Lemma schedule_demotes_all_prev_active_witness :
  exists s2,
    schedule 1 (example_config 2) rotation_state = Some s2 /\
    active_fds_queue s2 = [6] /\
    paused_fds_queue s2 = [4; 5].
Proof.
  destruct (schedule_demotes_all_prev_active 1 (example_config 2)
              rotation_state) as (s2 & Hs & Ha & Hp & _).
  - intros fd Hin. vm_compute in Hin.
    apply list_elem_of_singleton in Hin. subst fd.
    vm_compute. eexists. reflexivity.
  - vm_compute. lia.
  - exists s2. split; [exact Hs |]. split.
    + rewrite Ha. vm_compute. reflexivity.
    + rewrite Hp. vm_compute. reflexivity.
Defined.

(** ** Lemmas on [accept] and [close] *)

Lemma kernel_calls_snoc (tr : list event) (ev : event) :
  kernel_calls (tr ++ [ev]) =
  kernel_calls tr ++ (if is_kernel_call ev then [ev] else []).
Proof.
  unfold kernel_calls. rewrite List.filter_app. simpl.
  destruct (is_kernel_call ev); reflexivity.
Qed.

Lemma open_attempts_snoc (tr : list event) (ev : event) :
  open_attempts (tr ++ [ev]) =
  (open_attempts tr + (if is_open_attempt ev then 1 else 0))%nat.
Proof.
  unfold open_attempts. rewrite List.filter_app, length_app. simpl.
  destruct (is_open_attempt ev); reflexivity.
Qed.

Lemma flow_to_rwnd_snoc (tr : list event) (ev : event) :
  flow_to_rwnd (tr ++ [ev]) = apply_event (flow_to_rwnd tr) ev.
Proof. unfold flow_to_rwnd. apply foldl_snoc. Qed.

Lemma bpf_setup_done (e : accept_env) (s : state) :
  setup s = true -> bpf_setup e s = (true, s).
Proof. intros H. unfold bpf_setup. rewrite H. reflexivity. Qed.

Lemma bpf_setup_failed (e : accept_env) (s : state) :
  setup s = false ->
  ratemon_maps_bpf__open_and_load e = false ->
  bpf_setup e s = (false, emit (BpfOpenAndLoad false) (set_skel false s)).
Proof. intros H1 H2. unfold bpf_setup. rewrite H1, H2. reflexivity. Qed.

Lemma bpf_setup_loaded (e : accept_env) (s : state) :
  setup s = false ->
  ratemon_maps_bpf__open_and_load e = true ->
  bpf_setup e s =
    (true,
     set_setup true
       (set_flow_to_rwnd_fd (bpf_obj_get e)
          (emit (BpfObjGet (bpf_obj_get e))
             (emit (BpfOpenAndLoad true) (set_skel true s))))).
Proof. intros H1 H2. unfold bpf_setup. rewrite H1, H2. reflexivity. Qed.

Lemma bpf_setup_proceeds (e : accept_env) (s : state) :
  setup s = true \/ ratemon_maps_bpf__open_and_load e = true ->
  fst (bpf_setup e s) = true /\ setup (snd (bpf_setup e s)) = true.
Proof.
  intros H. destruct (setup s) eqn:Hs.
  - rewrite bpf_setup_done by exact Hs. split; [reflexivity | exact Hs].
  - destruct H as [H | H]; [discriminate |].
    rewrite bpf_setup_loaded by assumption. split; reflexivity.
Qed.

(** Set-up touches neither the registry nor the queues and makes no call
    on the kernel map. *)
Lemma bpf_setup_preserves (e : accept_env) (s : state) :
  let s1 := snd (bpf_setup e s) in
  fd_to_flow s1 = fd_to_flow s /\
  active_fds_queue s1 = active_fds_queue s /\
  paused_fds_queue s1 = paused_fds_queue s /\
  skipped_first s1 = skipped_first s /\
  kernel_calls (trace s1) = kernel_calls (trace s) /\
  flow_to_rwnd (trace s1) = flow_to_rwnd (trace s).
Proof.
  unfold bpf_setup.
  destruct (setup s); simpl; [repeat split |].
  destruct (ratemon_maps_bpf__open_and_load e); simpl;
    rewrite ?kernel_calls_snoc, ?flow_to_rwnd_snoc; simpl;
    rewrite ?app_nil_r; repeat split.
Qed.

(** The path through lines 159-214 of a call that gets to the
    congestion-control step. *)
Lemma accept_reaches_cca (c : config) (e : accept_env) (s : state)
    (new_fd : Z) :
  config_invalid c = false ->
  real_accept e = Some new_fd ->
  new_fd <> -1 ->
  sa_family e = None \/ sa_family e = Some AF_INET ->
  setup s = true \/ ratemon_maps_bpf__open_and_load e = true ->
  size (fd_to_flow s) <> 0%nat \/ skipped_first s = true ->
  accept_until_lock c e s =
    let s1 := snd (bpf_setup e s) in
    if setsockopt_ret e =? -1 then (s1, inl new_fd) else
    if getsockopt_ret e =? -1 then (s1, inl new_fd) else
    if negb (bool_decide (retrieved_cca e = RM_BPF_CUBIC c))
    then (s1, inl new_fd) else
    if getsockname_ret e =? -1 then (s1, inl (-1)) else
    if getpeername_ret e =? -1 then (s1, inl (-1)) else
    (set_fd_to_flow
       (registry_insert new_fd (four_tuple e) (fd_to_flow s1)) s1,
     inr (new_fd, four_tuple e)).
Proof.
  intros Hc Hacc Hfd Hfam Hsetup Hfirst.
  unfold accept_until_lock. rewrite Hc, Hacc.
  apply Z.eqb_neq in Hfd. rewrite Hfd.
  assert (Hf : match sa_family e with
               | Some family => negb (family =? AF_INET)
               | None => false
               end = false).
  { destruct Hfam as [-> | ->]; reflexivity. }
  rewrite Hf.
  destruct (bpf_setup_proceeds e s Hsetup) as [Hok _].
  destruct (bpf_setup_preserves e s) as (Hreg & _ & _ & Hsk & _).
  destruct (bpf_setup e s) as [ok s1]. simpl in *. subst ok.
  assert (Hskip : (size (fd_to_flow s1) =? 0)%nat && negb (skipped_first s1)
                  = false).
  { rewrite Hreg, Hsk. destruct Hfirst as [Hn | ->].
    - apply Nat.eqb_neq in Hn. rewrite Hn. reflexivity.
    - apply andb_false_r. }
  rewrite Hskip. reflexivity.
Qed.

Lemma close_registry (e : close_env) (sockfd : Z) (s : state) (ret : Z) :
  real_close e = Some ret ->
  ret <> -1 ->
  close e sockfd s =
    (ret,
     with_queues (active_fds_queue s) (paused_fds_queue s)
       (trace s ++ match fd_to_flow s !! sockfd with
                   | Some p => [BpfMapDeleteElem (flow_to_rwnd_fd s) p]
                   | None => []
                   end)
       (set_fd_to_flow (delete sockfd (fd_to_flow s)) s)).
Proof.
  intros He Hret. unfold close, visit. rewrite He.
  apply Z.eqb_neq in Hret. rewrite Hret.
  destruct (fd_to_flow s !! sockfd); simpl; [reflexivity |].
  rewrite app_nil_r. reflexivity.
Qed.

Lemma close_absent (e : close_env) (sockfd : Z) (s : state) :
  fd_to_flow s !! sockfd = None -> snd (close e sockfd s) = s.
Proof.
  intros Habs. unfold close, visit.
  destruct (real_close e) as [ret|]; [| reflexivity].
  destruct (ret =? -1); [reflexivity |].
  rewrite Habs. simpl. rewrite delete_id by exact Habs.
  destruct s; reflexivity.
Qed.

(** ** Invariants of the interleavings *)

Lemma run_invariant (c : config) (P : sys -> Prop) :
  (forall y l y1, P y -> step c y l y1 -> P y1) ->
  forall y ls y1, run c y ls y1 -> P y -> P y1.
Proof.
  intros Hstep y ls y1 Hrun. induction Hrun as [| y l y1 ls y2 Hs _ IH].
  - trivial.
  - intros HP. apply IH. exact (Hstep _ _ _ HP Hs).
Qed.

Lemma reachable_invariant (c : config) (P : sys -> Prop) :
  P initial_sys ->
  (forall y l y1, P y -> step c y l y1 -> P y1) ->
  forall y, reachable c y -> P y.
Proof.
  intros Hinit Hstep y [ls Hrun].
  exact (run_invariant c P Hstep _ _ _ Hrun Hinit).
Qed.

Lemma run_app (c : config) y ls y1 ls1 y2 :
  run c y ls y1 -> run c y1 ls1 y2 -> run c y (ls ++ ls1) y2.
Proof.
  intros H1 H2. induction H1 as [| y l y1 ls y' Hs _ IH]; simpl.
  - exact H2.
  - econstructor; [exact Hs | exact (IH H2)].
Qed.

Lemma accept_invalid (c : config) (e : accept_env) (s : state) :
  config_invalid c = true -> accept_until_lock c e s = (s, inl (-1)).
Proof. intros H. unfold accept_until_lock. rewrite H. reflexivity. Qed.

(** ** Frames of the operations *)

Lemma bpf_setup_flag (e : accept_env) (s : state) :
  setup (snd (bpf_setup e s)) = fst (bpf_setup e s) /\
  (setup s = true -> bpf_setup e s = (true, s)) /\
  open_attempts (trace (snd (bpf_setup e s))) =
    (open_attempts (trace s) + (if setup s then 0 else 1))%nat.
Proof.
  unfold bpf_setup. destruct (setup s) eqn:Hs; simpl.
  - rewrite Hs. repeat split. rewrite Nat.add_0_r. reflexivity.
  - destruct (ratemon_maps_bpf__open_and_load e); simpl;
      rewrite ?open_attempts_snoc; simpl; rewrite ?Hs; repeat split;
      try discriminate; rewrite ?Nat.add_0_r; reflexivity.
Qed.

Lemma registry_insert_lookup_ne (k k' : Z) (v : rm_flow)
    (m : gmap Z rm_flow) :
  k <> k' -> registry_insert k v m !! k' = m !! k'.
Proof.
  intros Hne. unfold registry_insert.
  destruct (m !! k); [reflexivity | apply lookup_insert_ne; exact Hne].
Qed.

(** Lines 159-260 leave the queues alone and make no call on the kernel
    map; they change the registry only by the insertion of line 260,
    which happens only after set-up. *)
Lemma accept_until_lock_frame (c : config) (e : accept_env) (s s1 : state)
    (r : Z + Z * rm_flow) :
  accept_until_lock c e s = (s1, r) ->
  active_fds_queue s1 = active_fds_queue s /\
  paused_fds_queue s1 = paused_fds_queue s /\
  kernel_calls (trace s1) = kernel_calls (trace s) /\
  (setup s = true ->
     setup s1 = true /\
     open_attempts (trace s1) = open_attempts (trace s)) /\
  match r with
  | inl _ => fd_to_flow s1 = fd_to_flow s
  | inr (new_fd, flow) =>
      real_accept e = Some new_fd /\
      fd_to_flow s1 = registry_insert new_fd flow (fd_to_flow s) /\
      setup s1 = true
  end.
Proof.
  unfold accept_until_lock.
  destruct (bpf_setup_preserves e s) as (H1 & H2 & H3 & _ & H5 & _).
  destruct (bpf_setup_flag e s) as (Hflag & Hdone & Hopen).
  assert (Hmono : setup s = true ->
            setup (snd (bpf_setup e s)) = true /\
            open_attempts (trace (snd (bpf_setup e s)))
              = open_attempts (trace s)).
  { intros Hs. rewrite (Hdone Hs). simpl. split; [exact Hs | reflexivity]. }
  destruct (config_invalid c);
    [intros [= <- <-]; repeat split; tauto |].
  destruct (real_accept e) as [new_fd|];
    [| intros [= <- <-]; repeat split; tauto].
  destruct (new_fd =? -1);
    [intros [= <- <-]; repeat split; tauto |].
  destruct (match sa_family e with
            | Some family => negb (family =? AF_INET)
            | None => false
            end);
    [intros [= <- <-]; repeat split; tauto |].
  destruct (bpf_setup e s) as [[|] s2]; simpl in *;
    [| intros [= <- <-]; repeat split; tauto].
  repeat match goal with
  | |- context [if ?b then _ else _] =>
      destruct b; [intros [= <- <-]; simpl; repeat split; tauto |]
  end.
  intros [= <- <-]. simpl. rewrite H1. repeat split; tauto.
Qed.

Lemma accept_locked_frame (c : config) (new_fd : Z) (flow : rm_flow)
    (s : state) :
  fd_to_flow (accept_locked c new_fd flow s) = fd_to_flow s /\
  setup (accept_locked c new_fd flow s) = setup s /\
  (N.of_nat (length (active_fds_queue s)) <= max_active_flows c ->
   N.of_nat (length (active_fds_queue (accept_locked c new_fd flow s)))
     <= max_active_flows c)%N.
Proof.
  unfold accept_locked.
  destruct (N.of_nat (length (active_fds_queue s)) <? max_active_flows c)%N
    eqn:Hlt; simpl; repeat split; try tauto.
  apply N.ltb_lt in Hlt. rewrite length_app. simpl. lia.
Qed.

Lemma close_frame (e : close_env) (sockfd : Z) (s : state) :
  let s1 := snd (close e sockfd s) in
  active_fds_queue s1 = active_fds_queue s /\
  paused_fds_queue s1 = paused_fds_queue s /\
  setup s1 = setup s /\
  (forall k, fd_to_flow s !! k = None -> fd_to_flow s1 !! k = None).
Proof.
  unfold close, visit.
  destruct (real_close e) as [ret|]; simpl; [| repeat split; tauto].
  destruct (ret =? -1); simpl; [repeat split; tauto |].
  destruct (fd_to_flow s !! sockfd); simpl; repeat split;
    intros k Hk; rewrite lookup_delete; case_decide; auto.
Qed.

(** One pass of the selection loop picks only a registered handle. *)
Lemma select_body_frame (na na1 : list Z) (s s1 : state) :
  select_body na s = (na1, s1) ->
  fd_to_flow s1 = fd_to_flow s /\
  active_fds_queue s1 = active_fds_queue s /\
  setup s1 = setup s /\
  trace s1 = trace s /\
  (length na1 <= S (length na))%nat /\
  (forall fd, fd ∈ na1 -> fd ∈ na \/ is_Some (fd_to_flow s !! fd)).
Proof.
  unfold select_body, visit.
  destruct (paused_fds_queue s) as [|next_fd rest].
  - intros [= <- <-]. repeat split; auto with lia.
  - destruct (fd_to_flow s !! next_fd) as [p|] eqn:Hp.
    + intros [= <- <-]. simpl. rewrite length_app. simpl.
      repeat split; [lia |].
      intros fd Hin. apply elem_of_app in Hin as [Hin | Hin]; [auto |].
      apply list_elem_of_singleton in Hin. subst fd. right. eauto.
    + intros [= <- <-]. repeat split; auto with lia.
Qed.

Lemma rotate_frame (na : list Z) (s : state) :
  fd_to_flow (rotate na s) = fd_to_flow s /\
  setup (rotate na s) = setup s /\
  active_fds_queue (rotate na s) = na.
Proof. rewrite rotate_spec. repeat split. Qed.

Lemma skip_epoch_not_setup (c : config) (s : state) :
  setup s = false -> skip_epoch c s = true.
Proof. intros H. unfold skip_epoch. rewrite H. reflexivity. Qed.

(** The frame of the [accept] or of the selection pass that a step has
    put in the context. *)
Tactic Notation "accept_frame" "as" simple_intropattern(pat) :=
  match goal with
  | H : accept_until_lock _ _ _ = _ |- _ =>
      destruct (accept_until_lock_frame _ _ _ _ _ H) as pat
  end.

Tactic Notation "select_frame" "as" simple_intropattern(pat) :=
  match goal with
  | H : select_body _ _ = _ |- _ =>
      destruct (select_body_frame _ _ _ _ H) as pat
  end.

(** ** The congestion-control step of [accept] (C3) *)

(** C3 fails as stated: once the control flow has been exempted, an
    accept whose underlying call returns 7 and whose setsockopt fails,
    whose getsockopt fails, or whose read-back names another algorithm,
    returns 7 and not -1. *)
Lemma cca_failure_counterexample :
  fst (accept (example_config 2)
         (accept_with 7 5 true (-1) 0 "bpf_cubic") managed_state) = 7 /\
  fst (accept (example_config 2)
         (accept_with 7 5 true 0 (-1) "bpf_cubic") managed_state) = 7 /\
  fst (accept (example_config 2)
         (accept_with 7 5 true 0 0 "cubic") managed_state) = 7 /\
  7 <> -1.
Proof. repeat split; try (vm_compute; reflexivity). discriminate. Qed.

(** C3, amended: a call whose underlying accept succeeds and which
    reaches the congestion-control step (valid configuration, expected
    address family, set-up done, not the exempted first flow) and then
    sees setsockopt fail, getsockopt fail or a different algorithm name,
    returns the new connection handle; the flow is neither registered
    nor queued and no call is made on the kernel map. *)
Theorem accept_cca_failure_passthrough (c : config) (e : accept_env)
    (s : state) (new_fd : Z) :
  config_invalid c = false ->
  real_accept e = Some new_fd ->
  new_fd <> -1 ->
  sa_family e = None \/ sa_family e = Some AF_INET ->
  setup s = true \/ ratemon_maps_bpf__open_and_load e = true ->
  size (fd_to_flow s) <> 0%nat \/ skipped_first s = true ->
  setsockopt_ret e = -1 \/ getsockopt_ret e = -1 \/
    retrieved_cca e <> RM_BPF_CUBIC c ->
  accept c e s = (new_fd, snd (bpf_setup e s)) /\
  fd_to_flow (snd (accept c e s)) = fd_to_flow s /\
  active_fds_queue (snd (accept c e s)) = active_fds_queue s /\
  paused_fds_queue (snd (accept c e s)) = paused_fds_queue s /\
  kernel_calls (trace (snd (accept c e s))) = kernel_calls (trace s).
Proof.
  intros Hc Hacc Hfd Hfam Hsetup Hfirst Hcca.
  assert (Heq : accept c e s = (new_fd, snd (bpf_setup e s))).
  { unfold accept.
    rewrite (accept_reaches_cca c e s new_fd) by assumption. simpl.
    destruct (setsockopt_ret e =? -1) eqn:H1; [reflexivity |].
    destruct (getsockopt_ret e =? -1) eqn:H2; [reflexivity |].
    destruct (bool_decide (retrieved_cca e = RM_BPF_CUBIC c)) eqn:H3;
      [| reflexivity].
    apply Z.eqb_neq in H1, H2. apply bool_decide_eq_true in H3.
    destruct Hcca as [? | [? | ?]]; contradiction. }
  rewrite Heq. simpl.
  destruct (bpf_setup_preserves e s) as (H1 & H2 & H3 & _ & H5 & _).
  repeat split; assumption.
Qed.

Lemma accept_cca_failure_passthrough_witness :
  accept (example_config 2) (accept_with 7 5 true (-1) 0 "bpf_cubic")
    managed_state = (7, managed_state).
Proof.
  destruct (accept_cca_failure_passthrough (example_config 2)
              (accept_with 7 5 true (-1) 0 "bpf_cubic") managed_state 7)
    as [H _].
  - reflexivity.
  - reflexivity.
  - discriminate.
  - right. reflexivity.
  - left. reflexivity.
  - right. reflexivity.
  - left. reflexivity.
  - rewrite H. reflexivity.
Defined.

(** ** Registration and classification in [accept] (C5) *)

(** C5: a call that reaches the registration step inserts the flow in
    the registry (the map's insert, which keeps an entry already there)
    and returns the handle; if the active queue is below capacity the
    handle is appended to it and no call is made on the kernel map,
    otherwise the handle is appended to the paused queue and the flow is
    upserted in the kernel map with value zero. *)
Theorem accept_registers_and_classifies (c : config) (e : accept_env)
    (s : state) (new_fd : Z) :
  config_invalid c = false ->
  real_accept e = Some new_fd ->
  new_fd <> -1 ->
  sa_family e = None \/ sa_family e = Some AF_INET ->
  setup s = true \/ ratemon_maps_bpf__open_and_load e = true ->
  size (fd_to_flow s) <> 0%nat \/ skipped_first s = true ->
  setsockopt_ret e <> -1 ->
  getsockopt_ret e <> -1 ->
  retrieved_cca e = RM_BPF_CUBIC c ->
  getsockname_ret e <> -1 ->
  getpeername_ret e <> -1 ->
  let flow := four_tuple e in
  let s' := snd (accept c e s) in
  fst (accept c e s) = new_fd /\
  fd_to_flow s' = registry_insert new_fd flow (fd_to_flow s) /\
  is_Some (fd_to_flow s' !! new_fd) /\
  (fd_to_flow s !! new_fd = None -> fd_to_flow s' !! new_fd = Some flow) /\
  ((N.of_nat (length (active_fds_queue s)) < max_active_flows c)%N ->
     active_fds_queue s' = active_fds_queue s ++ [new_fd] /\
     paused_fds_queue s' = paused_fds_queue s /\
     kernel_calls (trace s') = kernel_calls (trace s) /\
     flow_to_rwnd (trace s') = flow_to_rwnd (trace s)) /\
  ((max_active_flows c <= N.of_nat (length (active_fds_queue s)))%N ->
     active_fds_queue s' = active_fds_queue s /\
     paused_fds_queue s' = paused_fds_queue s ++ [new_fd] /\
     kernel_calls (trace s') =
       kernel_calls (trace s)
         ++ [BpfMapUpdateElem (flow_to_rwnd_fd s') flow 0] /\
     flow_to_rwnd (trace s') = <[flow := 0]> (flow_to_rwnd (trace s))).
Proof.
  intros Hc Hacc Hfd Hfam Hsetup Hfirst Hss Hgs Hcca Hsn Hpn flow s'.
  subst s'. unfold accept.
  rewrite (accept_reaches_cca c e s new_fd) by assumption. simpl.
  apply Z.eqb_neq in Hss, Hgs, Hsn, Hpn. rewrite Hss, Hgs, Hsn, Hpn.
  rewrite (bool_decide_eq_true_2 _ Hcca). simpl.
  destruct (bpf_setup_preserves e s) as (H1 & H2 & H3 & _ & H5 & H6).
  set (s1 := snd (bpf_setup e s)) in *. fold flow.
  split; [reflexivity |].
  assert (Hins : forall m : gmap Z rm_flow,
            is_Some (registry_insert new_fd flow m !! new_fd) /\
            (m !! new_fd = None ->
             registry_insert new_fd flow m !! new_fd = Some flow)).
  { intros m. unfold registry_insert.
    destruct (m !! new_fd) as [p|] eqn:Hm.
    - split; [rewrite Hm; eauto | discriminate].
    - rewrite lookup_insert_eq. split; eauto. }
  unfold accept_locked. simpl. rewrite H2.
  destruct (N.of_nat (length (active_fds_queue s)) <? max_active_flows c)%N
    eqn:Hlt; simpl; rewrite ?H1, ?H2, ?H3.
  - apply N.ltb_lt in Hlt.
    split; [reflexivity |]. split; [apply Hins |]. split; [apply Hins |].
    split; [intros _; repeat split; assumption | intros Hge; lia].
  - apply N.ltb_ge in Hlt.
    split; [reflexivity |]. split; [apply Hins |]. split; [apply Hins |].
    split; [intros Hge; lia | intros _].
    rewrite kernel_calls_snoc, flow_to_rwnd_snoc, H5, H6. simpl.
    repeat split.
Qed.

Lemma accept_registers_and_classifies_witness :
  let s' := snd (accept (example_config 2) (accept_ok 7 5) managed_state) in
  fd_to_flow s' !! 7 = Some (four_tuple (accept_ok 7 5)) /\
  active_fds_queue s' = [7].
Proof.
  destruct (accept_registers_and_classifies (example_config 2)
              (accept_ok 7 5) managed_state 7)
    as (_ & _ & _ & Hreg & Hact & _);
    try reflexivity; try discriminate;
    try (right; reflexivity); try (left; reflexivity).
  split.
  - apply Hreg. reflexivity.
  - destruct Hact as (Ha & _); [vm_compute; reflexivity |].
    rewrite Ha. reflexivity.
Defined.

(** ** A configuration read as zero *)

(** When the capacity or the epoch is zero, every accept returns -1
    and leaves the whole state as it was; the scheduling thread returns
    at once with the state untouched, whatever number of epochs it is
    given; and in every interleaving from start-up the registry, the
    queues and the trace stay as they were initially. *)
Theorem invalid_config_inert (c : config) :
  config_invalid c = true ->
  (forall e s, accept c e s = (-1, s)) /\
  (forall n fuel s, thread_func n fuel c s = Returned s) /\
  (forall y, reachable c y -> y = initial_sys).
Proof.
  intros Hc. split; [| split].
  - intros e s. unfold accept. rewrite accept_invalid by exact Hc.
    reflexivity.
  - intros n fuel s. unfold thread_func. rewrite Hc. reflexivity.
  - apply reachable_invariant; [reflexivity |].
    intros y l y1 -> Hstep. unfold initial_sys in Hstep.
    inversion Hstep; subst; try congruence;
      repeat match goal with
      | H : accept_until_lock _ _ _ = _ |- _ =>
          rewrite accept_invalid in H by exact Hc; inversion H; subst
      | H : [] = _ ++ _ :: _ |- _ =>
          exfalso; exact (app_cons_not_nil _ _ _ H)
      | H : _ ++ _ :: _ = [] |- _ =>
          exfalso; exact (app_cons_not_nil _ _ _ (eq_sym H))
      end.
    + reflexivity.
    + rewrite close_absent by apply lookup_empty. reflexivity.
Qed.

Lemma invalid_config_inert_witness :
  accept (example_config 0) (accept_ok 4 2) initial_state
    = (-1, initial_state) /\
  thread_func 3 5 (example_config 0) stale_state = Returned stale_state.
Proof.
  destruct (invalid_config_inert (example_config 0)) as (Ha & Ht & _).
  - reflexivity.
  - split; [apply Ha | apply Ht].
Defined.

(** ** A variable of the configuration that is not set (C7) *)

Lemma to_unsigned_int_zero (z : Z) :
  to_unsigned_int z = 0%N <-> z mod 4294967296 = 0.
Proof.
  unfold to_unsigned_int.
  pose proof (Z.mod_pos_bound z 4294967296 eq_refl). lia.
Qed.

(** C7: a process started with one of the two variables unset does not
    get as far as a call of accept, let alone one that returns -1: the
    initialiser of line 52 or 56 hands the NULL of getenv to atoi and
    the process ends there. With both variables set and one of them read
    as zero the checks of lines 159-163 do what the claim says, and the
    first accept returns -1 with the state as it was. *)
Theorem unset_config_faults (max_key epoch_key cubic : string)
    (getenv : string -> option string) (e : accept_env) :
  (getenv max_key = None \/ getenv epoch_key = None ->
   load_config max_key epoch_key cubic getenv = None /\
   first_accept max_key epoch_key cubic getenv e = None) /\
  (forall max epoch,
     getenv max_key = Some max ->
     getenv epoch_key = Some epoch ->
     atoi max mod 4294967296 = 0 \/ atoi epoch mod 4294967296 = 0 ->
     first_accept max_key epoch_key cubic getenv e
       = Some (-1, initial_state)).
Proof.
  unfold first_accept, load_config. split.
  - intros [H | H].
    + rewrite H. split; reflexivity.
    + rewrite H. destruct (getenv max_key); split; reflexivity.
  - intros max epoch -> -> Hz. f_equal.
    unfold accept. rewrite accept_invalid; [reflexivity |].
    unfold config_invalid. simpl.
    apply orb_true_iff. rewrite !N.eqb_eq, !to_unsigned_int_zero. exact Hz.
Qed.

Lemma unset_config_faults_witness :
  first_accept "RM_MAX_ACTIVE_FLOWS" "RM_EPOCH_US" "bpf_cubic"
    (getenv_of [("RM_EPOCH_US", "1000")]) (accept_ok 4 2) = None /\
  first_accept "RM_MAX_ACTIVE_FLOWS" "RM_EPOCH_US" "bpf_cubic"
    (getenv_of [("RM_MAX_ACTIVE_FLOWS", "0"); ("RM_EPOCH_US", "1000")])
    (accept_ok 4 2) = Some (-1, initial_state).
Proof.
  split.
  - apply (unset_config_faults "RM_MAX_ACTIVE_FLOWS" "RM_EPOCH_US"
             "bpf_cubic" (getenv_of [("RM_EPOCH_US", "1000")])
             (accept_ok 4 2)).
    left. reflexivity.
  - apply (proj2 (unset_config_faults "RM_MAX_ACTIVE_FLOWS" "RM_EPOCH_US"
                    "bpf_cubic"
                    (getenv_of [("RM_MAX_ACTIVE_FLOWS", "0");
                                ("RM_EPOCH_US", "1000")])
                    (accept_ok 4 2)) "0" "1000"%string).
    + reflexivity.
    + reflexivity.
    + left. reflexivity.
Defined.

(** ** Closing a handle that is not registered (C8) *)

(** C8: closing a handle that is absent from the registry changes
    nothing, so no delete is issued on the kernel map and the registry
    is as before, whatever the underlying close returns; and after a
    successful close of any handle the handle is absent, so that closing
    it again changes nothing and issues no second delete. *)
Theorem close_absent_noop (sockfd : Z) (s : state) :
  (forall e, fd_to_flow s !! sockfd = None ->
     snd (close e sockfd s) = s /\
     fst (close e sockfd s) = default (-1) (real_close e)) /\
  (forall e1 e2 ret,
     real_close e1 = Some ret -> ret <> -1 ->
     let s1 := snd (close e1 sockfd s) in
     fd_to_flow s1 !! sockfd = None /\
     snd (close e2 sockfd s1) = s1 /\
     trace (snd (close e2 sockfd s1)) = trace s1).
Proof.
  split.
  - intros e Habs. split; [apply close_absent; exact Habs |].
    unfold close. destruct (real_close e) as [ret|]; [| reflexivity].
    simpl. destruct (ret =? -1); reflexivity.
  - intros e1 e2 ret He Hret s1.
    assert (Habs : fd_to_flow s1 !! sockfd = None).
    { subst s1. rewrite (close_registry e1 sockfd s ret He Hret). simpl.
      apply lookup_delete_eq. }
    split; [exact Habs |].
    rewrite (close_absent e2 sockfd s1 Habs). split; reflexivity.
Qed.

Lemma close_absent_noop_witness :
  snd (close close_ok 5 stale_state) = stale_state /\
  snd (close close_ok 4 (snd (close close_ok 4 stale_state)))
    = snd (close close_ok 4 stale_state).
Proof.
  destruct (close_absent_noop 5 stale_state) as [H1 _].
  destruct (close_absent_noop 4 stale_state) as [_ H2].
  split.
  - apply (H1 close_ok). vm_compute. reflexivity.
  - apply (H2 close_ok close_ok 0); [reflexivity | discriminate].
Defined.

(** ** The active queue stays within bounds (C4) *)

Lemma within_capacity_step (c : config) (y : sys) (l : label) (y1 : sys) :
  within_capacity c y -> step c y l y1 -> within_capacity c y1.
Proof.
  intros [Ha Hs] Hstep. unfold within_capacity.
  inversion Hstep; subst; simpl in *.
  - accept_frame as (-> & _).
    split; assumption.
  - accept_frame as (-> & _).
    split; assumption.
  - split; [| exact I]. apply accept_locked_frame. exact Ha.
  - destruct (close_frame e sockfd s) as (-> & _). split; assumption.
  - split; assumption.
  - split; [exact Ha | simpl; lia].
  - select_frame as (_ & -> & _ & _ & Hlen & _).
    match goal with H : select_cond _ _ _ = true |- _ =>
      apply select_cond_true in H as [_ Hlt] end.
    split; [exact Ha | lia].
  - destruct (rotate_frame na s) as (_ & _ & ->). split; [exact Hs | exact I].
Qed.

Lemma reachable_within_capacity (c : config) (y : sys) :
  reachable c y -> within_capacity c y.
Proof.
  apply reachable_invariant.
  - split; simpl; [lia | exact I].
  - intros y0 l y1. apply within_capacity_step.
Qed.

(** C4: in every state reached by interleaving accepts, closes and the
    steps of the scheduling thread, whenever the lock is free the active
    queue holds at most twice the capacity (indeed at most the
    capacity); and while the scheduling thread holds the lock, the queue
    it builds at lines 120-127, before it pauses the previous flows,
    also holds at most twice the capacity. *)
Theorem active_queue_bound (c : config) (y : sys) :
  reachable c y ->
  (sched y = Idle ->
   (N.of_nat (length (active_fds_queue (globals y)))
      <= 2 * max_active_flows c)%N /\
   (N.of_nat (length (active_fds_queue (globals y)))
      <= max_active_flows c)%N) /\
  (forall na, sched y = Selecting na ->
   (N.of_nat (length (active_fds_queue (activate_loop na (globals y))))
      <= 2 * max_active_flows c)%N).
Proof.
  intros Hr. destruct (reachable_within_capacity c y Hr) as [Ha Hs].
  split.
  - intros _. split; [lia | exact Ha].
  - intros na Hna. rewrite Hna in Hs. rewrite activate_loop_spec. simpl.
    rewrite length_app. lia.
Qed.

(** A run with capacity 1: the exempted control flow, then a flow that is
    registered and made active. *)
Lemma one_active_reachable :
  reachable (example_config 1)
    {| globals :=
         snd (accept (example_config 1) (accept_ok 4 2)
                (snd (accept (example_config 1) (accept_ok 3 1)
                        initial_state)));
       sched := Idle; waiting := [] |}.
Proof.
  exists [LAccept (accept_ok 3 1); LAccept (accept_ok 4 2);
          LAcceptLocked 4 (four_tuple (accept_ok 4 2))].
  eapply run_cons.
  { apply step_accept_returns with (ret := 3). vm_compute. reflexivity. }
  eapply run_cons.
  { apply step_accept_registers
      with (new_fd := 4) (flow := four_tuple (accept_ok 4 2)).
    vm_compute. reflexivity. }
  eapply run_cons.
  { apply (step_accept_locked _ _ [] []). }
  apply run_nil.
Defined.

Lemma active_queue_bound_witness :
  (N.of_nat (length (active_fds_queue
     (snd (accept (example_config 1) (accept_ok 4 2)
             (snd (accept (example_config 1) (accept_ok 3 1)
                     initial_state))))))
   <= 2 * max_active_flows (example_config 1))%N.
Proof.
  destruct (active_queue_bound (example_config 1) _ one_active_reachable)
    as [H _].
  apply H. reflexivity.
Defined.

(** ** A closed handle is never selected (C6) *)






(** ** Set-up of the map gateway (C9) *)

Lemma not_setup_unmanaged_step (c : config) (y : sys) (l : label)
    (y1 : sys) :
  (setup (globals y) = false -> unmanaged y) ->
  step c y l y1 ->
  setup (globals y1) = false -> unmanaged y1.
Proof.
  intros IH Hstep. unfold unmanaged in *.
  inversion Hstep; subst; simpl in *; intros Hs1.
  - accept_frame as (-> & -> & -> & Hmono & ->).
    apply IH. destruct (setup s); [| reflexivity].
    destruct Hmono as [Hmono _]; [reflexivity | congruence].
  - accept_frame as (_ & _ & _ & _ & _ & _ & Hset).
    congruence.
  - destruct (accept_locked_frame c new_fd flow s) as (_ & Hset & _).
    rewrite Hset in Hs1. destruct (IH Hs1) as (_ & _ & _ & Hw & _).
    exfalso. exact (app_cons_not_nil _ _ _ (eq_sym Hw)).
  - destruct (close_frame e sockfd s) as (_ & _ & Hset & _).
    rewrite Hset in Hs1. pose proof (IH Hs1) as Hu.
    rewrite close_absent; [exact Hu |].
    destruct Hu as (-> & _). apply lookup_empty.
  - exact (IH Hs1).
  - match goal with H : skip_epoch _ _ = false |- _ =>
      rewrite skip_epoch_not_setup in H by exact Hs1; discriminate H end.
  - select_frame as (_ & _ & Hset & _).
    rewrite Hset in Hs1. destruct (IH Hs1) as (_ & _ & _ & _ & Hpc & _).
    discriminate Hpc.
  - destruct (rotate_frame na s) as (_ & Hset & _).
    rewrite Hset in Hs1. destruct (IH Hs1) as (_ & _ & _ & _ & Hpc & _).
    discriminate Hpc.
Qed.


(** The path through lines 159-183 of a call that gets to the set-up
    step. *)
Lemma accept_reaches_setup (c : config) (e : accept_env) (s : state)
    (new_fd : Z) :
  config_invalid c = false ->
  real_accept e = Some new_fd ->
  new_fd <> -1 ->
  sa_family e = None \/ sa_family e = Some AF_INET ->
  accept_until_lock c e s =
    match bpf_setup e s with
    | (false, s1) => (s1, inl new_fd)
    | (true, s1) =>
        if (size (fd_to_flow s1) =? 0)%nat && negb (skipped_first s1)
        then (set_skipped_first true s1, inl new_fd) else
        if setsockopt_ret e =? -1 then (s1, inl new_fd) else
        if getsockopt_ret e =? -1 then (s1, inl new_fd) else
        if negb (bool_decide (retrieved_cca e = RM_BPF_CUBIC c))
        then (s1, inl new_fd) else
        if getsockname_ret e =? -1 then (s1, inl (-1)) else
        if getpeername_ret e =? -1 then (s1, inl (-1)) else
        (set_fd_to_flow
           (registry_insert new_fd (four_tuple e) (fd_to_flow s1)) s1,
         inr (new_fd, four_tuple e))
    end.
Proof.
  intros Hc Hacc Hfd Hfam. unfold accept_until_lock. rewrite Hc, Hacc.
  apply Z.eqb_neq in Hfd. rewrite Hfd.
  destruct Hfam as [-> | ->]; reflexivity.
Qed.






(** ** Early returns of [accept] *)

(** A call for which [dlsym] finds no symbol, or whose underlying accept
    fails, returns -1; a connection of another address family is
    returned as it is. In all three cases the whole state is left as it
    was: no set-up is attempted and nothing is registered. *)
Theorem accept_early_return_untouched (c : config) (e : accept_env)
    (s : state) :
  (real_accept e = None -> accept c e s = (-1, s)) /\
  (real_accept e = Some (-1) -> accept c e s = (-1, s)) /\
  (forall new_fd family,
     config_invalid c = false ->
     real_accept e = Some new_fd ->
     sa_family e = Some family ->
     family <> AF_INET ->
     accept c e s = (new_fd, s)).
Proof.
  unfold accept, accept_until_lock. split; [| split].
  - intros ->. destruct (config_invalid c); reflexivity.
  - intros ->. destruct (config_invalid c); reflexivity.
  - intros new_fd family -> -> -> Hfam.
    apply Z.eqb_neq in Hfam. rewrite Hfam. simpl.
    destruct (new_fd =? -1); reflexivity.
Qed.

Lemma accept_early_return_untouched_witness :
  accept (example_config 2)
    {| real_accept := Some 7; sa_family := Some 10;
       ratemon_maps_bpf__open_and_load := true; bpf_obj_get := 9;
       setsockopt_ret := 0; getsockopt_ret := 0;
       retrieved_cca := "bpf_cubic"; getsockname_ret := 0;
       local_sockaddr := {| sin_addr := 1; sin_port := 2 |};
       getpeername_ret := 0;
       remote_sockaddr := {| sin_addr := 3; sin_port := 4 |} |}
    initial_state
  = (7, initial_state).
Proof.
  refine (proj2 (proj2 (accept_early_return_untouched _ _ _)) 7 10 _ _ _ _).
  - reflexivity.
  - reflexivity.
  - reflexivity.
  - discriminate.
Defined.

(** [accept] returns -1 or the very descriptor the underlying accept
    returned, never another value; and when the underlying accept
    succeeded, -1 is returned only for an invalid configuration or a
    failure of getsockname or getpeername. *)
Theorem accept_returns_descriptor_or_failure (c : config) (e : accept_env)
    (s : state) :
  (fst (accept c e s) = -1 \/ real_accept e = Some (fst (accept c e s))) /\
  (forall new_fd, real_accept e = Some new_fd -> new_fd <> -1 ->
     fst (accept c e s) = -1 ->
     config_invalid c = true \/
     getsockname_ret e = -1 \/ getpeername_ret e = -1).
Proof.
  unfold accept, accept_until_lock.
  destruct (config_invalid c); simpl; [split; [left; reflexivity | auto] |].
  destruct (real_accept e) as [new_fd|]; simpl;
    [| split; [left; reflexivity | discriminate]].
  destruct (new_fd =? -1) eqn:Hfd; simpl.
  { apply Z.eqb_eq in Hfd. split; [right; reflexivity |].
    intros ? [= <-] Hne. contradiction. }
  destruct (match sa_family e with
            | Some family => negb (family =? AF_INET)
            | None => false
            end); simpl.
  { split; [right; reflexivity |]. intros ? [= <-] Hne ?. contradiction. }
  destruct (bpf_setup e s) as [[|] s1]; simpl.
  2:{ split; [right; reflexivity |]. intros ? [= <-] Hne ?. contradiction. }
  destruct ((size (fd_to_flow s1) =? 0)%nat && negb (skipped_first s1)); simpl.
  { split; [right; reflexivity |]. intros ? [= <-] Hne ?. contradiction. }
  destruct (setsockopt_ret e =? -1); simpl.
  { split; [right; reflexivity |]. intros ? [= <-] Hne ?. contradiction. }
  destruct (getsockopt_ret e =? -1); simpl.
  { split; [right; reflexivity |]. intros ? [= <-] Hne ?. contradiction. }
  destruct (negb (bool_decide (retrieved_cca e = RM_BPF_CUBIC c))); simpl.
  { split; [right; reflexivity |]. intros ? [= <-] Hne ?. contradiction. }
  destruct (getsockname_ret e =? -1) eqn:Hsn; simpl.
  { apply Z.eqb_eq in Hsn. split; [left; reflexivity | auto]. }
  destruct (getpeername_ret e =? -1) eqn:Hpn; simpl.
  { apply Z.eqb_eq in Hpn. split; [left; reflexivity | auto]. }
  split; [right; reflexivity |]. intros ? [= <-] Hne ?. contradiction.
Qed.

Lemma accept_returns_descriptor_or_failure_witness :
  config_invalid (example_config 0) = true \/
  getsockname_ret (accept_ok 4 2) = -1 \/
  getpeername_ret (accept_ok 4 2) = -1.
Proof.
  refine (proj2 (accept_returns_descriptor_or_failure (example_config 0)
                   (accept_ok 4 2) initial_state) 4 _ _ _).
  - reflexivity.
  - discriminate.
  - reflexivity.
Defined.

(** ** Address introspection in [accept] *)

(** A call that gets past the congestion-control step and then sees
    getsockname or getpeername fail returns -1, although the underlying
    accept produced a connection: the flow is neither registered nor
    queued, and no call is made on the kernel map. *)
Theorem accept_introspection_failure (c : config) (e : accept_env)
    (s : state) (new_fd : Z) :
  config_invalid c = false ->
  real_accept e = Some new_fd ->
  new_fd <> -1 ->
  sa_family e = None \/ sa_family e = Some AF_INET ->
  setup s = true \/ ratemon_maps_bpf__open_and_load e = true ->
  size (fd_to_flow s) <> 0%nat \/ skipped_first s = true ->
  setsockopt_ret e <> -1 ->
  getsockopt_ret e <> -1 ->
  retrieved_cca e = RM_BPF_CUBIC c ->
  getsockname_ret e = -1 \/ getpeername_ret e = -1 ->
  accept c e s = (-1, snd (bpf_setup e s)) /\
  fd_to_flow (snd (accept c e s)) = fd_to_flow s /\
  active_fds_queue (snd (accept c e s)) = active_fds_queue s /\
  paused_fds_queue (snd (accept c e s)) = paused_fds_queue s /\
  kernel_calls (trace (snd (accept c e s))) = kernel_calls (trace s).
Proof.
  intros Hc Hacc Hfd Hfam Hsetup Hfirst Hss Hgs Hcca Hfail.
  assert (Heq : accept c e s = (-1, snd (bpf_setup e s))).
  { unfold accept.
    rewrite (accept_reaches_cca c e s new_fd) by assumption. simpl.
    apply Z.eqb_neq in Hss, Hgs. rewrite Hss, Hgs.
    rewrite (bool_decide_eq_true_2 _ Hcca). simpl.
    destruct (getsockname_ret e =? -1) eqn:Hsn; [reflexivity |].
    destruct (getpeername_ret e =? -1) eqn:Hpn; [reflexivity |].
    apply Z.eqb_neq in Hsn, Hpn. destruct Hfail; contradiction. }
  rewrite Heq. simpl.
  destruct (bpf_setup_preserves e s) as (H1 & H2 & H3 & _ & H5 & _).
  repeat split; assumption.
Qed.

Lemma accept_introspection_failure_witness :
  accept (example_config 2)
    {| real_accept := Some 7; sa_family := None;
       ratemon_maps_bpf__open_and_load := true; bpf_obj_get := 9;
       setsockopt_ret := 0; getsockopt_ret := 0;
       retrieved_cca := "bpf_cubic"; getsockname_ret := 0;
       local_sockaddr := {| sin_addr := 1; sin_port := 2 |};
       getpeername_ret := -1;
       remote_sockaddr := {| sin_addr := 3; sin_port := 4 |} |}
    managed_state
  = (-1, managed_state).
Proof.
  refine (proj1 (accept_introspection_failure (example_config 2) _
                   managed_state 7 _ _ _ _ _ _ _ _ _ _)).
  - reflexivity.
  - reflexivity.
  - discriminate.
  - left. reflexivity.
  - left. reflexivity.
  - right. reflexivity.
  - discriminate.
  - discriminate.
  - reflexivity.
  - right. reflexivity.
Defined.

(** ** What [close] returns and what it leaves alone *)

(** [close] returns what the underlying close returns (-1 when [dlsym]
    finds no symbol); when the underlying close fails the whole state is
    left as it was. In every case the two queues are left alone, so a
    handle that is closed while it is queued stays in its queue with no
    registry entry; the only call made is the map delete for the
    handle's own flow. *)
Theorem close_returns_and_frame (e : close_env) (sockfd : Z) (s : state) :
  fst (close e sockfd s) = default (-1) (real_close e) /\
  (real_close e = None \/ real_close e = Some (-1) ->
     snd (close e sockfd s) = s) /\
  active_fds_queue (snd (close e sockfd s)) = active_fds_queue s /\
  paused_fds_queue (snd (close e sockfd s)) = paused_fds_queue s /\
  (forall ret, real_close e = Some ret -> ret <> -1 ->
     fd_to_flow (snd (close e sockfd s)) !! sockfd = None /\
     (sockfd ∈ paused_fds_queue s ->
        sockfd ∈ paused_fds_queue (snd (close e sockfd s))) /\
     trace (snd (close e sockfd s))
       = trace s ++ match fd_to_flow s !! sockfd with
                    | Some p => [BpfMapDeleteElem (flow_to_rwnd_fd s) p]
                    | None => []
                    end).
Proof.
  destruct (close_frame e sockfd s) as (Ha & Hp & _).
  split; [| split; [| split; [exact Ha | split; [exact Hp |]]]].
  - unfold close. destruct (real_close e) as [ret|]; [| reflexivity].
    simpl. destruct (ret =? -1); reflexivity.
  - unfold close. intros [-> | ->]; reflexivity.
  - intros ret He Hret. rewrite Hp.
    rewrite (close_registry e sockfd s ret He Hret). simpl.
    split; [apply lookup_delete_eq | split; [tauto | reflexivity]].
Qed.

Lemma close_returns_and_frame_witness :
  (5 ∈ paused_fds_queue stale_state) /\
  fd_to_flow stale_state !! 5 = None.
Proof.
  destruct (close_returns_and_frame close_ok 5
              (snd (accept (example_config 1) (accept_ok 5 3)
                 (snd (accept (example_config 1) (accept_ok 4 2)
                    (snd (accept (example_config 1) (accept_ok 3 1)
                            initial_state)))))))
    as (_ & _ & _ & _ & H).
  destruct (H 0) as (Hreg & Hq & _).
  - reflexivity.
  - discriminate.
  - split; [| exact Hreg].
    apply Hq. vm_compute. left.
Defined.

(** ** The exemption of the first flow *)

(** The registration of line 260 is reached only by a call that did not
    take the exemption of lines 210-214, and no call clears the flag. *)
Lemma accept_until_lock_exemption (c : config) (e : accept_env)
    (s s1 : state) (r : Z + Z * rm_flow) :
  accept_until_lock c e s = (s1, r) ->
  (skipped_first s = true -> skipped_first s1 = true) /\
  match r with
  | inl _ => True
  | inr _ => size (fd_to_flow s) <> 0%nat \/ skipped_first s = true
  end.
Proof.
  unfold accept_until_lock.
  destruct (bpf_setup_preserves e s) as (H1 & _ & _ & H4 & _).
  destruct (config_invalid c); [intros [= <- <-]; tauto |].
  destruct (real_accept e) as [new_fd|]; [| intros [= <- <-]; tauto].
  destruct (new_fd =? -1); [intros [= <- <-]; tauto |].
  destruct (match sa_family e with
            | Some family => negb (family =? AF_INET)
            | None => false
            end); [intros [= <- <-]; tauto |].
  destruct (bpf_setup e s) as [[|] s2]; simpl in *;
    [| intros [= <- <-]; rewrite H4; tauto].
  destruct ((size (fd_to_flow s2) =? 0)%nat && negb (skipped_first s2))
    eqn:Hskip; [intros [= <- <-]; simpl; tauto |].
  assert (Hreach : size (fd_to_flow s) <> 0%nat \/ skipped_first s = true).
  { rewrite H1, H4 in Hskip. apply andb_false_iff in Hskip as [Hn | Hn].
    - left. apply Nat.eqb_neq. exact Hn.
    - right. apply negb_false_iff. exact Hn. }
  repeat match goal with
  | |- context [if ?b then _ else _] =>
      destruct b; [intros [= <- <-]; rewrite H4; tauto |]
  end.
  intros [= <- <-]. simpl. rewrite H4. tauto.
Qed.

Lemma not_exempted_unmanaged_step (c : config) (y : sys) (l : label)
    (y1 : sys) :
  (skipped_first (globals y) = false -> unmanaged y) ->
  step c y l y1 ->
  skipped_first (globals y1) = false -> unmanaged y1.
Proof.
  intros IH Hstep. unfold unmanaged in *.
  inversion Hstep; subst; simpl in *; intros Hs1.
  - match goal with H : accept_until_lock _ _ _ = _ |- _ =>
      destruct (accept_until_lock_exemption _ _ _ _ _ H) as [Hmono _] end.
    accept_frame as (-> & -> & -> & _ & ->).
    apply IH. destruct (skipped_first s); [| reflexivity].
    rewrite Hmono in Hs1 by reflexivity. discriminate Hs1.
  - match goal with H : accept_until_lock _ _ _ = _ |- _ =>
      destruct (accept_until_lock_exemption _ _ _ _ _ H) as [Hmono Hreach]
    end.
    exfalso. destruct (skipped_first s) eqn:Hsk.
    + rewrite Hmono in Hs1 by reflexivity. discriminate Hs1.
    + destruct (IH eq_refl) as (Hreg & _).
      destruct Hreach as [Hn | Hn]; [| discriminate Hn].
      apply Hn. rewrite Hreg. apply map_size_empty.
  - assert (Hsk : skipped_first s = false).
    { revert Hs1. unfold accept_locked.
      destruct (N.of_nat (length (active_fds_queue s))
                  <? max_active_flows c)%N; simpl; trivial. }
    destruct (IH Hsk) as (_ & _ & _ & Hw & _).
    exfalso. exact (app_cons_not_nil _ _ _ (eq_sym Hw)).
  - assert (Hsk : skipped_first s = false).
    { revert Hs1. unfold close, visit.
      destruct (real_close e) as [ret|]; simpl; trivial.
      destruct (ret =? -1); simpl; trivial.
      destruct (fd_to_flow s !! sockfd); simpl; trivial. }
    pose proof (IH Hsk) as Hu.
    rewrite close_absent; [exact Hu |].
    destruct Hu as (-> & _). apply lookup_empty.
  - exact (IH Hs1).
  - exfalso. destruct (IH Hs1) as (_ & Ha & Hp & _).
    match goal with H : skip_epoch _ _ = false |- _ =>
      unfold skip_epoch in H; rewrite Ha, Hp in H; simpl in H;
      apply orb_false_iff in H as [_ H];
      apply andb_false_iff in H as [H | H]; [| discriminate H];
      apply N.ltb_ge in H end.
    match goal with H : config_invalid _ = false |- _ =>
      unfold config_invalid in H; apply orb_false_iff in H as [H _];
      apply N.eqb_neq in H end.
    lia.
  - select_frame as (_ & _ & _ & _ & _ & _).
    assert (Hsk : skipped_first s = false).
    { match goal with H : select_body _ _ = _ |- _ =>
        revert H; unfold select_body, visit end.
      destruct (paused_fds_queue s) as [|next_fd rest];
        [intros [= <- <-]; exact Hs1 |].
      destruct (fd_to_flow s !! next_fd); intros [= <- <-]; exact Hs1. }
    destruct (IH Hsk) as (_ & _ & _ & _ & Hpc & _). discriminate Hpc.
  - assert (Hsk : skipped_first s = false).
    { rewrite rotate_spec in Hs1. exact Hs1. }
    destruct (IH Hsk) as (_ & _ & _ & _ & Hpc & _). discriminate Hpc.
Qed.

(** A call that gets past set-up while the exemption flag is unset and
    the registry is empty returns the new handle unregistered and sets
    the flag. In every state reached from start-up in which the flag is
    still unset, nothing is registered, queued or waiting and no call
    has reached the kernel map: the registry test of line 210 then
    always holds, so the first connection that gets past set-up is the
    one exempted. *)
Theorem first_flow_exempted (c : config) :
  (forall e s new_fd,
     config_invalid c = false ->
     real_accept e = Some new_fd ->
     new_fd <> -1 ->
     sa_family e = None \/ sa_family e = Some AF_INET ->
     setup s = true \/ ratemon_maps_bpf__open_and_load e = true ->
     size (fd_to_flow s) = 0%nat ->
     skipped_first s = false ->
     accept c e s
       = (new_fd, set_skipped_first true (snd (bpf_setup e s)))) /\
  (forall y, reachable c y ->
     skipped_first (globals y) = false -> unmanaged y).
Proof.
  split.
  - intros e s new_fd Hc Hacc Hfd Hfam Hsetup Hsize Hsk.
    unfold accept.
    rewrite (accept_reaches_setup c e s new_fd Hc Hacc Hfd Hfam).
    destruct (bpf_setup_proceeds e s Hsetup) as [Hok _].
    destruct (bpf_setup_preserves e s) as (H1 & _ & _ & H4 & _).
    destruct (bpf_setup e s) as [ok s1]. simpl in *. subst ok.
    rewrite H1, H4, Hsize, Hsk. reflexivity.
  - apply (reachable_invariant c
             (fun y => skipped_first (globals y) = false -> unmanaged y)).
    + intros _. repeat split.
    + intros y l y1. apply not_exempted_unmanaged_step.
Qed.

Lemma first_flow_exempted_witness :
  accept (example_config 2) (accept_ok 3 1) initial_state
    = (3, managed_state) /\
  skipped_first managed_state = true.
Proof.
  destruct (first_flow_exempted (example_config 2)) as [H _].
  split; [| reflexivity].
  rewrite (H (accept_ok 3 1) initial_state 3).
  - reflexivity.
  - reflexivity.
  - reflexivity.
  - discriminate.
  - right. reflexivity.
  - right. reflexivity.
  - reflexivity.
  - reflexivity.
Defined.

(** ** [accept] followed by [close] *)

(** When a call registers a handle that was not registered and the
    handle is then closed, the registry is as it was before the accept
    and the kernel map holds no entry for the flow, but the handle
    stays on the queue that the accept put it on. *)
Theorem accept_then_close (c : config) (e : accept_env) (ce : close_env)
    (s : state) (new_fd ret : Z) :
  config_invalid c = false ->
  real_accept e = Some new_fd ->
  new_fd <> -1 ->
  sa_family e = None \/ sa_family e = Some AF_INET ->
  setup s = true \/ ratemon_maps_bpf__open_and_load e = true ->
  size (fd_to_flow s) <> 0%nat \/ skipped_first s = true ->
  setsockopt_ret e <> -1 ->
  getsockopt_ret e <> -1 ->
  retrieved_cca e = RM_BPF_CUBIC c ->
  getsockname_ret e <> -1 ->
  getpeername_ret e <> -1 ->
  fd_to_flow s !! new_fd = None ->
  real_close ce = Some ret ->
  ret <> -1 ->
  let s2 := snd (close ce new_fd (snd (accept c e s))) in
  fd_to_flow s2 = fd_to_flow s /\
  flow_to_rwnd (trace s2) !! four_tuple e = None /\
  new_fd ∈ active_fds_queue s2 ++ paused_fds_queue s2.
Proof.
  intros Hc Hacc Hfd Hfam Hsetup Hfirst Hss Hgs Hcca Hsn Hpn Habs Hce Hret.
  unfold accept.
  rewrite (accept_reaches_cca c e s new_fd) by assumption. simpl.
  apply Z.eqb_neq in Hss, Hgs, Hsn, Hpn. rewrite Hss, Hgs, Hsn, Hpn.
  rewrite (bool_decide_eq_true_2 _ Hcca). simpl.
  destruct (bpf_setup_preserves e s) as (H1 & _).
  set (s1 := snd (bpf_setup e s)) in *.
  rewrite H1. unfold registry_insert. rewrite Habs.
  rewrite (close_registry ce new_fd _ ret Hce Hret).
  unfold accept_locked. simpl.
  destruct (N.of_nat (length (active_fds_queue s1)) <? max_active_flows c)%N;
    simpl; rewrite lookup_insert_eq, flow_to_rwnd_snoc; simpl;
    rewrite lookup_delete_eq, delete_insert_id by exact Habs;
    (split; [reflexivity | split; [reflexivity |]]);
    rewrite !elem_of_app, !list_elem_of_singleton; tauto.
Qed.

Lemma accept_then_close_witness :
  let s2 := snd (close close_ok 7
                   (snd (accept (example_config 2) (accept_ok 7 5)
                           managed_state))) in
  fd_to_flow s2 = fd_to_flow managed_state /\
  flow_to_rwnd (trace s2) !! four_tuple (accept_ok 7 5) = None /\
  7 ∈ active_fds_queue s2 ++ paused_fds_queue s2.
Proof.
  apply (accept_then_close (example_config 2) (accept_ok 7 5) close_ok
           managed_state 7 0);
    try reflexivity; try discriminate;
    try (right; reflexivity); try (left; reflexivity).
Defined.

(** ** Epochs of the scheduling thread *)

Lemma epoch_runs (fuel : nat) (c : config) (s : state) :
  setup s = true ->
  paused_fds_queue s <> [] \/
    (max_active_flows c <= N.of_nat (length (active_fds_queue s)))%N ->
  epoch fuel c s = schedule fuel c s.
Proof.
  intros Hs Hrun. unfold epoch, skip_epoch. rewrite Hs. simpl.
  destruct Hrun as [Hp | Ha].
  - destruct (paused_fds_queue s); [done |]. simpl.
    rewrite andb_false_r. reflexivity.
  - apply N.ltb_ge in Ha. rewrite Ha. reflexivity.
Qed.

Lemma thread_func_epochs (n fuel : nat) (c : config) (s : state) :
  config_invalid c = false -> thread_func n fuel c s = epochs n fuel c s.
Proof. intros Hc. unfold thread_func. rewrite Hc. reflexivity. Qed.

(** When set-up is done, nobody is paused and the active queue holds the
    capacity (or more), the epoch is not skipped: it selects nothing and
    pauses every active flow, so that no flow is left active. *)
Theorem epoch_pauses_full_active_queue (fuel : nat) (c : config)
    (s : state) :
  config_invalid c = false ->
  setup s = true ->
  paused_fds_queue s = [] ->
  (max_active_flows c <= N.of_nat (length (active_fds_queue s)))%N ->
  thread_func 1 fuel c s =
    Sleeping (with_queues [] (active_fds_queue s)
                (trace s ++ flat_map (pause_events s) (active_fds_queue s))
                s).
Proof.
  intros Hc Hs Hp Ha. rewrite thread_func_epochs by exact Hc. simpl.
  rewrite epoch_runs by (try right; assumption).
  rewrite schedule_spec; unfold num_selected; rewrite Hp; simpl.
  - rewrite Nat.min_0_r. simpl. reflexivity.
  - rewrite Nat.min_0_r. simpl. intros fd Hin. inversion Hin.
  - lia.
Qed.

Lemma epoch_pauses_full_active_queue_witness :
  exists s1,
    thread_func 1 0 (example_config 1)
      (snd (accept (example_config 1) (accept_ok 4 2)
              (snd (accept (example_config 1) (accept_ok 3 1)
                      initial_state))))
    = Sleeping s1 /\
    active_fds_queue s1 = [] /\ paused_fds_queue s1 = [4].
Proof.
  eexists. split.
  - apply epoch_pauses_full_active_queue.
    + reflexivity.
    + reflexivity.
    + reflexivity.
    + vm_compute. discriminate.
  - split; reflexivity.
Defined.

Lemma all_registered_take (s : state) (k : nat) :
  all_registered s ->
  forall fd, fd ∈ take k (paused_fds_queue s) ->
             is_Some (fd_to_flow s !! fd).
Proof.
  intros Hall fd Hin. apply Hall. apply elem_of_app. right.
  exact (subseteq_take k _ fd Hin).
Qed.

(** A cycle on a state whose queued handles are all registered. *)
Lemma schedule_all_registered (fuel : nat) (c : config) (s : state) :
  all_registered s ->
  (N.to_nat (max_active_flows c) <= fuel)%nat ->
  let k := num_selected c s in
  let s1 := with_queues (take k (paused_fds_queue s))
              (drop k (paused_fds_queue s) ++ active_fds_queue s)
              (trace s
                 ++ flat_map (activate_events s) (take k (paused_fds_queue s))
                 ++ flat_map (pause_events s) (active_fds_queue s)) s in
  schedule fuel c s = Some s1 /\ all_registered s1.
Proof.
  intros Hall Hfuel k s1. split.
  - apply schedule_spec.
    + apply all_registered_take. exact Hall.
    + unfold num_selected. lia.
  - intros fd Hin. subst s1. simpl in *. apply Hall.
    rewrite !elem_of_app in Hin. rewrite elem_of_app.
    destruct Hin as [Hin | [Hin | Hin]].
    + right. exact (subseteq_take _ _ fd Hin).
    + right. exact (subseteq_drop _ _ fd Hin).
    + left. exact Hin.
Qed.

(** When both queues are non-empty, fit in the capacity and hold only
    registered handles, one epoch exchanges them and a second epoch
    restores them: the two groups of flows take turns, each handle
    pausing or waking with its whole group. *)
Theorem two_epochs_swap_back (fuel : nat) (c : config) (s : state) :
  config_invalid c = false ->
  setup s = true ->
  all_registered s ->
  active_fds_queue s <> [] ->
  paused_fds_queue s <> [] ->
  (length (active_fds_queue s) <= N.to_nat (max_active_flows c))%nat ->
  (length (paused_fds_queue s) <= N.to_nat (max_active_flows c))%nat ->
  (N.to_nat (max_active_flows c) <= fuel)%nat ->
  exists s1 s2,
    thread_func 1 fuel c s = Sleeping s1 /\
    active_fds_queue s1 = paused_fds_queue s /\
    paused_fds_queue s1 = active_fds_queue s /\
    thread_func 2 fuel c s = Sleeping s2 /\
    active_fds_queue s2 = active_fds_queue s /\
    paused_fds_queue s2 = paused_fds_queue s /\
    fd_to_flow s2 = fd_to_flow s /\
    trace s2 =
      trace s
        ++ flat_map (activate_events s) (paused_fds_queue s)
        ++ flat_map (pause_events s) (active_fds_queue s)
        ++ flat_map (activate_events s) (active_fds_queue s)
        ++ flat_map (pause_events s) (paused_fds_queue s).
Proof.
  intros Hc Hs Hall Ha Hp Hla Hlp Hfuel.
  destruct (schedule_all_registered fuel c s Hall Hfuel) as [H1 Hall1].
  assert (Hk : num_selected c s = length (paused_fds_queue s)).
  { unfold num_selected. lia. }
  rewrite Hk, take_ge, drop_ge in H1, Hall1 by lia. simpl in H1, Hall1.
  set (s1 := with_queues (paused_fds_queue s) (active_fds_queue s)
               (trace s ++ flat_map (activate_events s) (paused_fds_queue s)
                        ++ flat_map (pause_events s) (active_fds_queue s)) s)
    in *.
  destruct (schedule_all_registered fuel c s1 Hall1 Hfuel) as [H2 _].
  assert (Hk1 : num_selected c s1 = length (paused_fds_queue s1)).
  { unfold num_selected. simpl. lia. }
  rewrite Hk1, take_ge, drop_ge in H2 by lia. simpl in H2.
  eexists s1, _. rewrite !thread_func_epochs by exact Hc. simpl.
  rewrite (epoch_runs fuel c s) by (try left; assumption). rewrite H1.
  rewrite (epoch_runs fuel c s1) by (try left; assumption). rewrite H2.
  repeat split. simpl. rewrite <- !app_assoc. reflexivity.
Qed.

Lemma two_epochs_swap_back_witness :
  exists s2,
    thread_func 2 2 (example_config 2) three_flows_state = Sleeping s2 /\
    active_fds_queue s2 = [4; 5] /\ paused_fds_queue s2 = [6].
Proof.
  destruct (two_epochs_swap_back 2 (example_config 2) three_flows_state)
    as (s1 & s2 & _ & _ & _ & H2 & Ha & Hp & _).
  - reflexivity.
  - reflexivity.
  - intros fd Hin. vm_compute in Hin.
    repeat (apply elem_of_cons in Hin as [-> | Hin];
            [vm_compute; eexists; reflexivity |]).
    inversion Hin.
  - discriminate.
  - discriminate.
  - vm_compute. lia.
  - vm_compute. lia.
  - vm_compute. lia.
  - exists s2. split; [exact H2 |]. split.
    + rewrite Ha. reflexivity.
    + rewrite Hp. reflexivity.
Defined.

(** First in, first out: as long as every queued handle is registered,
    the handle at position [i] of the paused queue is activated by the
    epoch number [i / capacity + 1] and then sits at position
    [i mod capacity] of the active queue. *)
Theorem paused_flow_activated_in_turn (fuel : nat) (c : config) :
  forall (n : nat) (s : state) (i : nat) (fd : Z),
  config_invalid c = false ->
  setup s = true ->
  all_registered s ->
  (N.to_nat (max_active_flows c) <= fuel)%nat ->
  paused_fds_queue s !! i = Some fd ->
  (n * N.to_nat (max_active_flows c) <= i
     < S n * N.to_nat (max_active_flows c))%nat ->
  exists s1,
    thread_func (S n) fuel c s = Sleeping s1 /\
    active_fds_queue s1 !! (i - n * N.to_nat (max_active_flows c))%nat
      = Some fd.
Proof.
  intros n s i fd Hc. rewrite thread_func_epochs by exact Hc.
  revert s i. induction n as [|n IH]; intros s i Hs Hall Hfuel Hi Hrange.
  - destruct (schedule_all_registered fuel c s Hall Hfuel) as [H1 _].
    assert (Hlt : (i < length (paused_fds_queue s))%nat)
      by exact (lookup_lt_Some _ _ _ Hi).
    eexists. simpl.
    rewrite epoch_runs, H1;
      [| exact Hs | left; intros Hnil; rewrite Hnil in Hlt; simpl in Hlt; lia].
    split; [reflexivity |]. simpl.
    rewrite Nat.sub_0_r, lookup_take_lt; [exact Hi |].
    unfold num_selected. lia.
  - destruct (schedule_all_registered fuel c s Hall Hfuel) as [H1 Hall1].
    assert (Hlt : (i < length (paused_fds_queue s))%nat)
      by exact (lookup_lt_Some _ _ _ Hi).
    set (m := N.to_nat (max_active_flows c)) in *.
    assert (Hk : num_selected c s = m).
    { unfold num_selected. fold m. lia. }
    rewrite Hk in H1, Hall1.
    set (s1 := with_queues (take m (paused_fds_queue s))
                 (drop m (paused_fds_queue s) ++ active_fds_queue s)
                 (trace s
                    ++ flat_map (activate_events s)
                         (take m (paused_fds_queue s))
                    ++ flat_map (pause_events s) (active_fds_queue s)) s)
      in *.
    destruct (IH s1 (i - m)%nat) as (s2 & H2 & Hpos).
    + exact Hs.
    + exact Hall1.
    + exact Hfuel.
    + simpl. rewrite lookup_app_l by (rewrite length_drop; lia).
      rewrite lookup_drop. replace (m + (i - m))%nat with i by lia.
      exact Hi.
    + lia.
    + exists s2. split.
      * change (epochs (S (S n)) fuel c s)
          with (match epoch fuel c s with
                | Some s' => epochs (S n) fuel c s'
                | None => Still_selecting
                end).
        rewrite epoch_runs, H1;
          [exact H2 | exact Hs |
           left; intros Hnil; rewrite Hnil in Hlt; simpl in Hlt; lia].
      * replace (i - S n * m)%nat with (i - m - n * m)%nat by lia.
        exact Hpos.
Qed.

Lemma paused_flow_activated_in_turn_witness :
  exists s1,
    thread_func 1 2 (example_config 2) three_flows_state = Sleeping s1 /\
    active_fds_queue s1 !! 0%nat = Some 6.
Proof.
  apply (paused_flow_activated_in_turn 2 (example_config 2) 0
           three_flows_state 0 6).
  - reflexivity.
  - reflexivity.
  - intros fd Hin. vm_compute in Hin.
    repeat (apply elem_of_cons in Hin as [-> | Hin];
            [vm_compute; eexists; reflexivity |]).
    inversion Hin.
  - vm_compute. lia.
  - reflexivity.
  - vm_compute. lia.
Defined.

(** ** The handles on the queues *)

(** One pass of the selection loop either changes nothing, or moves the
    registered handle at the front of the paused queue to the end of
    the selection. *)
Lemma select_body_cases (na na1 : list Z) (s s1 : state) :
  select_body na s = (na1, s1) ->
  (na1 = na /\ s1 = s) \/
  (exists next_fd rest,
     paused_fds_queue s = next_fd :: rest /\
     is_Some (fd_to_flow s !! next_fd) /\
     na1 = na ++ [next_fd] /\ s1 = set_paused rest s).
Proof.
  unfold select_body, visit.
  destruct (paused_fds_queue s) as [|next_fd rest] eqn:Hq.
  - intros [= <- <-]. left. split; reflexivity.
  - destruct (fd_to_flow s !! next_fd) as [p|] eqn:Hp; intros [= <- <-].
    + right. exists next_fd, rest. eauto.
    + left. split; reflexivity.
Qed.

Lemma handles_step (c : config) (y : sys) (l : label) (y1 : sys) :
  step c y l y1 -> handles y1 ≡ₚ handles y ++ enqueued [l].
Proof.
  intros Hstep. unfold handles.
  inversion Hstep; subst; simpl; rewrite ?app_nil_r.
  - accept_frame as (-> & -> & _). reflexivity.
  - accept_frame as (-> & -> & _). reflexivity.
  - unfold accept_locked.
    destruct (N.of_nat (length (active_fds_queue s)) <? max_active_flows c)%N;
      simpl; rewrite ?app_nil_r, <- ?app_assoc.
    + apply Permutation_app_head, Permutation_app_comm.
    + reflexivity.
  - destruct (close_frame e sockfd s) as (-> & -> & _). reflexivity.
  - reflexivity.
  - reflexivity.
  - match goal with H : select_body _ _ = _ |- _ =>
      destruct (select_body_cases _ _ _ _ H)
        as [[-> ->] | (next_fd & rest & Hq & _ & -> & ->)] end.
    + reflexivity.
    + simpl. rewrite Hq. apply Permutation_app_head.
      rewrite (assoc_L (++)). simpl. symmetry.
      apply Permutation_cons_append.
  - rewrite rotate_spec. simpl.
    rewrite (Permutation_app_comm na).
    rewrite (Permutation_app_comm (paused_fds_queue s)).
    rewrite <- (assoc_L (++)). reflexivity.
Qed.

Lemma enqueued_cons (l : label) (ls : list label) :
  enqueued (l :: ls) = enqueued [l] ++ enqueued ls.
Proof. destruct l; reflexivity. Qed.

(** Nothing ever leaves the queues: along every interleaving, the
    handles on the two queues and in the selection in progress are those
    that were there before together with those that callers of [accept]
    have enqueued since, each as often as it was enqueued. In particular
    closing a handle removes no queue entry, and from start-up the
    queues hold exactly what was enqueued. *)
Theorem queued_handles_conserved (c : config) (y : sys) (ls : list label)
    (y1 : sys) :
  run c y ls y1 ->
  handles y1 ≡ₚ handles y ++ enqueued ls /\
  length (handles y1) = (length (handles y) + length (enqueued ls))%nat /\
  (y = initial_sys -> handles y1 ≡ₚ enqueued ls).
Proof.
  intros Hrun.
  assert (Hperm : handles y1 ≡ₚ handles y ++ enqueued ls).
  { induction Hrun as [| y l y1 ls y2 Hs _ IH].
    - simpl. rewrite app_nil_r. reflexivity.
    - rewrite (enqueued_cons l ls), IH, (handles_step c y l y1 Hs).
      rewrite <- (assoc_L (++)). reflexivity. }
  split; [exact Hperm | split].
  - rewrite Hperm, length_app. reflexivity.
  - intros ->. exact Hperm.
Qed.

Lemma queued_handles_conserved_witness :
  handles stale_sys ≡ₚ [4; 5].
Proof.
  destruct (queued_handles_conserved (example_config 1) initial_sys
              [LAccept (accept_ok 3 1);
               LAccept (accept_ok 4 2);
               LAcceptLocked 4 (four_tuple (accept_ok 4 2));
               LAccept (accept_ok 5 3);
               LAcceptLocked 5 (four_tuple (accept_ok 5 3));
               LClose close_ok 5;
               LLock]
              stale_sys) as (_ & _ & H).
  - eapply run_cons.
    { apply step_accept_returns with (ret := 3). vm_compute. reflexivity. }
    eapply run_cons.
    { apply step_accept_registers
        with (new_fd := 4) (flow := four_tuple (accept_ok 4 2)).
      vm_compute. reflexivity. }
    eapply run_cons.
    { apply (step_accept_locked _ _ [] []). }
    eapply run_cons.
    { apply step_accept_registers
        with (new_fd := 5) (flow := four_tuple (accept_ok 5 3)).
      vm_compute. reflexivity. }
    eapply run_cons.
    { apply (step_accept_locked _ _ [] []). }
    eapply run_cons.
    { apply (step_close _ close_ok 5). }
    eapply run_cons.
    { apply step_sched_lock; vm_compute; reflexivity. }
    apply run_nil.
  - exact (H eq_refl).
Defined.

Lemma tracked_step (c : config) (y : sys) (l : label) (y1 : sys) :
  tracked y -> step c y l y1 -> tracked y1.
Proof.
  intros Ht Hstep fd Hreg.
  assert (Hh : forall x, x ∈ handles y -> x ∈ handles y1).
  { intros x Hx. rewrite (handles_step c y l y1 Hstep).
    apply elem_of_app. left. exact Hx. }
  inversion Hstep; subst; simpl in *.
  - accept_frame as (_ & _ & _ & _ & Hr). rewrite Hr in Hreg.
    destruct (Ht fd Hreg) as [Hin | Hin]; [left; apply Hh; exact Hin | right; exact Hin].
  - accept_frame as (_ & _ & _ & _ & _ & Hr & _). rewrite Hr in Hreg.
    rewrite fmap_app, elem_of_app. simpl.
    destruct (decide (fd = new_fd)) as [-> | Hne].
    + right. right. left.
    + rewrite registry_insert_lookup_ne in Hreg by congruence.
      destruct (Ht fd Hreg) as [Hin | Hin]; [left; apply Hh; exact Hin | tauto].
  - destruct (accept_locked_frame c new_fd flow s) as (Hr & _).
    rewrite Hr in Hreg. destruct (Ht fd Hreg) as [Hin | Hin].
    + left. apply Hh. exact Hin.
    + simpl in Hin. rewrite fmap_app, elem_of_app in Hin. simpl in Hin.
      rewrite elem_of_cons in Hin.
      destruct Hin as [Hin | [-> | Hin]].
      * right. rewrite fmap_app, elem_of_app. tauto.
      * left. rewrite (handles_step c _ _ _ Hstep). simpl.
        apply elem_of_app. right. left.
      * right. rewrite fmap_app, elem_of_app. tauto.
  - assert (Hold : is_Some (fd_to_flow s !! fd)).
    { destruct (fd_to_flow s !! fd) eqn:Hf; [eauto |].
      destruct (close_frame e sockfd s) as (_ & _ & _ & Hnone).
      rewrite (Hnone fd Hf) in Hreg. destruct Hreg as [? [=]]. }
    destruct (Ht fd Hold) as [Hin | Hin];
      [left; apply Hh; exact Hin | right; exact Hin].
  - exact (Ht fd Hreg).
  - destruct (Ht fd Hreg) as [Hin | Hin];
      [left; apply Hh; exact Hin | right; exact Hin].
  - select_frame as (Hr & _). rewrite Hr in Hreg.
    destruct (Ht fd Hreg) as [Hin | Hin];
      [left; apply Hh; exact Hin | right; exact Hin].
  - destruct (rotate_frame na s) as (Hr & _). rewrite Hr in Hreg.
    destruct (Ht fd Hreg) as [Hin | Hin];
      [left; apply Hh; exact Hin | right; exact Hin].
Qed.

(** No registered handle is lost: in every state reached from start-up,
    a registered handle is on one of the two queues, in the selection in
    progress, or with a caller that waits for the lock; so with the lock
    free and no caller waiting, it is on the active or the paused
    queue. *)
Theorem registered_handles_tracked (c : config) (y : sys) :
  reachable c y ->
  tracked y /\
  (sched y = Idle -> waiting y = [] ->
   forall fd, is_Some (fd_to_flow (globals y) !! fd) ->
     fd ∈ active_fds_queue (globals y) \/
     fd ∈ paused_fds_queue (globals y)).
Proof.
  intros Hr.
  assert (Ht : tracked y).
  { revert y Hr. apply reachable_invariant.
    - intros fd [p Hp]. simpl in Hp. rewrite lookup_empty in Hp.
      discriminate Hp.
    - intros y l y1. apply tracked_step. }
  split; [exact Ht |].
  intros Hpc Hw fd Hreg. destruct (Ht fd Hreg) as [Hin | Hin].
  - unfold handles in Hin. rewrite Hpc in Hin. simpl in Hin.
    rewrite app_nil_r, elem_of_app in Hin. exact Hin.
  - rewrite Hw in Hin. inversion Hin.
Qed.

Lemma registered_handles_tracked_witness :
  4 ∈ active_fds_queue
        (snd (accept (example_config 1) (accept_ok 4 2)
                (snd (accept (example_config 1) (accept_ok 3 1)
                        initial_state)))) \/
  4 ∈ paused_fds_queue
        (snd (accept (example_config 1) (accept_ok 4 2)
                (snd (accept (example_config 1) (accept_ok 3 1)
                        initial_state)))).
Proof.
  destruct (registered_handles_tracked (example_config 1) _
              one_active_reachable) as [_ H].
  apply (H eq_refl eq_refl 4). vm_compute. eexists. reflexivity.
Defined.

(** ** The calls on the kernel map *)

Lemma no_kernel_calls_ok (map_fd : Z) (tr : list event) :
  kernel_calls tr = [] -> Forall (map_call_ok map_fd) tr.
Proof.
  induction tr as [|ev tr IH]; intros Hk; [constructor |].
  unfold kernel_calls in *. simpl in Hk.
  destruct ev; simpl in Hk; try discriminate Hk;
    constructor; simpl; auto.
Qed.

Lemma open_attempts_app (tr1 tr2 : list event) :
  open_attempts (tr1 ++ tr2) = (open_attempts tr1 + open_attempts tr2)%nat.
Proof. unfold open_attempts. rewrite List.filter_app, length_app. done. Qed.

Lemma activate_events_ok (s : state) (fds : list Z) :
  Forall (map_call_ok (flow_to_rwnd_fd s)) (flat_map (activate_events s) fds)
  /\ open_attempts (flat_map (activate_events s) fds) = 0%nat.
Proof.
  induction fds as [|fd fds [IH1 IH2]]; [split; [constructor | reflexivity] |].
  simpl. split.
  - apply Forall_app. split; [| exact IH1].
    unfold activate_events. destruct (fd_to_flow s !! fd); simpl;
      repeat (constructor; simpl; auto).
  - rewrite open_attempts_app, IH2.
    unfold activate_events. destruct (fd_to_flow s !! fd); reflexivity.
Qed.

Lemma pause_events_ok (s : state) (fds : list Z) :
  Forall (map_call_ok (flow_to_rwnd_fd s)) (flat_map (pause_events s) fds)
  /\ open_attempts (flat_map (pause_events s) fds) = 0%nat.
Proof.
  induction fds as [|fd fds [IH1 IH2]]; [split; [constructor | reflexivity] |].
  simpl. split.
  - apply Forall_app. split; [| exact IH1].
    unfold pause_events. destruct (fd_to_flow s !! fd); simpl;
      repeat (constructor; simpl; auto).
  - rewrite open_attempts_app, IH2.
    unfold pause_events. destruct (fd_to_flow s !! fd); reflexivity.
Qed.

(** What lines 159-260 add to the trace. *)
Lemma accept_until_lock_trace (c : config) (e : accept_env) (s s1 : state)
    (r : Z + Z * rm_flow) :
  accept_until_lock c e s = (s1, r) ->
  exists evs,
    trace s1 = trace s ++ evs /\
    kernel_calls evs = [] /\
    (setup s = true ->
       evs = [] /\ flow_to_rwnd_fd s1 = flow_to_rwnd_fd s) /\
    (setup s = false -> setup s1 = true ->
       evs = [BpfOpenAndLoad true; BpfObjGet (flow_to_rwnd_fd s1)]).
Proof.
  assert (Hsame : exists evs,
            trace s = trace s ++ evs /\ kernel_calls evs = [] /\
            (setup s = true ->
               evs = [] /\ flow_to_rwnd_fd s = flow_to_rwnd_fd s) /\
            (setup s = false -> setup s = true ->
               evs = [BpfOpenAndLoad true; BpfObjGet (flow_to_rwnd_fd s)])).
  { exists []. rewrite app_nil_r. repeat split; congruence. }
  assert (Hset : exists evs,
            trace (snd (bpf_setup e s)) = trace s ++ evs /\
            kernel_calls evs = [] /\
            (setup s = true ->
               evs = [] /\
               flow_to_rwnd_fd (snd (bpf_setup e s)) = flow_to_rwnd_fd s) /\
            (setup s = false -> setup (snd (bpf_setup e s)) = true ->
               evs = [BpfOpenAndLoad true;
                      BpfObjGet (flow_to_rwnd_fd (snd (bpf_setup e s)))])).
  { assert (Hs : setup s = true \/ setup s = false)
      by (destruct (setup s); auto).
    destruct Hs as [Hs | Hs].
    - rewrite (bpf_setup_done e s Hs). exact Hsame.
    - destruct (ratemon_maps_bpf__open_and_load e) eqn:Hload.
      + rewrite (bpf_setup_loaded e s Hs Hload). simpl.
        exists [BpfOpenAndLoad true; BpfObjGet (bpf_obj_get e)].
        rewrite <- app_assoc. repeat split; congruence.
      + rewrite (bpf_setup_failed e s Hs Hload). simpl.
        exists [BpfOpenAndLoad false]. repeat split; congruence. }
  unfold accept_until_lock.
  destruct (config_invalid c); [intros [= <- <-]; exact Hsame |].
  destruct (real_accept e) as [new_fd|]; [| intros [= <- <-]; exact Hsame].
  destruct (new_fd =? -1); [intros [= <- <-]; exact Hsame |].
  destruct (match sa_family e with
            | Some family => negb (family =? AF_INET)
            | None => false
            end); [intros [= <- <-]; exact Hsame |].
  destruct (bpf_setup e s) as [[|] s2]; simpl in *;
    [| intros [= <- <-]; exact Hset].
  repeat match goal with
  | |- context [if ?b then _ else _] =>
      destruct b; [intros [= <- <-]; exact Hset |]
  end.
  intros [= <- <-]. exact Hset.
Qed.

(** What a step adds to the trace, and what it does to the flags. *)
Lemma step_trace (c : config) (y : sys) (l : label) (y1 : sys) :
  step c y l y1 ->
  exists evs,
    trace (globals y1) = trace (globals y) ++ evs /\
    Forall (map_call_ok (flow_to_rwnd_fd (globals y))) evs /\
    (setup (globals y) = true ->
       setup (globals y1) = true /\
       flow_to_rwnd_fd (globals y1) = flow_to_rwnd_fd (globals y) /\
       open_attempts evs = 0%nat) /\
    (skipped_first (globals y) = true ->
       skipped_first (globals y1) = true) /\
    (setup (globals y) = false -> setup (globals y1) = true ->
       evs = [BpfOpenAndLoad true;
              BpfObjGet (flow_to_rwnd_fd (globals y1))]).
Proof.
  assert (Hnone : forall s : state, exists evs,
            trace s = trace s ++ evs /\
            Forall (map_call_ok (flow_to_rwnd_fd s)) evs /\
            (setup s = true ->
               setup s = true /\ flow_to_rwnd_fd s = flow_to_rwnd_fd s /\
               open_attempts evs = 0%nat) /\
            (skipped_first s = true -> skipped_first s = true) /\
            (setup s = false -> setup s = true ->
               evs = [BpfOpenAndLoad true; BpfObjGet (flow_to_rwnd_fd s)])).
  { intros s. exists []. rewrite app_nil_r.
    repeat split; try constructor; congruence. }
  assert (Hacc : forall e s s1 r,
            accept_until_lock c e s = (s1, r) -> exists evs,
            trace s1 = trace s ++ evs /\
            Forall (map_call_ok (flow_to_rwnd_fd s)) evs /\
            (setup s = true ->
               setup s1 = true /\ flow_to_rwnd_fd s1 = flow_to_rwnd_fd s /\
               open_attempts evs = 0%nat) /\
            (skipped_first s = true -> skipped_first s1 = true) /\
            (setup s = false -> setup s1 = true ->
               evs = [BpfOpenAndLoad true; BpfObjGet (flow_to_rwnd_fd s1)])).
  { intros e s s1 r Ha.
    destruct (accept_until_lock_trace c e s s1 r Ha)
      as (evs & Htr & Hk & Hdone & Hflip).
    destruct (accept_until_lock_frame c e s s1 r Ha)
      as (_ & _ & _ & Hmono & _).
    destruct (accept_until_lock_exemption c e s s1 r Ha) as [Hsk _].
    exists evs. split; [exact Htr |].
    split; [apply no_kernel_calls_ok; exact Hk |].
    split; [| split; [exact Hsk | exact Hflip]].
    intros Hs. destruct (Hdone Hs) as [-> Hfd].
    destruct (Hmono Hs) as [Hs1 _]. repeat split; assumption. }
  intros Hstep. inversion Hstep; subst; simpl.
  - eapply Hacc; eassumption.
  - eapply Hacc; eassumption.
  - unfold accept_locked.
    destruct (N.of_nat (length (active_fds_queue s)) <? max_active_flows c)%N;
      simpl; [apply Hnone |].
    eexists. split; [reflexivity |].
    repeat split; try (repeat constructor; fail); congruence.
  - unfold close, visit.
    destruct (real_close e) as [ret|]; simpl; [| apply Hnone].
    destruct (ret =? -1); simpl; [apply Hnone |].
    destruct (fd_to_flow s !! sockfd); simpl; [| apply Hnone].
    eexists. split; [reflexivity |].
    repeat split; try (repeat constructor; fail); congruence.
  - apply Hnone.
  - apply Hnone.
  - match goal with H : select_body _ _ = _ |- _ =>
      destruct (select_body_cases _ _ _ _ H)
        as [[-> ->] | (next_fd & rest & _ & _ & -> & ->)] end;
      exact (Hnone s).
  - rewrite rotate_spec. simpl.
    destruct (activate_events_ok s na) as [Ha1 Ha2].
    destruct (pause_events_ok s (active_fds_queue s)) as [Hp1 Hp2].
    eexists. split; [reflexivity |].
    split; [apply Forall_app; split; assumption |].
    split; [| split; [tauto | congruence]].
    intros Hs. rewrite open_attempts_app, Ha2, Hp2. repeat split. exact Hs.
Qed.

(** ** The set-up block under interleaving *)

Lemma crun_invariant (c : config) (P : csys -> Prop) :
  (forall y l y1, P y -> cstep c y l y1 -> P y1) ->
  forall y ls y1, crun c y ls y1 -> P y -> P y1.
Proof.
  intros Hstep y ls y1 Hrun. induction Hrun as [| y l y1 ls y2 Hs _ IH].
  - trivial.
  - intros HP. apply IH. exact (Hstep _ _ _ HP Hs).
Qed.

Lemma crun_app (c : config) y ls y1 ls1 y2 :
  crun c y ls y1 -> crun c y1 ls1 y2 -> crun c y (ls ++ ls1) y2.
Proof.
  intros H1 H2. induction H1 as [| y l y1 ls y' Hs _ IH]; simpl.
  - exact H2.
  - econstructor; [exact Hs | exact (IH H2)].
Qed.

Lemma caller_replaced {A : Type} (cs1 cs2 : list A) (x x' p : A) :
  p ∈ cs1 ++ x' :: cs2 -> p = x' \/ p ∈ cs1 ++ x :: cs2.
Proof.
  rewrite !elem_of_app, !elem_of_cons. tauto.
Qed.

Lemma caller_removed {A : Type} (cs1 cs2 : list A) (x p : A) :
  p ∈ cs1 ++ cs2 -> p ∈ cs1 ++ x :: cs2.
Proof.
  rewrite !elem_of_app, !elem_of_cons. tauto.
Qed.

Lemma caller_present {A : Type} (cs1 cs2 : list A) (x : A) :
  x ∈ cs1 ++ x :: cs2.
Proof.
  rewrite elem_of_app, elem_of_cons. tauto.
Qed.

Lemma map_call_served_mono (seen seen' : list event) (ev : event) :
  (forall x, x ∈ seen -> x ∈ seen') ->
  map_call_served seen ev -> map_call_served seen' ev.
Proof.
  intros Hsub. destruct ev; simpl; try tauto.
  - intros [H1 H2]. split; [apply Hsub; exact H1 | exact H2].
  - apply Hsub.
Qed.

Lemma calls_served_app (tr evs : list event) :
  forall seen,
  calls_served seen (tr ++ evs) <->
  calls_served seen tr /\ calls_served (seen ++ tr) evs.
Proof.
  induction tr as [|ev tr IH]; intros seen; simpl.
  - rewrite app_nil_r. tauto.
  - rewrite IH, <- app_assoc. simpl. tauto.
Qed.

Lemma calls_served_ok (map_fd : Z) (evs : list event) :
  forall seen,
  BpfObjGet map_fd ∈ seen ->
  Forall (map_call_ok map_fd) evs ->
  calls_served seen evs.
Proof.
  induction evs as [|ev evs IH]; intros seen Hin Hok; simpl; [exact I |].
  inversion Hok as [| ? ? Hev Hevs]; subst. split.
  - destruct ev; simpl in *; try exact I.
    + destruct Hev as [-> ->]. split; [exact Hin | reflexivity].
    + subst. exact Hin.
  - apply IH; [| exact Hevs]. apply elem_of_app. left. exact Hin.
Qed.

Lemma kernel_calls_app (tr1 tr2 : list event) :
  kernel_calls (tr1 ++ tr2) = kernel_calls tr1 ++ kernel_calls tr2.
Proof. unfold kernel_calls. apply List.filter_app. Qed.

Lemma calls_served_no_kernel (evs : list event) :
  forall seen, kernel_calls evs = [] -> calls_served seen evs.
Proof.
  induction evs as [|ev evs IH]; intros seen Hk; simpl; [exact I |].
  unfold kernel_calls in *. simpl in Hk.
  destruct ev; simpl in Hk; try discriminate Hk;
    (split; [exact I | apply IH; exact Hk]).
Qed.

Lemma calls_served_zero (tr : list event) :
  forall (seen : list event) (m : gmap rm_flow Z),
  (forall f v, m !! f = Some v -> v = 0) ->
  calls_served seen tr ->
  forall f v, foldl apply_event m tr !! f = Some v -> v = 0.
Proof.
  induction tr as [|ev tr IH]; intros seen m Hm Hok f v; simpl; [apply Hm |].
  destruct Hok as [Hev Htr].
  apply (IH (seen ++ [ev])); [| exact Htr].
  intros f' v'. destruct ev; simpl in *; try apply Hm.
  - destruct Hev as [_ ->]. rewrite lookup_insert.
    case_decide; [congruence | apply Hm].
  - rewrite lookup_delete. case_decide; [discriminate | apply Hm].
Qed.

(** The steps under the lock, those of [close] and those of the
    scheduling thread leave the flags, the skeleton and the descriptor
    of the map alone. *)
Lemma step_other_frame (c : config) (y : sys) (l : label) (y1 : sys) :
  step c y l y1 ->
  (forall e, l <> LAccept e) ->
  setup (globals y1) = setup (globals y) /\
  flow_to_rwnd_fd (globals y1) = flow_to_rwnd_fd (globals y) /\
  skipped_first (globals y1) = skipped_first (globals y) /\
  skel (globals y1) = skel (globals y).
Proof.
  intros Hstep Hl. inversion Hstep; subst; simpl;
    try (exfalso; eapply Hl; reflexivity); try tauto.
  - unfold accept_locked.
    destruct (N.of_nat (length (active_fds_queue s)) <? max_active_flows c)%N;
      simpl; tauto.
  - unfold close, visit.
    destruct (real_close e) as [ret|]; simpl; [| tauto].
    destruct (ret =? -1); simpl; [tauto |].
    destruct (fd_to_flow s !! sockfd); simpl; tauto.
  - match goal with H : select_body _ _ = _ |- _ =>
      destruct (select_body_cases _ _ _ _ H)
        as [[-> ->] | (next_fd & rest & _ & _ & -> & ->)] end;
      simpl; tauto.
  - rewrite rotate_spec. simpl. tauto.
Qed.

Lemma accept_register_frame (c : config) (e : accept_env) (new_fd : Z)
    (s s1 : state) (r : Z + Z * rm_flow) :
  accept_register c e new_fd s = (s1, r) ->
  setup s1 = setup s /\
  flow_to_rwnd_fd s1 = flow_to_rwnd_fd s /\
  skipped_first s1 = skipped_first s /\
  trace s1 = trace s /\
  active_fds_queue s1 = active_fds_queue s /\
  paused_fds_queue s1 = paused_fds_queue s /\
  match r with
  | inl _ => s1 = s
  | inr (fd, flow) =>
      fd = new_fd /\ flow = four_tuple e /\
      fd_to_flow s1 = registry_insert new_fd flow (fd_to_flow s)
  end.
Proof.
  unfold accept_register.
  repeat match goal with
  | |- context [if ?b then _ else _] =>
      destruct b; [intros [= <- <-]; repeat split |]
  end.
  intros [= <- <-]. simpl. repeat split.
Qed.

Lemma trace_grows (tr : list event) (ev x : event) :
  x ∈ tr -> x ∈ tr ++ [ev].
Proof. intros H. apply elem_of_app. left. exact H. Qed.

Lemma served_invariant_step (c : config) (y : csys) (l : clabel)
    (y1 : csys) :
  served_invariant y -> cstep c y l y1 -> served_invariant y1.
Proof.
  intros (K1 & K2 & K3 & K4) Hstep. unfold served_invariant.
  inversion Hstep; subst; simpl in *;
    try match goal with
    | |- context [?cs1 ++ (?e, ?fd, _) :: ?cs2] =>
        match type of K4 with
        | context [cs1 ++ ?x :: cs2] =>
            pose proof (caller_present cs1 cs2 x) as Hx;
            pose proof (caller_replaced cs1 cs2 x) as Hrep
        end
    | |- context [?cs1 ++ ?cs2] =>
        match type of K4 with
        | context [cs1 ++ ?x :: cs2] =>
            pose proof (caller_present cs1 cs2 x) as Hx;
            pose proof (caller_removed cs1 cs2 x) as Hrem
        end
    end.
  - (* returns in the prologue *)
    tauto.
  - (* reads setup *)
    split; [| split; [exact K2 | split]].
    + intros Hs. destruct (K1 Hs) as [Hu Hcs]. split; [exact Hu |].
      intros p Hp. apply elem_of_app in Hp as [Hp | Hp]; [auto |].
      apply list_elem_of_singleton in Hp. subst p. simpl.
      rewrite Hs. reflexivity.
    + intros [Hs | (p & Hp & Hpc)]; [auto |].
      apply elem_of_app in Hp as [Hp | Hp]; [eauto |].
      apply list_elem_of_singleton in Hp. subst p. simpl in Hpc.
      destruct (setup (globals y0)); discriminate Hpc.
    + intros p r Hp Hpc.
      apply elem_of_app in Hp as [Hp | Hp]; [eauto |].
      apply list_elem_of_singleton in Hp. subst p. simpl in Hpc.
      destruct (setup (globals y0)); discriminate Hpc.
  - (* loads the skeleton *)
    split; [| split; [| split]].
    + intros Hs. destruct (K1 Hs) as [Hu Hcs]. split.
      * unfold unmanaged in *. simpl. rewrite kernel_calls_snoc. simpl.
        rewrite app_nil_r. exact Hu.
      * intros p Hp. apply Hrep in Hp as [-> | Hp]; [reflexivity | auto].
    + apply calls_served_app. simpl. tauto.
    + intros Hpre. apply trace_grows, K3.
      destruct Hpre as [Hs | (p & Hp & Hpc)]; [auto |].
      apply Hrep in Hp as [-> | Hp]; [discriminate Hpc | eauto].
    + intros p r Hp Hpc. apply trace_grows.
      apply Hrep in Hp as [-> | Hp]; [discriminate Hpc | eauto].
  - (* finds the skeleton NULL *)
    split; [| split; [exact K2 | split]].
    + intros Hs. destruct (K1 Hs) as [Hu Hcs]. split; [exact Hu | auto].
    + intros Hpre. apply K3.
      destruct Hpre as [Hs | (p & Hp & Hpc)]; [auto | eauto].
    + intros p r Hp Hpc. eauto.
  - (* finds the skeleton loaded *)
    split; [| split; [exact K2 | split]].
    + intros Hs. destruct (K1 Hs) as [Hu Hcs]. split; [exact Hu |].
      intros p Hp. apply Hrep in Hp as [-> | Hp]; [reflexivity | auto].
    + intros Hpre. apply K3.
      destruct Hpre as [Hs | (p & Hp & Hpc)]; [auto |].
      apply Hrep in Hp as [-> | Hp]; [discriminate Hpc | eauto].
    + intros p r Hp Hpc.
      apply Hrep in Hp as [-> | Hp]; [discriminate Hpc | eauto].
  - (* bpf_obj_get *)
    split; [| split; [| split]].
    + intros Hs. destruct (K1 Hs) as [Hu Hcs]. split.
      * unfold unmanaged in *. simpl. rewrite kernel_calls_snoc. simpl.
        rewrite app_nil_r. exact Hu.
      * intros p Hp. apply Hrep in Hp as [-> | Hp]; [reflexivity | auto].
    + apply calls_served_app. simpl. tauto.
    + intros Hpre. apply trace_grows, K3.
      destruct Hpre as [Hs | (p & Hp & Hpc)]; [auto |].
      apply Hrep in Hp as [-> | Hp]; [discriminate Hpc | eauto].
    + intros p r Hp Hpc.
      apply Hrep in Hp as [-> | Hp].
      * injection Hpc as <-. apply elem_of_app. right. left.
      * apply trace_grows. eauto.
  - (* stores the descriptor *)
    split; [| split; [exact K2 | split]].
    + intros Hs. destruct (K1 Hs) as [Hu Hcs]. split; [exact Hu |].
      intros p Hp. apply Hrep in Hp as [-> | Hp]; [reflexivity | auto].
    + intros _. exact (K4 _ _ Hx eq_refl).
    + intros p r Hp Hpc.
      apply Hrep in Hp as [-> | Hp]; [discriminate Hpc | eauto].
  - (* sets the flag *)
    split; [discriminate | split; [exact K2 | split]].
    + intros _. apply K3. right. eexists. split; [exact Hx | reflexivity].
    + intros p r Hp Hpc.
      apply Hrep in Hp as [-> | Hp]; [discriminate Hpc | eauto].
  - (* reads the size of the registry *)
    split; [| split; [exact K2 | split]].
    + intros Hs. destruct (K1 Hs) as [_ Hcs].
      discriminate (Hcs _ Hx).
    + intros Hpre. apply K3.
      destruct Hpre as [Hs | (p & Hp & Hpc)]; [auto |].
      apply Hrep in Hp as [-> | Hp]; [| eauto].
      simpl in Hpc. destruct (size (fd_to_flow (globals y0)) =? 0)%nat;
        discriminate Hpc.
    + intros p r Hp Hpc.
      apply Hrep in Hp as [-> | Hp]; [| eauto].
      simpl in Hpc. destruct (size (fd_to_flow (globals y0)) =? 0)%nat;
        discriminate Hpc.
  - (* reads skipped_first *)
    split; [| split; [exact K2 | split]].
    + intros Hs. destruct (K1 Hs) as [_ Hcs].
      discriminate (Hcs _ Hx).
    + intros Hpre. apply K3.
      destruct Hpre as [Hs | (p & Hp & Hpc)]; [auto |].
      apply Hrep in Hp as [-> | Hp]; [| eauto].
      simpl in Hpc. destruct (skipped_first (globals y0));
        discriminate Hpc.
    + intros p r Hp Hpc.
      apply Hrep in Hp as [-> | Hp]; [| eauto].
      simpl in Hpc. destruct (skipped_first (globals y0));
        discriminate Hpc.
  - (* sets skipped_first *)
    split; [| split; [exact K2 | split]].
    + intros Hs. destruct (K1 Hs) as [_ Hcs].
      discriminate (Hcs _ Hx).
    + intros Hpre. apply K3.
      destruct Hpre as [Hs | (p & Hp & Hpc)]; [auto | eauto].
    + intros p r Hp Hpc. eauto.
  - (* returns from lines 216-252 *)
    match goal with H : accept_register _ _ _ _ = _ |- _ =>
      destruct (accept_register_frame _ _ _ _ _ _ H)
        as (_ & _ & _ & _ & _ & _ & ->) end.
    split; [| split; [exact K2 | split]].
    + intros Hs. destruct (K1 Hs) as [_ Hcs].
      discriminate (Hcs _ Hx).
    + intros Hpre. apply K3.
      destruct Hpre as [Hs | (p & Hp & Hpc)]; [auto | eauto].
    + intros p r Hp Hpc. eauto.
  - (* inserts the flow *)
    match goal with H : accept_register _ _ _ _ = _ |- _ =>
      destruct (accept_register_frame _ _ _ _ _ _ H)
        as (Hs1 & Hfd1 & _ & Htr1 & _ & _ & _) end.
    rewrite Hs1, Hfd1, Htr1.
    split; [| split; [exact K2 | split]].
    + intros Hs. destruct (K1 Hs) as [_ Hcs].
      discriminate (Hcs _ Hx).
    + intros Hpre. apply K3.
      destruct Hpre as [Hs | (p & Hp & Hpc)]; [auto | eauto].
    + intros p r Hp Hpc. eauto.
  - (* the lock holders, close and the scheduling thread *)
    match goal with
    | H : step _ _ _ _, H' : forall e, _ <> LAccept e |- _ =>
        destruct (step_other_frame _ _ _ _ H H') as (Hs1 & Hfd1 & _);
        destruct (step_trace _ _ _ _ H) as (evs & Htr & Hevs & _);
        pose proof (not_setup_unmanaged_step _ _ _ _
                      (fun Hs => proj1 (K1 Hs)) H) as Hun1
    end.
    rewrite Hs1, Hfd1, Htr in *.
    split; [| split; [| split]].
    + intros Hs. split; [exact (Hun1 Hs) | exact (proj2 (K1 Hs))].
    + apply calls_served_app. split; [exact K2 |]. simpl.
      destruct (setup (globals y0)) eqn:Hs.
      * apply (calls_served_ok (flow_to_rwnd_fd (globals y0)));
          [apply K3; left; reflexivity | exact Hevs].
      * apply calls_served_no_kernel.
        destruct (Hun1 eq_refl) as (_ & _ & _ & _ & _ & Hk).
        rewrite Htr, kernel_calls_app in Hk.
        apply app_eq_nil in Hk. tauto.
    + intros Hpre. apply elem_of_app. left. exact (K3 Hpre).
    + intros p r Hp Hpc. apply elem_of_app. left. eauto.
Qed.

(** ** Whole calls as interleavings of their accesses *)

Lemma crun_one (c : config) (y : csys) (l : clabel) (y1 : csys) :
  cstep c y l y1 -> crun c y [l] y1.
Proof. intros H. eapply crun_cons; [exact H | apply crun_nil]. Qed.

(** A caller that is alone from line 210 to line 260. *)
Lemma accept_tail_crun (c : config) (e : accept_env) (new_fd : Z) (y : sys)
    (cs : list (accept_env * Z * accept_pc)) (s1 : state)
    (r : Z + Z * rm_flow) :
  (if (size (fd_to_flow (globals y)) =? 0)%nat
      && negb (skipped_first (globals y))
   then (set_skipped_first true (globals y), inl new_fd)
   else accept_register c e new_fd (globals y)) = (s1, r) ->
  exists ls,
    crun c {| shared := y; callers := cs ++ [(e, new_fd, AtSize)] |} ls
      {| shared :=
           {| globals := s1; sched := sched y;
              waiting := waiting y ++ match r with
                                      | inl _ => []
                                      | inr p => [p]
                                      end |};
         callers := cs |}.
Proof.
  intros Hr.
  assert (Hreg : accept_register c e new_fd (globals y) = (s1, r) ->
            forall pc, pc = AtRegister ->
            exists ls,
              crun c {| shared := y; callers := cs ++ [(e, new_fd, pc)] |} ls
                {| shared :=
                     {| globals := s1; sched := sched y;
                        waiting := waiting y ++ match r with
                                                | inl _ => []
                                                | inr p => [p]
                                                end |};
                   callers := cs |}).
  { intros Ha pc ->. exists [CAdvance new_fd AtRegister]. apply crun_one.
    rewrite <- (app_nil_r cs) at 2.
    destruct r as [ret | [fd flow]].
    - rewrite app_nil_r.
      exact (cstep_register_returns c e new_fd y cs [] s1 ret Ha).
    - exact (cstep_register c e new_fd y cs [] s1 fd flow Ha). }
  pose proof (cstep_size c e new_fd y cs []) as Hsize.
  destruct (size (fd_to_flow (globals y)) =? 0)%nat; simpl in Hr.
  - pose proof (cstep_skipped c e new_fd y cs []) as Hsk.
    destruct (skipped_first (globals y)) eqn:Hf; simpl in Hr, Hsk.
    + destruct (Hreg Hr AtRegister eq_refl) as [ls Hls].
      exists (CAdvance new_fd AtSize :: CAdvance new_fd AtSkipped :: ls).
      eapply crun_cons; [exact Hsize |].
      eapply crun_cons; [exact Hsk | exact Hls].
    + injection Hr as <- <-.
      exists [CAdvance new_fd AtSize; CAdvance new_fd AtSkipped;
              CAdvance new_fd AtSkip].
      eapply crun_cons; [exact Hsize |].
      eapply crun_cons; [exact Hsk |].
      apply crun_one. rewrite app_nil_r.
      rewrite <- (app_nil_r cs) at 2.
      exact (cstep_skip c e new_fd y cs []).
  - destruct (Hreg Hr AtRegister eq_refl) as [ls Hls].
    exists (CAdvance new_fd AtSize :: ls).
    eapply crun_cons; [exact Hsize | exact Hls].
Qed.

(** Lines 159-260 run by one caller with no other step in between are
    an interleaving of the accesses. *)
Lemma accept_until_lock_crun (c : config) (e : accept_env) (y : sys)
    (cs : list (accept_env * Z * accept_pc)) (s1 : state)
    (r : Z + Z * rm_flow) :
  accept_until_lock c e (globals y) = (s1, r) ->
  exists ls,
    crun c {| shared := y; callers := cs |} ls
      {| shared :=
           {| globals := s1; sched := sched y;
              waiting := waiting y ++ match r with
                                      | inl _ => []
                                      | inr p => [p]
                                      end |};
         callers := cs |}.
Proof.
  intros Ha.
  destruct (accept_prologue c e) as [ret | new_fd] eqn:Hpro.
  - assert (Hsame : (s1, r) = (globals y, inl ret)).
    { rewrite <- Ha. unfold accept_until_lock, accept_prologue in *.
      destruct (config_invalid c); [congruence |].
      destruct (real_accept e) as [fd|]; [| congruence].
      destruct (fd =? -1); [congruence |].
      destruct (match sa_family e with
                | Some family => negb (family =? AF_INET)
                | None => false
                end); [congruence | discriminate Hpro]. }
    injection Hsame as -> ->. exists [CEnter e]. apply crun_one.
    rewrite app_nil_r. destruct y as [g pc w]. simpl.
    exact (cstep_enter_returns c e _ cs ret Hpro).
  - assert (Hgo : accept_until_lock c e (globals y) =
              match bpf_setup e (globals y) with
              | (false, s2) => (s2, inl new_fd)
              | (true, s2) =>
                  if (size (fd_to_flow s2) =? 0)%nat
                     && negb (skipped_first s2)
                  then (set_skipped_first true s2, inl new_fd)
                  else accept_register c e new_fd s2
              end).
    { unfold accept_until_lock, accept_prologue, accept_register in *.
      destruct (config_invalid c); [discriminate Hpro |].
      destruct (real_accept e) as [fd|]; [| discriminate Hpro].
      destruct (fd =? -1); [discriminate Hpro |].
      destruct (match sa_family e with
                | Some family => negb (family =? AF_INET)
                | None => false
                end); [discriminate Hpro |].
      injection Hpro as ->. reflexivity. }
    rewrite Hgo in Ha. clear Hgo.
    pose proof (cstep_enter c e y cs new_fd Hpro) as Henter.
    destruct (setup (globals y)) eqn:Hs.
    + rewrite (bpf_setup_done e (globals y) Hs) in Ha.
      destruct (accept_tail_crun c e new_fd y cs s1 r Ha) as [ls Hls].
      exists (CEnter e :: ls). eapply crun_cons; [exact Henter | exact Hls].
    + pose proof (cstep_load c e new_fd y cs []) as Hload.
      destruct (ratemon_maps_bpf__open_and_load e) eqn:Hl.
      * rewrite (bpf_setup_loaded e (globals y) Hs Hl) in Ha.
        set (g1 := emit (BpfOpenAndLoad true) (set_skel true (globals y)))
          in *.
        set (g2 := emit (BpfObjGet (bpf_obj_get e)) g1) in *.
        set (g3 := set_flow_to_rwnd_fd (bpf_obj_get e) g2) in *.
        set (g4 := set_setup true g3) in *.
        destruct (accept_tail_crun c e new_fd (with_globals g4 y) cs s1 r Ha)
          as [ls Hls].
        exists (CEnter e :: CAdvance new_fd AtLoad :: CAdvance new_fd AtCheck
                  :: CAdvance new_fd AtObjGet
                  :: CAdvance new_fd (AtStore (bpf_obj_get e))
                  :: CAdvance new_fd AtFlag :: ls).
        eapply crun_cons; [exact Henter |].
        eapply crun_cons; [exact Hload |].
        eapply crun_cons;
          [exact (cstep_check c e new_fd (with_globals g1 y) cs []
                    eq_refl) |].
        eapply crun_cons;
          [exact (cstep_obj_get c e new_fd (with_globals g1 y) cs []) |].
        eapply crun_cons;
          [exact (cstep_store c e new_fd (bpf_obj_get e)
                    (with_globals g2 y) cs []) |].
        eapply crun_cons;
          [exact (cstep_flag c e new_fd (with_globals g3 y) cs []) |].
        exact Hls.
      * rewrite (bpf_setup_failed e (globals y) Hs Hl) in Ha.
        injection Ha as <- <-.
        exists [CEnter e; CAdvance new_fd AtLoad; CAdvance new_fd AtCheck].
        eapply crun_cons; [exact Henter |].
        eapply crun_cons; [exact Hload |].
        apply crun_one. rewrite app_nil_r.
        rewrite <- (app_nil_r cs) at 2.
        exact (cstep_check_null c e new_fd
                 (with_globals
                    (emit (BpfOpenAndLoad false)
                       (set_skel false (globals y))) y) cs [] eq_refl).
Qed.

Lemma step_crun (c : config) (y : sys) (l : label) (y1 : sys)
    (cs : list (accept_env * Z * accept_pc)) :
  step c y l y1 ->
  exists ls,
    crun c {| shared := y; callers := cs |} ls
      {| shared := y1; callers := cs |}.
Proof.
  intros Hstep.
  assert (Hother : (forall e, l <> LAccept e) ->
            exists ls,
              crun c {| shared := y; callers := cs |} ls
                {| shared := y1; callers := cs |}).
  { intros Hl. exists [COther l]. apply crun_one.
    apply cstep_other; assumption. }
  inversion Hstep; subst; try (apply Hother; intros ? [=]; fail).
  - match goal with Ha : accept_until_lock _ _ _ = _ |- _ =>
      destruct (accept_until_lock_crun c e
                  {| globals := s; sched := pc; waiting := w |} cs _ _ Ha)
        as [ls Hls] end.
    simpl in Hls. rewrite app_nil_r in Hls. exists ls. exact Hls.
  - match goal with Ha : accept_until_lock _ _ _ = _ |- _ =>
      destruct (accept_until_lock_crun c e
                  {| globals := s; sched := pc; waiting := w |} cs _ _ Ha)
        as [ls Hls] end.
    exists ls. exact Hls.
Qed.

Lemma run_crun (c : config) (y : sys) (ls : list label) (y1 : sys)
    (cs : list (accept_env * Z * accept_pc)) :
  run c y ls y1 ->
  exists ls1,
    crun c {| shared := y; callers := cs |} ls1
      {| shared := y1; callers := cs |}.
Proof.
  intros Hrun. induction Hrun as [| y l y1 ls y2 Hs _ [ls2 IH]].
  - exists []. apply crun_nil.
  - destruct (step_crun c y l y1 cs Hs) as [ls1 H1].
    exists (ls1 ++ ls2). exact (crun_app _ _ _ _ _ _ H1 IH).
Qed.

(** Every state reached by interleaving whole calls is reached by
    interleaving their accesses. *)
Lemma reachable_creachable (c : config) (y : sys) :
  reachable c y -> creachable c {| shared := y; callers := [] |}.
Proof. intros [ls Hrun]. exact (run_crun c _ ls y [] Hrun). Qed.

(** ** The kernel map and the set-up block under interleaving *)

Lemma served_invariant_reachable (c : config) (y : csys) :
  creachable c y -> served_invariant y.
Proof.
  intros [ls Hrun].
  apply (crun_invariant c served_invariant (served_invariant_step c)
           _ _ _ Hrun).
  unfold served_invariant. simpl.
  split; [intros _; split; [repeat split | intros p Hp; inversion Hp] |].
  split; [exact I |].
  split.
  - intros [Hs | (p & Hp & _)]; [discriminate Hs | inversion Hp].
  - intros p r Hp. inversion Hp.
Qed.

Lemma about_to_load_app (cs1 cs2 : list (accept_env * Z * accept_pc)) :
  about_to_load (cs1 ++ cs2) = (about_to_load cs1 + about_to_load cs2)%nat.
Proof. unfold about_to_load. rewrite List.filter_app, length_app. done. Qed.

Lemma about_to_load_cons (p : accept_env * Z * accept_pc)
    (cs : list (accept_env * Z * accept_pc)) :
  about_to_load (p :: cs)
    = ((if is_at_load (snd p) then 1 else 0) + about_to_load cs)%nat.
Proof. unfold about_to_load. simpl. destruct (is_at_load (snd p)); done. Qed.

Lemma about_to_load_nil : about_to_load [] = 0%nat.
Proof. reflexivity. Qed.

Lemma setup_block_empty_no_load (cs : list (accept_env * Z * accept_pc)) :
  setup_block_empty cs -> about_to_load cs = 0%nat.
Proof.
  induction cs as [|p cs IH]; intros He; [reflexivity |].
  rewrite about_to_load_cons, IH.
  - pose proof (He p ltac:(left)) as Hp.
    destruct p as [[e fd] pc]. destruct pc; simpl in *; congruence.
  - intros q Hq. apply He. right. exact Hq.
Qed.

(** What one step does once the flag is set. *)
Lemma setup_done_step (c : config) (y : csys) (l : clabel) (y1 : csys) :
  cstep c y l y1 ->
  (setup (globals (shared y)) = true ->
     setup (globals (shared y1)) = true /\
     (open_attempts (trace (globals (shared y1)))
        + about_to_load (callers y1)
      = open_attempts (trace (globals (shared y)))
        + about_to_load (callers y))%nat /\
     (setup_block_empty (callers y) ->
        setup_block_empty (callers y1) /\
        flow_to_rwnd_fd (globals (shared y1))
          = flow_to_rwnd_fd (globals (shared y)))) /\
  (skipped_first (globals (shared y)) = true ->
     skipped_first (globals (shared y1)) = true).
Proof.
  intros Hstep.
  inversion Hstep; subst; simpl;
    try match goal with
    | _ : cstep _ {| shared := _; callers := ?cs1 ++ ?x :: ?cs2 |} _ _
      |- _ =>
        pose proof (caller_present cs1 cs2 x) as Hx;
        pose proof (caller_replaced cs1 cs2 x) as Hrep;
        pose proof (caller_removed cs1 cs2 x) as Hrem
    end;
    rewrite ?about_to_load_app, ?about_to_load_cons, ?about_to_load_nil,
      ?open_attempts_snoc;
    simpl.
  - tauto.
  - split; [| tauto]. intros Hs. rewrite Hs. simpl.
    split; [reflexivity | split; [lia |]].
    intros He. split; [| reflexivity].
    intros p Hp. apply elem_of_app in Hp as [Hp | Hp]; [auto |].
    apply list_elem_of_singleton in Hp. subst p. reflexivity.
  - split; [| tauto]. intros Hs.
    split; [exact Hs | split; [lia |]].
    intros He. discriminate (He _ Hx).
  - split; [| tauto]. intros Hs.
    split; [exact Hs | split; [lia |]].
    intros He. discriminate (He _ Hx).
  - split; [| tauto]. intros Hs.
    split; [exact Hs | split; [lia |]].
    intros He. discriminate (He _ Hx).
  - split; [| tauto]. intros Hs.
    split; [exact Hs | split; [lia |]].
    intros He. discriminate (He _ Hx).
  - split; [| tauto]. intros Hs.
    split; [exact Hs | split; [lia |]].
    intros He. discriminate (He _ Hx).
  - split; [| tauto]. intros Hs.
    split; [reflexivity | split; [lia |]].
    intros He. discriminate (He _ Hx).
  - split; [| tauto]. intros Hs.
    split; [exact Hs | split].
    + destruct (size (fd_to_flow (globals y0)) =? 0)%nat; simpl; lia.
    + intros He. split; [| reflexivity].
      intros p Hp. apply Hrep in Hp as [-> | Hp]; [| auto].
      simpl. destruct (size (fd_to_flow (globals y0)) =? 0)%nat; reflexivity.
  - split; [| tauto]. intros Hs.
    split; [exact Hs | split].
    + destruct (skipped_first (globals y0)); simpl; lia.
    + intros He. split; [| reflexivity].
      intros p Hp. apply Hrep in Hp as [-> | Hp]; [| auto].
      simpl. destruct (skipped_first (globals y0)); reflexivity.
  - split; [| tauto]. intros Hs.
    split; [exact Hs | split; [lia |]].
    intros He. split; [| reflexivity]. intros p Hp. auto.
  - match goal with Hreg : accept_register _ _ _ _ = _ |- _ =>
      destruct (accept_register_frame _ _ _ _ _ _ Hreg)
        as (_ & _ & _ & _ & _ & _ & ->) end.
    split; [| tauto]. intros Hs.
    split; [exact Hs | split; [lia |]].
    intros He. split; [| reflexivity]. intros p Hp. auto.
  - match goal with Hreg : accept_register _ _ _ _ = _ |- _ =>
      destruct (accept_register_frame _ _ _ _ _ _ Hreg)
        as (-> & -> & -> & -> & _) end.
    split; [| tauto]. intros Hs.
    split; [exact Hs | split; [lia |]].
    intros He. split; [| reflexivity]. intros p Hp. auto.
  - match goal with
    | Hst : step _ _ _ _, Hl : forall e, _ <> LAccept e |- _ =>
        destruct (step_other_frame _ _ _ _ Hst Hl) as (-> & -> & -> & _);
        destruct (step_trace _ _ _ _ Hst) as (evs & -> & _ & Hdone & _)
    end.
    split; [| tauto]. intros Hs.
    destruct (Hdone Hs) as (_ & _ & Ho).
    rewrite open_attempts_app, Ho.
    split; [exact Hs | split; [lia | tauto]].
Qed.

(** Every call on the kernel map went to a descriptor that bpf_obj_get
    had returned to this process before the call, and every update wrote
    zero, so that the map, as far as this process wrote it, holds only
    zero windows. This holds however the callers of accept interleave in
    the part of accept that holds no lock, where a caller that read the
    set-up flag as unset runs the set-up block even after another has
    finished it and overwrites the descriptor: the calls need not all
    have gone to the descriptor now in use. No map call or
    acknowledgment trigger is made before the flag is set, and from
    then on the descriptor in use is one that bpf_obj_get returned,
    whatever its value. *)
Theorem kernel_map_calls_served (c : config) (y : csys) :
  creachable c y ->
  let g := globals (shared y) in
  calls_served [] (trace g) /\
  (forall f v, flow_to_rwnd (trace g) !! f = Some v -> v = 0) /\
  (kernel_calls (trace g) <> [] ->
     setup g = true /\ BpfObjGet (flow_to_rwnd_fd g) ∈ trace g).
Proof.
  intros Hr g.
  destruct (served_invariant_reachable c y Hr) as (K1 & K2 & K3 & _).
  fold g in K1, K2, K3.
  split; [exact K2 | split].
  - intros f v. unfold flow_to_rwnd.
    apply (calls_served_zero (trace g) []); [| exact K2].
    intros f' v'. rewrite lookup_empty. discriminate.
  - intros Hk. destruct (setup g) eqn:Hs.
    + split; [reflexivity |]. apply K3. left. reflexivity.
    + exfalso. apply Hk. apply (K1 eq_refl).
Qed.

(** The set-up block is run again only by callers that had read the
    flag as unset before it was set. From a state in which the flag is
    set, it stays set, and the number of loads of the skeleton made so
    far plus the number of callers that are about to load it never
    changes: each of these callers loads it once more, and nobody else
    does. If no caller is inside the set-up block, none enters it, and
    the skeleton is not loaded again and the descriptor of the map does
    not change. The exemption flag, once set, stays set. *)
Theorem setup_repeated_only_from_inside (c : config) (y : csys)
    (ls : list clabel) (y1 : csys) :
  crun c y ls y1 ->
  (setup (globals (shared y)) = true ->
     setup (globals (shared y1)) = true /\
     (open_attempts (trace (globals (shared y1)))
        + about_to_load (callers y1)
      = open_attempts (trace (globals (shared y)))
        + about_to_load (callers y))%nat /\
     (setup_block_empty (callers y) ->
        setup_block_empty (callers y1) /\
        flow_to_rwnd_fd (globals (shared y1))
          = flow_to_rwnd_fd (globals (shared y)) /\
        open_attempts (trace (globals (shared y1)))
          = open_attempts (trace (globals (shared y))))) /\
  (skipped_first (globals (shared y)) = true ->
     skipped_first (globals (shared y1)) = true).
Proof.
  intros Hrun. induction Hrun as [| y l y1 ls y2 Hs _ [IH1 IH2]].
  - split; [| trivial]. intros Hset.
    split; [exact Hset | split; [reflexivity | tauto]].
  - destruct (setup_done_step c y l y1 Hs) as [Hdone Hsk].
    split; [| intros Hset; apply IH2, Hsk, Hset].
    intros Hset. destruct (Hdone Hset) as (Hs1 & Hsum & Hin).
    destruct (IH1 Hs1) as (Hs2 & Hsum2 & Hin2).
    split; [exact Hs2 | split; [lia |]].
    intros He. destruct (Hin He) as (He1 & Hfd1).
    destruct (Hin2 He1) as (He2 & Hfd2 & Ho2).
    split; [exact He2 | split; [congruence |]].
    rewrite (setup_block_empty_no_load _ He) in Hsum.
    rewrite (setup_block_empty_no_load _ He1) in Hsum. lia.
Qed.

(** One step of a worked execution: the state is evaluated, and [lem]
    is the rule of the step. *)
Tactic Notation "crun_step" open_constr(lem) :=
  match goal with
  | |- crun _ ?y _ _ =>
      let y' := eval vm_compute in y in
      change y with y'
  end;
  eapply crun_cons; [eapply lem; vm_compute; try reflexivity |].

Tactic Notation "crun_other" open_constr(lem) :=
  match goal with
  | |- crun _ ?y _ _ =>
      let y' := eval vm_compute in y in
      change y with y'
  end;
  eapply crun_cons;
    [apply cstep_other; [eapply lem | intros ? [=]] |].

Lemma race_mid_reachable :
  crun (example_config 1) initial_csys race_first race_mid.
Proof.
  unfold race_first.
  crun_step cstep_enter.
  crun_step cstep_enter.
  crun_step (cstep_load (example_config 1) (accept_ok 3 1) 3 _ [] _).
  crun_step (cstep_check (example_config 1) (accept_ok 3 1) 3 _ [] _).
  crun_step (cstep_obj_get (example_config 1) (accept_ok 3 1) 3 _ [] _).
  crun_step (cstep_store (example_config 1) (accept_ok 3 1) 3 9 _ [] _).
  crun_step (cstep_flag (example_config 1) (accept_ok 3 1) 3 _ [] _).
  crun_step (cstep_size (example_config 1) (accept_ok 3 1) 3 _ [] _).
  crun_step (cstep_skipped (example_config 1) (accept_ok 3 1) 3 _ [] _).
  crun_step (cstep_skip (example_config 1) (accept_ok 3 1) 3 _ [] _).
  apply crun_nil.
Qed.

Lemma race_end_reachable :
  crun (example_config 1) race_mid race_second race_end.
Proof.
  unfold race_second.
  crun_step cstep_enter.
  crun_step (cstep_size (example_config 1) (accept_ok 5 3) 5 _ [_] _).
  crun_step (cstep_skipped (example_config 1) (accept_ok 5 3) 5 _ [_] _).
  crun_step (cstep_register (example_config 1) (accept_ok 5 3) 5 _ [_] _).
  crun_other (step_accept_locked _ _ [] _).
  crun_step cstep_enter.
  crun_step (cstep_size (example_config 1) (accept_ok 6 4) 6 _ [_] _).
  crun_step (cstep_register (example_config 1) (accept_ok 6 4) 6 _ [_] _).
  crun_other (step_accept_locked _ _ [] _).
  crun_step (cstep_load (example_config 1) (accept_repinned 4 2 10) 4 _ [] _).
  crun_step (cstep_check (example_config 1) (accept_repinned 4 2 10) 4 _ [] _).
  crun_step
    (cstep_obj_get (example_config 1) (accept_repinned 4 2 10) 4 _ [] _).
  crun_step
    (cstep_store (example_config 1) (accept_repinned 4 2 10) 4 10 _ [] _).
  crun_step (cstep_flag (example_config 1) (accept_repinned 4 2 10) 4 _ [] _).
  crun_step (cstep_size (example_config 1) (accept_repinned 4 2 10) 4 _ [] _).
  crun_step
    (cstep_register (example_config 1) (accept_repinned 4 2 10) 4 _ [] _).
  crun_other (step_accept_locked _ _ [] _).
  apply crun_nil.
Qed.

(** Two callers raced through the set-up block: the pause of handle 6
    went to descriptor 9, which bpf_obj_get had returned before, while
    the descriptor in use at the end is 10. *)
Lemma kernel_map_calls_served_witness :
  let g := globals (shared race_end) in
  calls_served [] (trace g) /\
  flow_to_rwnd_fd g = 10 /\
  kernel_calls (trace g)
    = [BpfMapUpdateElem 9 (four_tuple (accept_ok 6 4)) 0;
       BpfMapUpdateElem 10 (four_tuple (accept_repinned 4 2 10)) 0].
Proof.
  split; [| split; reflexivity].
  apply (kernel_map_calls_served (example_config 1) race_end).
  exists (race_first ++ race_second).
  exact (crun_app _ _ _ _ _ _ race_mid_reachable race_end_reachable).
Defined.

(** One caller was about to load the skeleton when the flag was set: it
    loads it once more and changes the descriptor. *)
Lemma setup_repeated_only_from_inside_witness :
  setup (globals (shared race_end)) = true /\
  (open_attempts (trace (globals (shared race_end))) + 0
   = open_attempts (trace (globals (shared race_mid))) + 1)%nat /\
  flow_to_rwnd_fd (globals (shared race_mid)) = 9 /\
  flow_to_rwnd_fd (globals (shared race_end)) = 10.
Proof.
  destruct (setup_repeated_only_from_inside (example_config 1) race_mid
              race_second race_end race_end_reachable) as [H _].
  destruct (H eq_refl) as (Hs & Hsum & _).
  split; [exact Hs | split; [exact Hsum | split; reflexivity]].
Defined.

(** ** A closed handle in the paused queue *)

Lemma schedule_blocked (c : config) (s : state) (i : nat) (fd : Z) :
  paused_fds_queue s !! i = Some fd ->
  fd_to_flow s !! fd = None ->
  (i < N.to_nat (max_active_flows c))%nat ->
  forall fuel, schedule fuel c s = None.
Proof.
  intros Hi Hfd Hlt fuel. unfold schedule.
  destruct (select_loop fuel c [] s) as [r|] eqn:Hsel; [| reflexivity].
  exfalso.
  destruct (select_loop_finishes fuel c [] s r Hsel fd) as [p Hp];
    [| congruence].
  apply elem_of_take. exists i. split; [exact Hi |].
  pose proof (lookup_lt_Some _ _ _ Hi). simpl. lia.
Qed.

(** A handle that was closed while it sat in the paused queue brings the
    scheduling thread to a halt: if the handles before it are
    registered and it sits at position [i], the first [i / capacity]
    epochs complete and the next one never leaves its selection loop,
    whatever number of iterations it is given. *)
Theorem stale_paused_handle_blocks (fuel : nat) (c : config) :
  forall (n : nat) (s : state) (i : nat) (fd : Z),
  config_invalid c = false ->
  setup s = true ->
  (N.to_nat (max_active_flows c) <= fuel)%nat ->
  paused_fds_queue s !! i = Some fd ->
  fd_to_flow s !! fd = None ->
  (forall j fd', (j < i)%nat -> paused_fds_queue s !! j = Some fd' ->
                 is_Some (fd_to_flow s !! fd')) ->
  (n * N.to_nat (max_active_flows c) <= i
     < S n * N.to_nat (max_active_flows c))%nat ->
  exists s1,
    thread_func n fuel c s = Sleeping s1 /\
    forall fuel', thread_func 1 fuel' c s1 = Still_selecting.
Proof.
  intros n s i fd Hc. rewrite thread_func_epochs by exact Hc.
  revert s i.
  induction n as [|n IH]; intros s i Hs Hfuel Hi Hfd Hbefore Hrange.
  - exists s. split; [reflexivity |]. intros fuel'.
    rewrite thread_func_epochs by exact Hc. simpl.
    rewrite epoch_runs;
      [| exact Hs | left; intros Hnil; rewrite Hnil in Hi; discriminate Hi].
    rewrite (schedule_blocked c s i fd Hi Hfd); [reflexivity | lia].
  - set (m := N.to_nat (max_active_flows c)) in *.
    assert (Hlt : (i < length (paused_fds_queue s))%nat)
      by exact (lookup_lt_Some _ _ _ Hi).
    assert (Hk : num_selected c s = m).
    { unfold num_selected. fold m. lia. }
    assert (H1 : schedule fuel c s
                 = Some (with_queues (take m (paused_fds_queue s))
                     (drop m (paused_fds_queue s) ++ active_fds_queue s)
                     (trace s
                        ++ flat_map (activate_events s)
                             (take m (paused_fds_queue s))
                        ++ flat_map (pause_events s) (active_fds_queue s))
                     s)).
    { rewrite <- Hk. apply schedule_spec; [| lia].
      intros fd' Hin. apply elem_of_take in Hin as (j & Hj & Hjk).
      apply (Hbefore j fd'); [lia | exact Hj]. }
    destruct (IH (with_queues (take m (paused_fds_queue s))
                    (drop m (paused_fds_queue s) ++ active_fds_queue s)
                    (trace s
                       ++ flat_map (activate_events s)
                            (take m (paused_fds_queue s))
                       ++ flat_map (pause_events s) (active_fds_queue s))
                    s) (i - m)%nat) as (s2 & H2 & Hblock).
    + exact Hs.
    + exact Hfuel.
    + simpl. rewrite lookup_app_l by (rewrite length_drop; lia).
      rewrite lookup_drop. replace (m + (i - m))%nat with i by lia.
      exact Hi.
    + exact Hfd.
    + simpl. intros j fd' Hj Hlook.
      rewrite lookup_app_l in Hlook by (rewrite length_drop; lia).
      rewrite lookup_drop in Hlook.
      apply (Hbefore (m + j)%nat fd'); [lia | exact Hlook].
    + lia.
    + exists s2. split; [| exact Hblock].
      change (epochs (S n) fuel c s)
        with (match epoch fuel c s with
              | Some s' => epochs n fuel c s'
              | None => Still_selecting
              end).
      rewrite epoch_runs, H1;
        [exact H2 | exact Hs |
         left; intros Hnil; rewrite Hnil in Hi; discriminate Hi].
Qed.

Lemma stale_paused_handle_blocks_witness :
  exists s1,
    thread_func 1 1 (example_config 1) two_paused_state = Sleeping s1 /\
    thread_func 1 3 (example_config 1) s1 = Still_selecting.
Proof.
  destruct (stale_paused_handle_blocks 1 (example_config 1) 1
              two_paused_state 1 6) as (s1 & H1 & H2).
  - reflexivity.
  - reflexivity.
  - vm_compute. lia.
  - reflexivity.
  - vm_compute. reflexivity.
  - intros j fd' Hj Hlook. assert (j = 0)%nat as -> by lia.
    vm_compute in Hlook. injection Hlook as <-.
    vm_compute. eexists. reflexivity.
  - vm_compute. lia.
  - exists s1. split; [exact H1 | apply H2].
Defined.

(** ** The kernel map and the queues *)

Lemma seen_fd_functional (seen : list (Z * rm_flow)) fd f1 f2 :
  NoDup seen.*1 -> (fd, f1) ∈ seen -> (fd, f2) ∈ seen -> f1 = f2.
Proof.
  induction seen as [|[fd0 f0] seen IH]; intros Hnd H1 H2; [inversion H1 |].
  simpl in Hnd. apply NoDup_cons in Hnd as [Hnotin Hnd].
  apply elem_of_cons in H1 as [[= -> ->] | H1];
    apply elem_of_cons in H2 as [[= ->] | H2]; auto.
  - exfalso. apply Hnotin. apply list_elem_of_fmap. exists (fd0, f2). auto.
  - subst. exfalso. apply Hnotin. apply list_elem_of_fmap.
    exists (fd0, f1). auto.
Qed.

Lemma seen_flow_injective (seen : list (Z * rm_flow)) fd1 fd2 f :
  NoDup seen.*2 -> (fd1, f) ∈ seen -> (fd2, f) ∈ seen -> fd1 = fd2.
Proof.
  induction seen as [|[fd0 f0] seen IH]; intros Hnd H1 H2; [inversion H1 |].
  simpl in Hnd. apply NoDup_cons in Hnd as [Hnotin Hnd].
  apply elem_of_cons in H1 as [[= -> ->] | H1];
    apply elem_of_cons in H2 as [[= ->] | H2]; auto.
  - exfalso. apply Hnotin. apply list_elem_of_fmap. exists (fd2, f0). auto.
  - subst. exfalso. apply Hnotin. apply list_elem_of_fmap.
    exists (fd1, f0). auto.
Qed.

Lemma flow_to_rwnd_app (tr evs : list event) :
  flow_to_rwnd (tr ++ evs) = foldl apply_event (flow_to_rwnd tr) evs.
Proof. unfold flow_to_rwnd. apply foldl_app. Qed.

Lemma foldl_no_kernel_calls (evs : list event) :
  forall m : gmap rm_flow Z,
  kernel_calls evs = [] -> foldl apply_event m evs = m.
Proof.
  induction evs as [|ev evs IH]; intros m Hk; [reflexivity |].
  unfold kernel_calls in *. simpl in *.
  destruct ev; simpl in *; try discriminate Hk; apply IH; exact Hk.
Qed.

Lemma accept_until_lock_registrable (c : config) (e : accept_env)
    (s s1 : state) (new_fd : Z) (flow : rm_flow) :
  accept_until_lock c e s = (s1, inr (new_fd, flow)) ->
  registrable c e = Some (new_fd, flow).
Proof.
  unfold accept_until_lock, registrable.
  destruct (config_invalid c); [discriminate |].
  destruct (real_accept e) as [fd|]; [| discriminate].
  destruct (fd =? -1); [discriminate |]. simpl.
  destruct (match sa_family e with
            | Some family => negb (family =? AF_INET)
            | None => false
            end); [discriminate |]. simpl.
  destruct (bpf_setup e s) as [[|] s2]; [| discriminate].
  destruct ((size (fd_to_flow s2) =? 0)%nat && negb (skipped_first s2));
    [discriminate |].
  destruct (setsockopt_ret e =? -1); [discriminate |]. simpl.
  destruct (getsockopt_ret e =? -1); [discriminate |]. simpl.
  destruct (negb (bool_decide (retrieved_cca e = RM_BPF_CUBIC c)));
    [discriminate |]. simpl.
  destruct (getsockname_ret e =? -1); [discriminate |]. simpl.
  destruct (getpeername_ret e =? -1); [discriminate |]. simpl.
  intros [= _ <- <-]. reflexivity.
Qed.

(** The effect on the map of the calls of lines 123-126 for a list of
    handles, and of those of lines 139-143. *)
Lemma kmap_activate_other (s : state) (f : rm_flow) (fds : list Z) :
  forall m : gmap rm_flow Z,
  (forall fd, fd ∈ fds -> fd_to_flow s !! fd <> Some f) ->
  foldl apply_event m (flat_map (activate_events s) fds) !! f = m !! f.
Proof.
  induction fds as [|fd fds IH]; intros m Hno; [reflexivity |].
  simpl. rewrite foldl_app, IH by (intros fd' Hin; apply Hno; right; exact Hin).
  unfold activate_events.
  destruct (fd_to_flow s !! fd) as [p|] eqn:Hp; simpl; [| reflexivity].
  apply lookup_delete_ne. intros ->. apply (Hno fd); [left | exact Hp].
Qed.

Lemma kmap_activate (s : state) (f : rm_flow) (fds : list Z) :
  forall m : gmap rm_flow Z,
  (exists fd, fd ∈ fds /\ fd_to_flow s !! fd = Some f) ->
  foldl apply_event m (flat_map (activate_events s) fds) !! f = None.
Proof.
  induction fds as [|fd fds IH]; intros m (fd0 & Hin & Hf); [inversion Hin |].
  simpl. rewrite foldl_app.
  destruct (decide (Exists (fun fd' => fd_to_flow s !! fd' = Some f) fds))
    as [Hex | Hex].
  - apply IH. apply Exists_exists in Hex. exact Hex.
  - rewrite kmap_activate_other.
    + apply elem_of_cons in Hin as [-> | Hin].
      * unfold activate_events. rewrite Hf. simpl. apply lookup_delete_eq.
      * exfalso. apply Hex. apply Exists_exists. eauto.
    + intros fd' Hin' Hf'. apply Hex. apply Exists_exists. eauto.
Qed.

Lemma kmap_pause_other (s : state) (f : rm_flow) (fds : list Z) :
  forall m : gmap rm_flow Z,
  (forall fd, fd ∈ fds -> fd_to_flow s !! fd <> Some f) ->
  foldl apply_event m (flat_map (pause_events s) fds) !! f = m !! f.
Proof.
  induction fds as [|fd fds IH]; intros m Hno; [reflexivity |].
  simpl. rewrite foldl_app, IH by (intros fd' Hin; apply Hno; right; exact Hin).
  unfold pause_events.
  destruct (fd_to_flow s !! fd) as [p|] eqn:Hp; simpl; [| reflexivity].
  apply lookup_insert_ne. intros ->. apply (Hno fd); [left | exact Hp].
Qed.

Lemma kmap_pause (s : state) (f : rm_flow) (fds : list Z) :
  forall m : gmap rm_flow Z,
  (exists fd, fd ∈ fds /\ fd_to_flow s !! fd = Some f) ->
  foldl apply_event m (flat_map (pause_events s) fds) !! f = Some 0.
Proof.
  induction fds as [|fd fds IH]; intros m (fd0 & Hin & Hf); [inversion Hin |].
  simpl. rewrite foldl_app.
  destruct (decide (Exists (fun fd' => fd_to_flow s !! fd' = Some f) fds))
    as [Hex | Hex].
  - apply IH. apply Exists_exists in Hex. exact Hex.
  - rewrite kmap_pause_other.
    + apply elem_of_cons in Hin as [-> | Hin].
      * unfold pause_events. rewrite Hf. simpl. apply lookup_insert_eq.
      * exfalso. apply Hex. apply Exists_exists. eauto.
    + intros fd' Hin' Hf'. apply Hex. apply Exists_exists. eauto.
Qed.

(** The keys that these calls leave in the map were there before or are
    flows of registered handles. *)
Lemma kmap_rotate_keys (s : state) (f : rm_flow) (na fds : list Z)
    (m : gmap rm_flow Z) :
  is_Some (foldl apply_event
             (foldl apply_event m (flat_map (activate_events s) na))
             (flat_map (pause_events s) fds) !! f) ->
  is_Some (m !! f) \/ exists fd, fd_to_flow s !! fd = Some f.
Proof.
  intros Hsome.
  destruct (decide (Exists (fun fd => fd_to_flow s !! fd = Some f) fds))
    as [Hex | Hex].
  { apply Exists_exists in Hex as (fd & _ & Hf). right. eauto. }
  rewrite kmap_pause_other in Hsome
    by (intros fd Hin Hf; apply Hex; apply Exists_exists; eauto).
  destruct (decide (Exists (fun fd => fd_to_flow s !! fd = Some f) na))
    as [Hex' | Hex'].
  { apply Exists_exists in Hex' as (fd & _ & Hf). right. eauto. }
  rewrite kmap_activate_other in Hsome
    by (intros fd Hin Hf; apply Hex'; apply Exists_exists; eauto).
  left. exact Hsome.
Qed.

Lemma map_agrees_ext (seen : list (Z * rm_flow)) (y y1 : sys) :
  fd_to_flow (globals y1) = fd_to_flow (globals y) ->
  active_fds_queue (globals y1) = active_fds_queue (globals y) ->
  paused_fds_queue (globals y1) = paused_fds_queue (globals y) ->
  flow_to_rwnd (trace (globals y1)) = flow_to_rwnd (trace (globals y)) ->
  sched y1 = sched y ->
  waiting y1 = waiting y ->
  map_agrees seen y -> map_agrees seen y1.
Proof.
  intros Hr Ha Hp Hm Hpc Hw [].
  constructor; unfold handles in *;
    rewrite ?Hr, ?Ha, ?Hp, ?Hm, ?Hpc, ?Hw; assumption.
Qed.

Lemma map_agrees_mono (seen extra : list (Z * rm_flow)) (y : sys) :
  NoDup (seen ++ extra).*1 ->
  NoDup (seen ++ extra).*2 ->
  map_agrees seen y -> map_agrees (seen ++ extra) y.
Proof.
  intros H1 H2 []. constructor; try assumption.
  - intros fd f Hf. apply elem_of_app. left. eauto.
  - intros p Hp. apply elem_of_app. left. eauto.
  - intros fd Hfd. rewrite fmap_app. apply elem_of_app. left. eauto.
  - intros f Hf. rewrite fmap_app. apply elem_of_app. left. eauto.
Qed.

Lemma accepted_single_other (c : config) (l : label) :
  (forall e, l <> LAccept e) -> accepted c [l] = [].
Proof. intros Hl. destruct l; try reflexivity. exfalso. exact (Hl e eq_refl). Qed.

Lemma in_fst (seen : list (Z * rm_flow)) fd f :
  (fd, f) ∈ seen -> fd ∈ seen.*1.
Proof. intros H. apply list_elem_of_fmap. exists (fd, f). auto. Qed.

Lemma in_snd (seen : list (Z * rm_flow)) fd f :
  (fd, f) ∈ seen -> f ∈ seen.*2.
Proof. intros H. apply list_elem_of_fmap. exists (fd, f). auto. Qed.

Lemma map_agrees_accept_returns (c : config) (seen : list (Z * rm_flow))
    e s pc w s1 ret :
  accept_until_lock c e s = (s1, inl ret) ->
  map_agrees seen {| globals := s; sched := pc; waiting := w |} ->
  map_agrees seen {| globals := s1; sched := pc; waiting := w |}.
Proof.
  intros Ha. apply map_agrees_ext; simpl; try reflexivity.
  - accept_frame as (_ & _ & _ & _ & Hr). exact Hr.
  - accept_frame as (Hq & _). exact Hq.
  - accept_frame as (_ & Hq & _). exact Hq.
  - destruct (accept_until_lock_trace c e s s1 _ Ha) as (evs & -> & Hk & _).
    rewrite flow_to_rwnd_app. apply foldl_no_kernel_calls. exact Hk.
Qed.

Lemma map_agrees_accept_registers (c : config) (seen : list (Z * rm_flow))
    e s pc w s1 new_fd flow :
  accept_until_lock c e s = (s1, inr (new_fd, flow)) ->
  NoDup (seen ++ [(new_fd, flow)]).*1 ->
  NoDup (seen ++ [(new_fd, flow)]).*2 ->
  map_agrees seen {| globals := s; sched := pc; waiting := w |} ->
  map_agrees (seen ++ [(new_fd, flow)])
    {| globals := s1; sched := pc; waiting := w ++ [(new_fd, flow)] |}.
Proof.
  intros Ha Hnd1 Hnd2 Hinv.
  pose proof Hnd1 as Hfresh1. pose proof Hnd2 as Hfresh2.
  rewrite fmap_app in Hfresh1. rewrite fmap_app in Hfresh2.
  simpl in Hfresh1, Hfresh2.
  apply NoDup_app in Hfresh1 as (_ & Hfd & _).
  apply NoDup_app in Hfresh2 as (_ & Hfl & _).
  assert (Hnewfd : new_fd ∉ seen.*1).
  { intros Hin. apply (Hfd _ Hin). left. }
  assert (Hnewfl : flow ∉ seen.*2).
  { intros Hin. apply (Hfl _ Hin). left. }
  destruct (accept_until_lock_frame c e s s1 _ Ha)
    as (Hqa & Hqp & _ & _ & _ & Hreg & _).
  assert (Hkm : flow_to_rwnd (trace s1) = flow_to_rwnd (trace s)).
  { destruct (accept_until_lock_trace c e s s1 _ Ha) as (evs & -> & Hk & _).
    rewrite flow_to_rwnd_app. apply foldl_no_kernel_calls. exact Hk. }
  destruct Hinv as [HR HW HH HN HM _ _ HA HP]. simpl in *.
  assert (Habs : fd_to_flow s !! new_fd = None).
  { destruct (fd_to_flow s !! new_fd) as [f0|] eqn:Hf0; [| reflexivity].
    exfalso. apply Hnewfd. exact (in_fst _ _ _ (HR _ _ Hf0)). }
  assert (Hreg' : fd_to_flow s1 = <[new_fd := flow]> (fd_to_flow s)).
  { rewrite Hreg. unfold registry_insert. rewrite Habs. reflexivity. }
  assert (Hh : handles {| globals := s1; sched := pc;
                          waiting := w ++ [(new_fd, flow)] |}
               = handles {| globals := s; sched := pc; waiting := w |}).
  { unfold handles. simpl. rewrite Hqa, Hqp. reflexivity. }
  constructor; simpl; rewrite ?Hh, ?Hkm, ?Hqa, ?Hqp; try assumption.
  - intros fd f. rewrite Hreg', lookup_insert. case_decide.
    + intros [= <-]. subst. apply elem_of_app. right. left.
    + intros Hf. apply elem_of_app. left. eauto.
  - intros p Hp. apply elem_of_app in Hp as [Hp | Hp].
    + apply elem_of_app. left. eauto.
    + apply elem_of_app. right. exact Hp.
  - intros fd Hin. rewrite fmap_app. apply elem_of_app. left. eauto.
  - rewrite fmap_app. simpl. rewrite (assoc_L (++)).
    apply NoDup_app. split; [exact HN | split; [| apply NoDup_singleton]].
    intros fd Hin Hfd'. apply list_elem_of_singleton in Hfd'. subst fd.
    apply Hnewfd. apply elem_of_app in Hin as [Hin | Hin]; [eauto |].
    apply list_elem_of_fmap in Hin as ([fd' f'] & -> & Hin). simpl.
    exact (in_fst _ _ _ (HW _ Hin)).
  - intros f Hf. rewrite fmap_app. apply elem_of_app. left. eauto.
  - intros fd f. rewrite Hreg', lookup_insert. case_decide.
    + intros [= <-] _. subst.
      destruct (flow_to_rwnd (trace s) !! flow) eqn:Hk; [| reflexivity].
      exfalso. apply Hnewfl. apply HM. eauto.
    + intros Hf Hin. apply (HA fd f Hf).
      destruct Hin as [Hin | Hin]; [left; exact Hin | right].
      rewrite fmap_app in Hin. apply elem_of_app in Hin as [Hin | Hin];
        [exact Hin |].
      simpl in Hin. apply list_elem_of_singleton in Hin. congruence.
  - intros fd f. rewrite Hreg', lookup_insert. case_decide.
    + intros [= <-] Hin. subst. exfalso. apply Hnewfd. apply HH.
      unfold handles. simpl. rewrite !elem_of_app. tauto.
    + intros Hf Hin. exact (HP fd f Hf Hin).
Qed.

Lemma map_agrees_accept_locked (c : config) (seen : list (Z * rm_flow))
    s w1 w2 new_fd flow :
  map_agrees seen {| globals := s; sched := Idle;
                     waiting := w1 ++ (new_fd, flow) :: w2 |} ->
  map_agrees seen {| globals := accept_locked c new_fd flow s;
                     sched := Idle; waiting := w1 ++ w2 |}.
Proof.
  intros [HR HW HH HN HM HS1 HS2 HA HP]. unfold handles in *. simpl in *.
  rewrite app_nil_r in *.
  assert (Hseen : (new_fd, flow) ∈ seen).
  { apply HW. apply elem_of_app. right. left. }
  assert (Hperm : (active_fds_queue s ++ paused_fds_queue s)
                    ++ (w1 ++ (new_fd, flow) :: w2).*1
                  ≡ₚ new_fd :: (active_fds_queue s ++ paused_fds_queue s)
                       ++ (w1 ++ w2).*1).
  { rewrite !fmap_app. simpl. rewrite !(assoc_L (++)).
    symmetry. apply Permutation_middle. }
  rewrite Hperm in HN. apply NoDup_cons in HN as [Hnotin HN].
  rewrite !elem_of_app in Hnotin.
  assert (Hw : forall fd, fd ∈ (w1 ++ w2).*1 ->
                 fd ∈ (w1 ++ (new_fd, flow) :: w2).*1).
  { intros fd. rewrite !fmap_app, !elem_of_app. simpl.
    rewrite elem_of_cons. tauto. }
  assert (Hw' : forall fd, fd ∈ (w1 ++ (new_fd, flow) :: w2).*1 ->
                  fd = new_fd \/ fd ∈ (w1 ++ w2).*1).
  { intros fd. rewrite !fmap_app, !elem_of_app. simpl.
    rewrite elem_of_cons. tauto. }
  unfold accept_locked.
  destruct (N.of_nat (length (active_fds_queue s)) <? max_active_flows c)%N;
    constructor; unfold handles; simpl; rewrite ?app_nil_r;
    try assumption.
  - intros p Hp. apply HW. rewrite elem_of_app in *. rewrite elem_of_cons.
    tauto.
  - intros fd. rewrite !elem_of_app, list_elem_of_singleton.
    intros [[Hin | ->] | Hin].
    + apply HH. rewrite elem_of_app. tauto.
    + exact (in_fst _ _ _ Hseen).
    + apply HH. rewrite elem_of_app. tauto.
  - assert (Hp3 : ((active_fds_queue s ++ [new_fd]) ++ paused_fds_queue s)
                    ++ (w1 ++ w2).*1
                  ≡ₚ new_fd :: (active_fds_queue s ++ paused_fds_queue s)
                       ++ (w1 ++ w2).*1).
    { rewrite <- !(assoc_L (++)). simpl. symmetry.
      apply Permutation_middle. }
    rewrite Hp3. apply NoDup_cons. split; [| exact HN].
    rewrite !elem_of_app. tauto.
  - intros fd f Hf. rewrite elem_of_app, list_elem_of_singleton.
    intros [[Hin | ->] | Hin]; apply (HA _ f Hf).
    + left. exact Hin.
    + right. rewrite fmap_app, elem_of_app. simpl. rewrite elem_of_cons.
      tauto.
    + right. apply Hw. exact Hin.
  - intros p Hp. apply HW. rewrite elem_of_app in *. rewrite elem_of_cons.
    tauto.
  - intros fd. rewrite !elem_of_app, list_elem_of_singleton.
    intros [Hin | [Hin | ->]].
    + apply HH. rewrite elem_of_app. tauto.
    + apply HH. rewrite elem_of_app. tauto.
    + exact (in_fst _ _ _ Hseen).
  - assert (Hp3 : (active_fds_queue s ++ paused_fds_queue s ++ [new_fd])
                    ++ (w1 ++ w2).*1
                  ≡ₚ new_fd :: (active_fds_queue s ++ paused_fds_queue s)
                       ++ (w1 ++ w2).*1).
    { rewrite (assoc_L (++) (active_fds_queue s)).
      rewrite <- (assoc_L (++) (active_fds_queue s ++ paused_fds_queue s)).
      simpl. symmetry. apply Permutation_middle. }
    rewrite Hp3. apply NoDup_cons. split; [| exact HN].
    rewrite !elem_of_app. tauto.
  - intros f. rewrite flow_to_rwnd_snoc. simpl. rewrite lookup_insert.
    case_decide; [subst; intros _; exact (in_snd _ _ _ Hseen) | apply HM].
  - intros fd f Hf Hin. rewrite flow_to_rwnd_snoc. simpl.
    assert (Hne : fd <> new_fd).
    { intros ->. apply Hnotin.
      destruct Hin as [Hin | Hin]; [left; left | right]; exact Hin. }
    rewrite lookup_insert_ne.
    + apply (HA fd f Hf). destruct Hin as [Hin | Hin]; [tauto |].
      right. apply Hw. exact Hin.
    + intros ->. apply Hne.
      exact (seen_flow_injective seen _ _ _ HS2 (HR _ _ Hf) Hseen).
  - intros fd f Hf. rewrite flow_to_rwnd_snoc. simpl.
    rewrite elem_of_app, list_elem_of_singleton, elem_of_nil.
    destruct (decide (fd = new_fd)) as [-> | Hne].
    + intros _.
      rewrite (seen_fd_functional seen _ _ _ HS1 (HR _ _ Hf) Hseen).
      apply lookup_insert_eq.
    + intros Hin. rewrite lookup_insert_ne.
      * apply (HP fd f Hf). tauto.
      * intros ->. apply Hne.
        exact (seen_flow_injective seen _ _ _ HS2 (HR _ _ Hf) Hseen).
Qed.

Lemma map_agrees_close (seen : list (Z * rm_flow)) e sockfd s pc w :
  map_agrees seen {| globals := s; sched := pc; waiting := w |} ->
  map_agrees seen {| globals := snd (close e sockfd s); sched := pc;
                     waiting := w |}.
Proof.
  intros Hinv.
  destruct (real_close e) as [ret|] eqn:He;
    [| unfold close; rewrite He; exact Hinv].
  destruct (decide (ret = -1)) as [-> | Hret];
    [unfold close; rewrite He; exact Hinv |].
  rewrite (close_registry e sockfd s ret He Hret). simpl.
  destruct Hinv as [HR HW HH HN HM HS1 HS2 HA HP]. unfold handles in *.
  simpl in *.
  assert (Hkm : forall fd f,
            delete sockfd (fd_to_flow s) !! fd = Some f ->
            flow_to_rwnd
              (trace s ++ match fd_to_flow s !! sockfd with
                          | Some p => [BpfMapDeleteElem (flow_to_rwnd_fd s) p]
                          | None => []
                          end) !! f
            = flow_to_rwnd (trace s) !! f).
  { intros fd f Hf. apply lookup_delete_Some in Hf as [Hne Hf].
    destruct (fd_to_flow s !! sockfd) as [f0|] eqn:Hf0;
      [| rewrite app_nil_r; reflexivity].
    rewrite flow_to_rwnd_snoc. simpl. apply lookup_delete_ne.
    intros ->. apply Hne.
    exact (seen_flow_injective seen _ _ _ HS2 (HR _ _ Hf0) (HR _ _ Hf)). }
  constructor; unfold handles; simpl; try assumption.
  - intros fd f Hf. apply lookup_delete_Some in Hf as [_ Hf]. eauto.
  - intros f. destruct (fd_to_flow s !! sockfd) as [f0|];
      [| rewrite app_nil_r; apply HM].
    rewrite flow_to_rwnd_snoc. simpl. rewrite lookup_delete.
    case_decide; [intros [? [=]] | apply HM].
  - intros fd f Hf Hin. rewrite (Hkm fd f Hf).
    apply lookup_delete_Some in Hf as [_ Hf]. eauto.
  - intros fd f Hf Hin. rewrite (Hkm fd f Hf).
    apply lookup_delete_Some in Hf as [_ Hf]. eauto.
Qed.

Lemma map_agrees_select (seen : list (Z * rm_flow)) s w na na1 s1 :
  select_body na s = (na1, s1) ->
  map_agrees seen {| globals := s; sched := Selecting na; waiting := w |} ->
  map_agrees seen {| globals := s1; sched := Selecting na1; waiting := w |}.
Proof.
  intros Hb Hinv.
  destruct (select_body_cases _ _ _ _ Hb)
    as [[-> ->] | (next_fd & rest & Hq & _ & -> & ->)]; [exact Hinv |].
  destruct Hinv as [HR HW HH HN HM HS1 HS2 HA HP]. unfold handles in *.
  simpl in *. rewrite Hq in *.
  assert (Hperm : active_fds_queue s ++ rest ++ na ++ [next_fd]
                  ≡ₚ active_fds_queue s ++ (next_fd :: rest) ++ na).
  { apply Permutation_app_head. rewrite (assoc_L (++)). simpl. symmetry.
    apply Permutation_cons_append. }
  constructor; unfold handles; simpl; try assumption.
  - intros fd Hin. apply HH. rewrite <- Hperm. exact Hin.
  - rewrite Hperm. exact HN.
  - intros fd f Hf Hin. apply (HP fd f Hf).
    rewrite elem_of_app, list_elem_of_singleton in Hin.
    rewrite elem_of_cons. tauto.
Qed.

Lemma map_agrees_rotate (seen : list (Z * rm_flow)) s w na :
  map_agrees seen {| globals := s; sched := Selecting na; waiting := w |} ->
  map_agrees seen {| globals := rotate na s; sched := Idle; waiting := w |}.
Proof.
  intros [HR HW HH HN HM HS1 HS2 HA HP]. unfold handles in *. simpl in *.
  rewrite rotate_spec.
  assert (Hperm : na ++ (paused_fds_queue s ++ active_fds_queue s) ++ []
                  ≡ₚ active_fds_queue s ++ paused_fds_queue s ++ na).
  { rewrite app_nil_r. rewrite (Permutation_app_comm na).
    rewrite (Permutation_app_comm (paused_fds_queue s)).
    rewrite <- (assoc_L (++)). reflexivity. }
  pose proof HN as HN'.
  rewrite <- !(assoc_L (++)) in HN'.
  apply NoDup_app in HN' as (_ & Dap & HN').
  apply NoDup_app in HN' as (_ & Dp & HN').
  apply NoDup_app in HN' as (_ & Dn & _).
  assert (Hkm : flow_to_rwnd
                  (trace s ++ flat_map (activate_events s) na
                     ++ flat_map (pause_events s) (active_fds_queue s))
                = foldl apply_event
                    (foldl apply_event (flow_to_rwnd (trace s))
                       (flat_map (activate_events s) na))
                    (flat_map (pause_events s) (active_fds_queue s))).
  { rewrite flow_to_rwnd_app, foldl_app. reflexivity. }
  assert (Hsame : forall fd1 fd2 f,
            fd_to_flow s !! fd1 = Some f -> fd_to_flow s !! fd2 = Some f ->
            fd1 = fd2).
  { intros fd1 fd2 f H1 H2.
    exact (seen_flow_injective seen _ _ _ HS2 (HR _ _ H1) (HR _ _ H2)). }
  constructor; unfold handles; simpl; rewrite ?Hkm; try assumption.
  - intros fd Hin. apply HH. rewrite <- Hperm. exact Hin.
  - rewrite Hperm. exact HN.
  - intros f Hf. destruct (kmap_rotate_keys _ _ _ _ _ Hf) as [Hold | [fd Hfd]].
    + apply HM. exact Hold.
    + exact (in_snd _ _ _ (HR _ _ Hfd)).
  - intros fd f Hf Hin.
    rewrite kmap_pause_other.
    + destruct Hin as [Hin | Hin].
      * apply kmap_activate. eauto.
      * rewrite kmap_activate_other; [apply (HA fd f Hf); right; exact Hin |].
        intros fd' Hin' Hf'. rewrite (Hsame fd' fd f Hf' Hf) in Hin'.
        exact (Dn _ Hin' Hin).
    + intros fd' Hin' Hf'. rewrite (Hsame fd' fd f Hf' Hf) in Hin'.
      apply (Dap _ Hin'). rewrite !elem_of_app. tauto.
  - intros fd f Hf Hin. rewrite elem_of_nil, elem_of_app in Hin.
    destruct Hin as [[Hin | Hin] | []].
    + rewrite kmap_pause_other.
      * rewrite kmap_activate_other; [apply (HP fd f Hf); left; exact Hin |].
        intros fd' Hin' Hf'. rewrite (Hsame fd' fd f Hf' Hf) in Hin'.
        apply (Dp _ Hin). rewrite elem_of_app. tauto.
      * intros fd' Hin' Hf'. rewrite (Hsame fd' fd f Hf' Hf) in Hin'.
        apply (Dap _ Hin'). rewrite !elem_of_app. tauto.
    + apply kmap_pause. eauto.
Qed.

Lemma accepted_cons (c : config) (l : label) (ls : list label) :
  accepted c (l :: ls) = accepted c [l] ++ accepted c ls.
Proof.
  destruct l; try reflexivity. simpl.
  destruct (registrable c e); reflexivity.
Qed.

Lemma map_agrees_step (c : config) (seen : list (Z * rm_flow)) (y : sys)
    (l : label) (y1 : sys) :
  map_agrees seen y ->
  step c y l y1 ->
  NoDup (seen ++ accepted c [l]).*1 ->
  NoDup (seen ++ accepted c [l]).*2 ->
  map_agrees (seen ++ accepted c [l]) y1.
Proof.
  intros Hinv Hstep Hnd1 Hnd2.
  inversion Hstep; subst.
  - apply map_agrees_mono; [assumption | assumption |].
    eapply map_agrees_accept_returns; eassumption.
  - match goal with H : accept_until_lock _ _ _ = _ |- _ =>
      pose proof (accept_until_lock_registrable _ _ _ _ _ _ H) as Hreg end.
    simpl in *. rewrite Hreg in *.
    eapply map_agrees_accept_registers; eassumption.
  - simpl. rewrite app_nil_r. apply map_agrees_accept_locked. exact Hinv.
  - simpl. rewrite app_nil_r. apply map_agrees_close. exact Hinv.
  - simpl. rewrite app_nil_r. exact Hinv.
  - simpl. rewrite app_nil_r.
    destruct Hinv as [HR HW HH HN HM HS1 HS2 HA HP].
    unfold handles in *. simpl in *.
    constructor; unfold handles; simpl; assumption.
  - simpl. rewrite app_nil_r. eapply map_agrees_select; eassumption.
  - simpl. rewrite app_nil_r. apply map_agrees_rotate. exact Hinv.
Qed.

Lemma map_agrees_run (c : config) (y : sys) (ls : list label) (y1 : sys) :
  run c y ls y1 ->
  forall seen,
  map_agrees seen y ->
  NoDup (seen ++ accepted c ls).*1 ->
  NoDup (seen ++ accepted c ls).*2 ->
  map_agrees (seen ++ accepted c ls) y1.
Proof.
  intros Hrun. induction Hrun as [| y l y1 ls y2 Hs _ IH];
    intros seen Hinv Hnd1 Hnd2.
  - simpl. rewrite app_nil_r. exact Hinv.
  - rewrite accepted_cons, (assoc_L (++)) in *.
    apply IH; [| assumption | assumption].
    apply (map_agrees_step c seen y l y1 Hinv Hs).
    + rewrite fmap_app in Hnd1. apply NoDup_app in Hnd1 as (H & _). exact H.
    + rewrite fmap_app in Hnd2. apply NoDup_app in Hnd2 as (H & _). exact H.
Qed.

(** As long as no descriptor and no four-tuple is handed twice to an
    accept whose calls into the system all succeed, the kernel map
    agrees with the queues in every state reached from start-up: the
    flow of a registered handle has no entry while the handle is on the
    active queue, and has the entry zero while the handle is on the
    paused queue or picked by the selection in progress. *)
Theorem kernel_map_agrees_with_queues (c : config) (ls : list label)
    (y : sys) :
  run c initial_sys ls y ->
  NoDup (accepted c ls).*1 ->
  NoDup (accepted c ls).*2 ->
  forall fd f,
    fd_to_flow (globals y) !! fd = Some f ->
    (fd ∈ active_fds_queue (globals y) ->
       flow_to_rwnd (trace (globals y)) !! f = None) /\
    (fd ∈ paused_fds_queue (globals y) \/ fd ∈ selecting (sched y) ->
       flow_to_rwnd (trace (globals y)) !! f = Some 0).
Proof.
  intros Hrun Hnd1 Hnd2 fd f Hf.
  assert (Hinit : map_agrees [] initial_sys).
  { constructor; unfold handles, flow_to_rwnd; simpl.
    - intros fd0 f0 H. rewrite lookup_empty in H. discriminate H.
    - intros p H. inversion H.
    - intros fd0 H. inversion H.
    - constructor.
    - intros f0 [v Hv]. rewrite lookup_empty in Hv. discriminate Hv.
    - constructor.
    - constructor.
    - intros fd0 f0 H. rewrite lookup_empty in H. discriminate H.
    - intros fd0 f0 H. rewrite lookup_empty in H. discriminate H. }
  destruct (map_agrees_run c initial_sys ls y Hrun [] Hinit Hnd1 Hnd2)
    as [_ _ _ _ _ _ _ HA HP].
  split.
  - intros Hin. apply (HA fd f Hf). left. exact Hin.
  - intros Hin. exact (HP fd f Hf Hin).
Qed.

Lemma kernel_map_agrees_with_queues_witness :
  flow_to_rwnd (trace three_flows_state) !! four_tuple (accept_ok 6 4)
    = Some 0 /\
  flow_to_rwnd (trace three_flows_state) !! four_tuple (accept_ok 5 3)
    = None.
Proof.
  assert (Hrun : run (example_config 2) initial_sys
            [LAccept (accept_ok 3 1);
             LAccept (accept_ok 4 2);
             LAcceptLocked 4 (four_tuple (accept_ok 4 2));
             LAccept (accept_ok 5 3);
             LAcceptLocked 5 (four_tuple (accept_ok 5 3));
             LAccept (accept_ok 6 4);
             LAcceptLocked 6 (four_tuple (accept_ok 6 4))]
            {| globals := three_flows_state; sched := Idle;
               waiting := [] |}).
  { eapply run_cons.
    { apply step_accept_returns with (ret := 3). vm_compute. reflexivity. }
    eapply run_cons.
    { apply step_accept_registers
        with (new_fd := 4) (flow := four_tuple (accept_ok 4 2)).
      vm_compute. reflexivity. }
    eapply run_cons.
    { apply (step_accept_locked _ _ [] []). }
    eapply run_cons.
    { apply step_accept_registers
        with (new_fd := 5) (flow := four_tuple (accept_ok 5 3)).
      vm_compute. reflexivity. }
    eapply run_cons.
    { apply (step_accept_locked _ _ [] []). }
    eapply run_cons.
    { apply step_accept_registers
        with (new_fd := 6) (flow := four_tuple (accept_ok 6 4)).
      vm_compute. reflexivity. }
    eapply run_cons.
    { apply (step_accept_locked _ _ [] []). }
    apply run_nil. }
  split.
  - refine (proj2 (kernel_map_agrees_with_queues (example_config 2) _ _
                     Hrun _ _ 6 (four_tuple (accept_ok 6 4)) _) _).
    + apply (bool_decide_unpack _). vm_compute. reflexivity.
    + apply (bool_decide_unpack _). vm_compute. reflexivity.
    + vm_compute. reflexivity.
    + left. vm_compute. left.
  - refine (proj1 (kernel_map_agrees_with_queues (example_config 2) _ _
                     Hrun _ _ 5 (four_tuple (accept_ok 5 3)) _) _).
    + apply (bool_decide_unpack _). vm_compute. reflexivity.
    + apply (bool_decide_unpack _). vm_compute. reflexivity.
    + vm_compute. reflexivity.
    + vm_compute. right. left.
Defined.

(** ** The four-tuple *)

Lemma lor_shiftl_low (a b n : Z) :
  0 <= n -> 0 <= b < 2 ^ n -> Z.lor (Z.shiftl a n) b = a * 2 ^ n + b.
Proof.
  intros Hn Hb. rewrite <- Z.shiftl_mul_pow2 by exact Hn.
  symmetry. apply Z.add_nocarry_lor.
  apply Z.bits_inj'. intros i Hi.
  rewrite Z.land_spec, Z.bits_0.
  destruct (Z.lt_ge_cases i n) as [Hlt | Hge].
  - rewrite Z.shiftl_spec_low by exact Hlt. reflexivity.
  - destruct (Z.eq_dec b 0) as [-> | Hb0].
    + rewrite Z.bits_0. apply andb_false_r.
    + rewrite (Z.bits_above_log2 b i); [apply andb_false_r | lia |].
      apply Z.log2_lt_pow2; [lia |].
      apply Z.lt_le_trans with (2 ^ n); [lia |].
      apply Z.pow_le_mono_r; lia.
Qed.

Lemma ntohs_bytes (x : Z) :
  ntohs x = (x mod 256) * 256 + (x / 256) mod 256.
Proof.
  unfold ntohs.
  change 255 with (Z.ones 8).
  rewrite !Z.land_ones, Z.shiftr_div_pow2 by lia.
  rewrite lor_shiftl_low; [reflexivity | lia |].
  apply Z.mod_pos_bound. reflexivity.
Qed.

Lemma ntohl_bytes (x : Z) :
  ntohl x = (x mod 256) * 16777216 + ((x / 256) mod 256) * 65536
            + ((x / 65536) mod 256) * 256 + (x / 16777216) mod 256.
Proof.
  unfold ntohl.
  change 255 with (Z.ones 8).
  rewrite !Z.land_ones, !Z.shiftr_div_pow2 by lia.
  change (2 ^ 8) with 256. change (2 ^ 16) with 65536.
  change (2 ^ 24) with 16777216.
  pose proof (Z.mod_pos_bound x 256 eq_refl).
  pose proof (Z.mod_pos_bound (x / 256) 256 eq_refl).
  pose proof (Z.mod_pos_bound (x / 65536) 256 eq_refl).
  pose proof (Z.mod_pos_bound (x / 16777216) 256 eq_refl).
  rewrite (lor_shiftl_low ((x / 65536) mod 256)) by (try change (2 ^ 8) with 256; lia).
  rewrite (lor_shiftl_low ((x / 256) mod 256))
    by (try change (2 ^ 8) with 256; try change (2 ^ 16) with 65536; lia).
  rewrite lor_shiftl_low
    by (try change (2 ^ 8) with 256; try change (2 ^ 16) with 65536;
        try change (2 ^ 24) with 16777216; lia).
  change (2 ^ 8) with 256. change (2 ^ 16) with 65536.
  change (2 ^ 24) with 16777216. lia.
Qed.


Lemma ntohs_involutive (x : Z) : 0 <= x < 65536 -> ntohs (ntohs x) = x.
Proof.
  intros Hx. rewrite !ntohs_bytes.
  Z.div_mod_to_equations. lia.
Qed.

Lemma four_bytes (a b c d : Z) :
  0 <= a < 256 -> 0 <= b < 256 -> 0 <= c < 256 -> 0 <= d < 256 ->
  let y := a * 16777216 + b * 65536 + c * 256 + d in
  y mod 256 = d /\ (y / 256) mod 256 = c /\
  (y / 65536) mod 256 = b /\ (y / 16777216) mod 256 = a.
Proof.
  intros Ha Hb Hc Hd y. subst y.
  assert (H0 : (a * 16777216 + b * 65536 + c * 256 + d) / 256
               = a * 65536 + b * 256 + c).
  { symmetry. apply (Z.div_unique _ 256 _ d); lia. }
  assert (H1 : (a * 16777216 + b * 65536 + c * 256 + d) / 65536
               = a * 256 + b).
  { symmetry. apply (Z.div_unique _ 65536 _ (c * 256 + d)); lia. }
  assert (H2 : (a * 16777216 + b * 65536 + c * 256 + d) / 16777216 = a).
  { symmetry. apply (Z.div_unique _ 16777216 _ (b * 65536 + c * 256 + d));
      lia. }
  rewrite H0, H1, H2. repeat split.
  - symmetry. apply (Z.mod_unique _ 256 (a * 65536 + b * 256 + c)); lia.
  - symmetry. apply (Z.mod_unique _ 256 (a * 256 + b)); lia.
  - symmetry. apply (Z.mod_unique _ 256 a); lia.
  - apply Z.mod_small. lia.
Qed.

Lemma ntohl_involutive (x : Z) :
  0 <= x < 4294967296 -> ntohl (ntohl x) = x.
Proof.
  intros Hx. rewrite (ntohl_bytes (ntohl x)), (ntohl_bytes x).
  pose proof (Z.mod_pos_bound x 256 eq_refl) as B0.
  pose proof (Z.mod_pos_bound (x / 256) 256 eq_refl) as B1.
  pose proof (Z.mod_pos_bound (x / 65536) 256 eq_refl) as B2.
  pose proof (Z.mod_pos_bound (x / 16777216) 256 eq_refl) as B3.
  destruct (four_bytes _ _ _ _ B0 B1 B2 B3) as (-> & -> & -> & ->).
  assert (H3 : (x / 16777216) mod 256 = x / 16777216).
  { apply Z.mod_small. split; [apply Z.div_pos; lia |].
    apply Z.div_lt_upper_bound; lia. }
  rewrite H3.
  pose proof (Z.div_mod x 256 ltac:(lia)) as E0.
  pose proof (Z.div_mod (x / 256) 256 ltac:(lia)) as E1.
  pose proof (Z.div_mod (x / 65536) 256 ltac:(lia)) as E2.
  assert (D1 : x / 256 / 256 = x / 65536)
    by (rewrite Z.div_div by lia; reflexivity).
  assert (D2 : x / 65536 / 256 = x / 16777216)
    by (rewrite Z.div_div by lia; reflexivity).
  rewrite D1 in E1. rewrite D2 in E2. lia.
Qed.

(** The four-tuple of lines 254-257 determines the two socket
    addresses it is built from, so connections that differ in an address
    or a port get different keys in the kernel map; and its fields are
    32-bit addresses and 16-bit ports whatever the input. *)
Theorem four_tuple_faithful (e1 e2 : accept_env) :
  (sockaddr_in_range (local_sockaddr e1) ->
   sockaddr_in_range (remote_sockaddr e1) ->
   sockaddr_in_range (local_sockaddr e2) ->
   sockaddr_in_range (remote_sockaddr e2) ->
   four_tuple e1 = four_tuple e2 ->
   local_sockaddr e1 = local_sockaddr e2 /\
   remote_sockaddr e1 = remote_sockaddr e2) /\
  0 <= local_addr (four_tuple e1) < 4294967296 /\
  0 <= remote_addr (four_tuple e1) < 4294967296 /\
  0 <= local_port (four_tuple e1) < 65536 /\
  0 <= remote_port (four_tuple e1) < 65536.
Proof.
  split.
  - intros [Hl1 Hl1'] [Hr1 Hr1'] [Hl2 Hl2'] [Hr2 Hr2'] Heq.
    unfold four_tuple in Heq. injection Heq as Ha Hb Hc Hd.
    apply (f_equal ntohl) in Ha, Hb. apply (f_equal ntohs) in Hc, Hd.
    rewrite !ntohl_involutive in Ha, Hb by assumption.
    rewrite !ntohs_involutive in Hc, Hd by assumption.
    destruct (local_sockaddr e1), (local_sockaddr e2),
      (remote_sockaddr e1), (remote_sockaddr e2).
    simpl in *. subst. split; reflexivity.
  - unfold four_tuple. simpl. rewrite !ntohl_bytes, !ntohs_bytes.
    pose proof (fun x => Z.mod_pos_bound x 256 eq_refl) as B.
    pose proof (B (sin_addr (local_sockaddr e1))).
    pose proof (B (sin_addr (local_sockaddr e1) / 256)).
    pose proof (B (sin_addr (local_sockaddr e1) / 65536)).
    pose proof (B (sin_addr (local_sockaddr e1) / 16777216)).
    pose proof (B (sin_addr (remote_sockaddr e1))).
    pose proof (B (sin_addr (remote_sockaddr e1) / 256)).
    pose proof (B (sin_addr (remote_sockaddr e1) / 65536)).
    pose proof (B (sin_addr (remote_sockaddr e1) / 16777216)).
    pose proof (B (sin_port (local_sockaddr e1))).
    pose proof (B (sin_port (local_sockaddr e1) / 256)).
    pose proof (B (sin_port (remote_sockaddr e1))).
    pose proof (B (sin_port (remote_sockaddr e1) / 256)).
    clear B. repeat split; lia.
Qed.

Lemma four_tuple_faithful_witness :
  remote_sockaddr (accept_ok 4 2) = remote_sockaddr (accept_ok 5 2).
Proof.
  refine (proj2 (proj1 (four_tuple_faithful (accept_ok 4 2) (accept_ok 5 2))
                   _ _ _ _ _)).
  - split; simpl; lia.
  - split; simpl; lia.
  - split; simpl; lia.
  - split; simpl; lia.
  - reflexivity.
Defined.
